(** * RAGging: job store, chunking, hybrid retrieval, reranking and chat turns

    A shallow embedding of the pipeline core of the repository
    (src/common/storage.py and the agents under src/agents/), followed by
    the properties established for it.

    Python [str] values are lists of Unicode code points, Python [int]s are
    [Z], lengths and list positions are [nat].  Calls that leave the
    process (the tokenizer, the vector database, the language models) are
    functions or outcomes supplied by the caller of the model. *)

From Stdlib Require Import String Ascii.
From Stdlib Require Import List ZArith NArith Lia Bool.
From Stdlib Require Import Sorting.Sorted Permutation.
Import ListNotations.

Set Implicit Arguments.

(* ================================================================== *)
(** * Part I: the program *)
(* ================================================================== *)

(** ** Python strings *)

Module PyStr.

Definition char := N.
Definition str := list char.

(** A literal of the source, given as an ASCII string. *)
Definition cps (s : string) : str :=
  map N_of_ascii (list_ascii_of_string s).

Fixpoint str_eqb (a b : str) : bool :=
  match a, b with
  | [], [] => true
  | x :: a', y :: b' => N.eqb x y && str_eqb a' b'
  | _, _ => false
  end.

Definition NL : char := 10%N.
Definition SP : char := 32%N.

(** [str.isspace] on one code point; the same table decides [\s] in a
    [str] pattern and the characters removed by [str.strip()]. *)
Definition isspace (c : char) : bool :=
  ((9 <=? c) && (c <=? 13))%N || ((28 <=? c) && (c <=? 31))%N
  || (c =? 32)%N || (c =? 133)%N || (c =? 160)%N || (c =? 5760)%N
  || ((8192 <=? c) && (c <=? 8202))%N || (c =? 8232)%N || (c =? 8233)%N
  || (c =? 8239)%N || (c =? 8287)%N || (c =? 12288)%N.

(** The part of the interpreter's Unicode database the agents consult:
    the decimal value of a character of category Nd (what [\d] matches and
    [int] accepts), the characters [str.isdigit] accepts, [str.lower] and
    [str.upper]. *)
Class UnicodeData := {
  decimal_value : char -> option Z;
  isdigit_char : char -> bool;
  lower : str -> str;
  upper : str -> str
}.

Definition isdecimal `{UnicodeData} (c : char) : bool :=
  match decimal_value c with Some _ => true | None => false end.

(** [int(s)] for a string of decimal digits; [None] is a ValueError. *)
Definition int_of_decimals `{UnicodeData} (s : str) : option Z :=
  fold_left
    (fun acc c =>
       match acc, decimal_value c with
       | Some n, Some d => Some (10 * n + d)%Z
       | _, _ => None
       end)
    s (Some 0%Z).

(** [s.isdigit()] *)
Definition isdigit `{UnicodeData} (s : str) : bool :=
  match s with
  | [] => false
  | _ => forallb isdigit_char s
  end.

(** The database restricted to ASCII, for running the model on ASCII
    inputs. *)
Definition ascii_decimal (c : char) : option Z :=
  if ((48 <=? c) && (c <=? 57))%N then Some (Z.of_N c - 48)%Z else None.

Definition ascii_lower_char (c : char) : char :=
  if ((65 <=? c) && (c <=? 90))%N then (c + 32)%N else c.

Definition ascii_upper_char (c : char) : char :=
  if ((97 <=? c) && (c <=? 122))%N then (c - 32)%N else c.

Definition ascii_tables : UnicodeData := {|
  decimal_value := ascii_decimal;
  isdigit_char := fun c => ((48 <=? c) && (c <=? 57))%N;
  lower := map ascii_lower_char;
  upper := map ascii_upper_char
|}.

Fixpoint lstrip_with (p : char -> bool) (s : str) : str :=
  match s with
  | [] => []
  | c :: s' => if p c then lstrip_with p s' else s
  end.

Definition rstrip_with (p : char -> bool) (s : str) : str :=
  rev (lstrip_with p (rev s)).

Definition strip_with (p : char -> bool) (s : str) : str :=
  rstrip_with p (lstrip_with p s).

(** [s.strip()] *)
Definition strip (s : str) : str := strip_with isspace s.

(** [s.strip(chars)] *)
Definition strip_chars (chars : str) (s : str) : str :=
  strip_with (fun c => existsb (N.eqb c) chars) s.

(** The longest prefix whose characters satisfy [p], and the rest. *)
Fixpoint span (p : char -> bool) (s : str) : str * str :=
  match s with
  | [] => ([], [])
  | c :: s' =>
      if p c then let (a, b) := span p s' in (c :: a, b) else ([], s)
  end.

(** [s.split(sep)] for a one-character separator: never empty. *)
Fixpoint split (sep : char) (s : str) : list str :=
  match s with
  | [] => [[]]
  | c :: s' =>
      if (c =? sep)%N then [] :: split sep s'
      else match split sep s' with
           | w :: ws => (c :: w) :: ws
           | [] => [[c]]
           end
  end.

(** [s.split()]: the maximal runs of non-whitespace characters. *)
Fixpoint split_ws_from (cur : str) (s : str) : list str :=
  match s with
  | [] => match cur with [] => [] | _ => [rev cur] end
  | c :: s' =>
      if isspace c
      then match cur with
           | [] => split_ws_from [] s'
           | _ => rev cur :: split_ws_from [] s'
           end
      else split_ws_from (c :: cur) s'
  end.

Definition split_ws (s : str) : list str := split_ws_from [] s.

(** [sep.join(parts)] *)
Fixpoint join (sep : str) (parts : list str) : str :=
  match parts with
  | [] => []
  | [p] => p
  | p :: ps => p ++ sep ++ join sep ps
  end.

(** Truthiness of a [str]. *)
Definition nonempty (s : str) : bool :=
  match s with [] => false | _ => true end.

(** ** Python slices and defaults *)

(** [l[:k]] for an [int] [k]. *)
Definition take {A} (l : list A) (k : Z) : list A :=
  if (0 <=? k)%Z then firstn (Z.to_nat k) l
  else firstn (length l - Z.to_nat (- k)) l.

(** [l[-n:]] for [n > 0]. *)
Definition last_n {A} (l : list A) (n : Z) : list A :=
  skipn (length l - Z.to_nat n) l.

(** [l[i:j]] for [0 <= i]; a negative [j] counts from the end. *)
Definition slice {A} (l : list A) (i j : Z) : list A :=
  skipn (Z.to_nat i) (take l j).

(** [x or d] for an optional [int]: [None] and [0] are falsy. *)
Definition int_or (x : option Z) (d : Z) : Z :=
  match x with
  | Some v => if (v =? 0)%Z then d else v
  | None => d
  end.

(** Decimal rendering of a non-negative [int], as [str(n)] gives it. *)
Fixpoint digits_fuel (fuel : nat) (n : N) (acc : str) : str :=
  match fuel with
  | O => acc
  | S f =>
      let acc' := (48 + n mod 10)%N :: acc in
      if (n <? 10)%N then acc' else digits_fuel f (n / 10)%N acc'
  end.

Definition str_of_N (n : N) : str := digits_fuel (S (N.to_nat (N.log2 n))) n [].

Definition str_of_Z (z : Z) : str :=
  if (z <? 0)%Z then 45%N :: str_of_N (Z.to_N (- z)) else str_of_N (Z.to_N z).

(** ** Exceptions and sorting *)

(** A raised exception: its class and [str(e)]. *)
Inductive exn := Exception (kind : string) (msg : str).

Definition exn_msg (e : exn) : str :=
  match e with Exception _ m => m end.

Inductive outcome (A : Type) : Type :=
| Return (a : A)
| Raise (e : exn).
Arguments Return {A} a.
Arguments Raise {A} e.

(** A stable sort: [before x y] says that [x] may stand before [y]; an
    element is placed in front of the first later element it may stand
    before, so elements that compare equal keep their order, as with
    [sorted] and with [ORDER BY] over rows in insertion order. *)
Fixpoint insert_by {A} (before : A -> A -> bool) (x : A) (l : list A) : list A :=
  match l with
  | [] => [x]
  | y :: l' => if before x y then x :: y :: l' else y :: insert_by before x l'
  end.

Definition sort_by {A} (before : A -> A -> bool) (l : list A) : list A :=
  fold_right (insert_by before) [] l.

(** ** Dictionaries *)

(** The values the agents keep in payloads and filters. *)
Inductive value := VNone | VInt (z : Z) | VStr (s : str).

Definition value_eqb (a b : value) : bool :=
  match a, b with
  | VNone, VNone => true
  | VInt x, VInt y => (x =? y)%Z
  | VStr x, VStr y => str_eqb x y
  | _, _ => false
  end.

(** [str(v)], as an f-string renders a value. *)
Definition str_of_value (v : value) : str :=
  match v with
  | VNone => cps "None"
  | VInt z => str_of_Z z
  | VStr s => s
  end.

(** A [dict] with [str] keys, in insertion order. *)
Definition dict := list (str * value).

Fixpoint dict_get (k : str) (d : dict) : option value :=
  match d with
  | [] => None
  | (k', v) :: d' => if str_eqb k' k then Some v else dict_get k d'
  end.

(** [d[k] = v]: an existing key keeps its place. *)
Fixpoint dict_set (k : str) (v : value) (d : dict) : dict :=
  match d with
  | [] => [(k, v)]
  | (k', v') :: d' =>
      if str_eqb k' k then (k', v) :: d' else (k', v') :: dict_set k v d'
  end.

End PyStr.

(** ** Query decomposition (src/agents/decomposition_agent.py) *)

Module Decomposition.
Import PyStr.

Section WithUnicode.
Context `{UnicodeData}.

(** [re.sub(r'^\d+[\.\)]\s*', '', line)] *)
Definition strip_numbering (line : str) : str :=
  match span isdecimal line with
  | (_ :: _, c :: rest) =>
      if (c =? 46)%N || (c =? 41)%N then lstrip_with isspace rest else line
  | _ => line
  end.

(** The characters between the brackets of the bullet pattern, as the
    source file has them: [-], [*], U+00E2, U+20AC, U+00A2. *)
Definition bullet_chars : str := [45; 42; 226; 8364; 162]%N.

(** [re.sub(r'^[...]\s*', '', line)] with the bullet class *)
Definition strip_bullet (line : str) : str :=
  match line with
  | c :: rest =>
      if existsb (N.eqb c) bullet_chars then lstrip_with isspace rest else line
  | [] => line
  end.

Definition quote_chars : str := [34; 39]%N.

(** The successive rebindings of [line] in the loop body. *)
Definition clean_line (line : str) : str :=
  strip_chars quote_chars (strip_bullet (strip_numbering (strip line))).

(** The test guarding [sub_queries.append(line)]. *)
Definition long_enough (line : str) : bool :=
  nonempty line && (10 <? length line).

(** The list [sub_queries] when the loop ends. *)
Definition collect_sub_queries (lines : list str) : list str :=
  fold_left
    (fun sub_queries line =>
       let line := clean_line line in
       if long_enough line then sub_queries ++ [line] else sub_queries)
    lines [].

Definition response_lines (response_text : str) : list str :=
  split NL (strip response_text).

Definition _parse_sub_queries (response_text : str) : list str :=
  firstn 4 (collect_sub_queries (response_lines response_text)).

Record DecompositionAgent := {
  enable_decomposition : bool;
  ollama_host : str;
  primary_model : str;
  fallback_model : str
}.

(** [model_str.split(":", 1)] *)
Fixpoint split_once_from (cur : str) (s : str) : list str :=
  match s with
  | [] => [rev cur]
  | c :: s' =>
      if (c =? 58)%N then [rev cur; s'] else split_once_from (c :: cur) s'
  end.

Definition _parse_model_name (model_str : str) : str :=
  if existsb (N.eqb 58) model_str
  then
    let parts := split_once_from [] model_str in
    if length parts =? 2 then nth 1 parts [] else model_str
  else model_str.

(** [decomposition_prompt_template.format(query=query)] *)
Definition decomposition_prompt (query : str) : str :=
  cps "You are a query decomposition assistant. Break down the following complex query into 2-4 simpler sub-queries that together would help answer the original query.

Original Query: " ++ query ++ cps "

Instructions:
1. Identify the key aspects of the original query
2. Create 2-4 focused sub-queries
3. Each sub-query should be self-contained and specific
4. Return ONLY the sub-queries, one per line
5. Do NOT include numbering or explanations

Sub-queries:".

(** What the local service answers: the status code and the body read as
    JSON, that is the value under ["response"] if the object has one, or
    the exception reading it raised. *)
Record HttpResponse := {
  status_code : Z;
  json : outcome (option value)
}.

(** [decompose_with_ollama]; [post] is the request to a URL for a model
    and a prompt. *)
Definition decompose_with_ollama (self : DecompositionAgent)
    (post : str -> str -> str -> outcome HttpResponse) (query : str)
    : option (list str) :=
  let prompt := decomposition_prompt query in
  match post (ollama_host self ++ cps "/api/generate") (primary_model self) prompt with
  | Raise _ => None
  | Return response =>
      if (status_code response =? 200)%Z
      then
        match json response with
        | Raise _ => None
        | Return result =>
            match (match result with Some v => v | None => VStr [] end) with
            | VStr s =>
                let response_text := strip s in
                Some (_parse_sub_queries response_text)
            | _ => None
            end
        end
      else None
  end.

(** [decompose_with_gemini]; [generate] is the hosted model's answer to a
    prompt, as the text of its response. *)
Definition decompose_with_gemini (self : DecompositionAgent)
    (generate : str -> str -> outcome str) (query : str) : option (list str) :=
  let prompt := decomposition_prompt query in
  match generate (fallback_model self) prompt with
  | Raise _ => None
  | Return response_text =>
      if nonempty response_text
      then Some (_parse_sub_queries response_text)
      else None
  end.

(** The body of the loop over [all_queries]; the state is [seen] and
    [unique_queries]. *)
Definition unique_step (st : list str * list str) (q : str) : list str * list str :=
  let (seen, unique_queries) := st in
  let q_lower := lower q in
  if existsb (str_eqb q_lower) seen then (seen, unique_queries)
  else (q_lower :: seen, unique_queries ++ [q]).

Definition decompose_query (self : DecompositionAgent)
    (post : str -> str -> str -> outcome HttpResponse)
    (generate : str -> str -> outcome str) (query : str) : list str :=
  if negb (enable_decomposition self) then [query]
  else if length (split_ws query) <? 8 then [query]
  else
    let sub_queries := decompose_with_ollama self post query in
    let sub_queries :=
      match sub_queries with
      | Some (_ :: _) => sub_queries
      | _ => decompose_with_gemini self generate query
      end in
    match sub_queries with
    | Some ((_ :: _) as sub_queries) =>
        let all_queries := query :: sub_queries in
        snd (fold_left unique_step all_queries ([], []))
    | _ => [query]
    end.

End WithUnicode.
End Decomposition.

(** ** Filters read off the query (src/agents/metadata_filter_agent.py) *)

Module MetadataFilter.
Import PyStr.

(** [s.startswith(prefix)] *)
Fixpoint startswith (s prefix : str) : bool :=
  match prefix, s with
  | [], _ => true
  | p :: prefix', c :: s' => (c =? p)%N && startswith s' prefix'
  | _ :: _, [] => false
  end.

(** [sub in s] *)
Fixpoint contains (s sub : str) : bool :=
  startswith s sub
  || match s with
     | [] => false
     | _ :: s' => contains s' sub
     end.

Definition supported_languages : list str :=
  [cps "en"; cps "zh"; cps "hi"; cps "bn"; cps "ur";
   cps "english"; cps "chinese"; cps "hindi"; cps "bengali"; cps "urdu"].

Definition language_map : list (str * str) :=
  [(cps "english", cps "en"); (cps "chinese", cps "zh"); (cps "hindi", cps "hi");
   (cps "bengali", cps "bn"); (cps "urdu", cps "ur")].

(** [language_map.get(lang, default)] *)
Definition language_map_get (lang default : str) : str :=
  match find (fun kv => str_eqb (fst kv) lang) language_map with
  | Some kv => snd kv
  | None => default
  end.

(** The loop over [supported_languages]. *)
Fixpoint first_language (query_lower : str) (langs : list str) : option str :=
  match langs with
  | [] => None
  | lang :: rest =>
      if contains query_lower lang
      then
        let lang_code := language_map_get lang lang in
        if length lang_code =? 2 then Some lang_code
        else first_language query_lower rest
      else first_language query_lower rest
  end.

Definition extract_language_filter `{UnicodeData} (query : str) : option str :=
  let query_lower := lower query in
  first_language query_lower supported_languages.

(** The two-letter codes at the head of [supported_languages]. *)
Definition language_codes : list str := firstn 5 supported_languages.

End MetadataFilter.

(** ** The job and chat store (src/common/storage.py) *)

Module Storage.
Import PyStr.

Inductive JobStatus := PENDING | PROCESSING | COMPLETED | FAILED.

Definition JobStatus_eqb (a b : JobStatus) : bool :=
  match a, b with
  | PENDING, PENDING | PROCESSING, PROCESSING
  | COMPLETED, COMPLETED | FAILED, FAILED => true
  | _, _ => false
  end.

(** A row of [jobs].  [metadata] holds the JSON document the row stores. *)
Record Job := {
  id : Z;
  doc_id : str;
  file_path : str;
  language : str;
  status : JobStatus;
  created_at : Z;
  updated_at : Z;
  error_message : option str;
  metadata : str
}.

Record ChatSession := {
  cs_id : Z;
  cs_session_id : str;
  cs_created_at : Z;
  cs_metadata : str
}.

Record ChatMessage := {
  msg_id : Z;
  msg_session_id : str;
  role : str;
  content : str;
  msg_created_at : Z;
  msg_metadata : str
}.

(** The database file: each table in rowid order with the last rowid its
    AUTOINCREMENT sequence handed out. *)
Record DB := {
  jobs : list Job;
  jobs_seq : Z;
  chat_sessions : list ChatSession;
  chat_sessions_seq : Z;
  chat_messages : list ChatMessage;
  chat_messages_seq : Z
}.

(** The tables [initialize] creates. *)
Definition empty_db : DB :=
  {| jobs := []; jobs_seq := 0;
     chat_sessions := []; chat_sessions_seq := 0;
     chat_messages := []; chat_messages_seq := 0 |}.

Definition set_jobs (db : DB) (js : list Job) (seq : Z) : DB :=
  {| jobs := js; jobs_seq := seq;
     chat_sessions := chat_sessions db;
     chat_sessions_seq := chat_sessions_seq db;
     chat_messages := chat_messages db;
     chat_messages_seq := chat_messages_seq db |}.

Definition set_sessions (db : DB) (ss : list ChatSession) (seq : Z) : DB :=
  {| jobs := jobs db; jobs_seq := jobs_seq db;
     chat_sessions := ss; chat_sessions_seq := seq;
     chat_messages := chat_messages db;
     chat_messages_seq := chat_messages_seq db |}.

Definition set_messages (db : DB) (ms : list ChatMessage) (seq : Z) : DB :=
  {| jobs := jobs db; jobs_seq := jobs_seq db;
     chat_sessions := chat_sessions db;
     chat_sessions_seq := chat_sessions_seq db;
     chat_messages := ms; chat_messages_seq := seq |}.

(** [json.dumps(metadata or {})], the metadata being given by its JSON
    serialization. *)
Definition dumps_or_empty (metadata : option str) : str :=
  match metadata with
  | Some m => m
  | None => cps "{}"
  end.

Definition has_doc_id (d : str) (j : Job) : bool := str_eqb (doc_id j) d.

(** What sqlite3 raises when the INSERT meets the UNIQUE constraint. *)
Definition IntegrityError : exn :=
  Exception "sqlite3.IntegrityError" (cps "UNIQUE constraint failed: jobs.doc_id").

(** [LIMIT k]: a negative [k] is no limit. *)
Definition sql_limit {A} (k : Z) (rows : list A) : list A :=
  if (k <? 0)%Z then rows else firstn (Z.to_nat k) rows.

(** [add_job]: a plain INSERT, at the time [now] CURRENT_TIMESTAMP gives.
    Returns [cursor.lastrowid]. *)
Definition add_job (now : Z) (d fp lang : str) (meta : option str)
    (db : DB) : outcome Z * DB :=
  if existsb (has_doc_id d) (jobs db)
  then (Raise IntegrityError, db)
  else
    let rowid := (jobs_seq db + 1)%Z in
    let row := {| id := rowid; doc_id := d; file_path := fp; language := lang;
                  status := PENDING; created_at := now; updated_at := now;
                  error_message := None; metadata := dumps_or_empty meta |} in
    (Return rowid, set_jobs db (jobs db ++ [row]) rowid).

(** [get_pending_jobs]: WHERE status = 'pending' ORDER BY created_at LIMIT ? *)
Definition get_pending_jobs (limit : Z) (db : DB) : list Job :=
  sql_limit limit
    (sort_by (fun a b => (created_at a <=? created_at b)%Z)
       (filter (fun j => JobStatus_eqb (status j) PENDING) (jobs db))).

Definition set_status (s : JobStatus) (err : option str) (now : Z) (j : Job) : Job :=
  {| id := id j; doc_id := doc_id j; file_path := file_path j;
     language := language j; status := s; created_at := created_at j;
     updated_at := now; error_message := err; metadata := metadata j |}.

(** [update_job_status]: UPDATE ... WHERE doc_id = ? *)
Definition update_job_status (now : Z) (d : str) (s : JobStatus)
    (err : option str) (db : DB) : DB :=
  set_jobs db
    (map (fun j => if has_doc_id d j then set_status s err now j else j) (jobs db))
    (jobs_seq db).

Definition get_job (d : str) (db : DB) : option Job :=
  find (has_doc_id d) (jobs db).

(** [create_session]: INSERT OR IGNORE.  The rowid of the AUTOINCREMENT
    column is drawn before the UNIQUE constraint is checked, so an ignored
    insert adds no row but still advances the sequence of the table. *)
Definition create_session (now : Z) (sid : str) (meta : option str)
    (db : DB) : DB :=
  let rowid := (chat_sessions_seq db + 1)%Z in
  if existsb (fun s => str_eqb (cs_session_id s) sid) (chat_sessions db)
  then set_sessions db (chat_sessions db) rowid
  else
    set_sessions db
      (chat_sessions db ++
         [{| cs_id := rowid; cs_session_id := sid; cs_created_at := now;
             cs_metadata := dumps_or_empty meta |}])
      rowid.

(** [add_message]: the foreign key is declared but SQLite does not enforce
    it on a connection that has not switched enforcement on, so the INSERT
    succeeds for any session identifier. *)
Definition add_message (now : Z) (sid r c : str) (meta : option str)
    (db : DB) : DB :=
  let rowid := (chat_messages_seq db + 1)%Z in
  set_messages db
    (chat_messages db ++
       [{| msg_id := rowid; msg_session_id := sid; role := r; content := c;
           msg_created_at := now; msg_metadata := dumps_or_empty meta |}])
    rowid.

(** [get_session_messages]: the LIMIT clause is added when [limit] is
    truthy. *)
Definition get_session_messages (sid : str) (limit : option Z) (db : DB)
    : list ChatMessage :=
  let rows :=
    sort_by (fun a b => (msg_created_at a <=? msg_created_at b)%Z)
      (filter (fun m => str_eqb (msg_session_id m) sid) (chat_messages db)) in
  match limit with
  | Some k => if (k =? 0)%Z then rows else sql_limit k rows
  | None => rows
  end.

Definition clear_session (sid : str) (db : DB) : DB :=
  set_messages db
    (filter (fun m => negb (str_eqb (msg_session_id m) sid)) (chat_messages db))
    (chat_messages_seq db).

End Storage.

(** ** Claiming and finishing jobs (src/agents/ingestion_agent.py, src/main.py) *)

Module Ingestion.
Import PyStr Storage.

(** [get_next_job]: the row as selected (still reading 'pending') is
    returned after the job was moved to 'processing'. *)
Definition get_next_job (now : Z) (db : DB) : option Job * DB :=
  match get_pending_jobs 1 db with
  | job :: _ => (Some job, update_job_status now (doc_id job) PROCESSING None db)
  | [] => (None, db)
  end.

Definition mark_job_completed (now : Z) (d : str) (db : DB) : DB :=
  update_job_status now d COMPLETED None db.

Definition mark_job_failed (now : Z) (d : str) (error_message : str)
    (db : DB) : DB :=
  update_job_status now d FAILED (Some error_message) db.

(** [DocumentProcessingPipeline.process_document]: OCR, cleanup, chunking
    and embedding run inside one [try]; [failure] is [str(e)] of the
    exception one of them raised, if any. *)
Definition process_document (now : Z) (job : Job) (failure : option str)
    (db : DB) : DB :=
  match failure with
  | None => mark_job_completed now (doc_id job) db
  | Some e => mark_job_failed now (doc_id job) e db
  end.

(** The operations on a job that the agents expose. *)
Inductive job_op :=
| OpAddJob (now : Z) (d fp lang : str) (meta : option str)
| OpGetNextJob (now : Z)
| OpMarkCompleted (now : Z) (d : str)
| OpMarkFailed (now : Z) (d : str) (error_message : str).

Definition apply_op (o : job_op) (db : DB) : DB :=
  match o with
  | OpAddJob now d fp lang meta => snd (add_job now d fp lang meta db)
  | OpGetNextJob now => snd (get_next_job now db)
  | OpMarkCompleted now d => mark_job_completed now d db
  | OpMarkFailed now d e => mark_job_failed now d e db
  end.

Definition job_status (d : str) (db : DB) : option JobStatus :=
  option_map status (get_job d db).

(** The statuses of job [d] after each operation of a run. *)
Fixpoint statuses (d : str) (ops : list job_op) (db : DB) : list (option JobStatus) :=
  match ops with
  | [] => []
  | o :: ops' =>
      let db' := apply_op o db in
      job_status d db' :: statuses d ops' db'
  end.

Definition same_status (a : option JobStatus) (b : JobStatus) : bool :=
  match a with
  | Some x => JobStatus_eqb x b
  | None => false
  end.

(** The status sequence of a job: the statuses observed, a status that
    repeats from one observation to the next being listed once. *)
Fixpoint changes (prev : option JobStatus) (l : list (option JobStatus)) : list JobStatus :=
  match l with
  | [] => []
  | None :: l' => changes prev l'
  | Some s :: l' =>
      if same_status prev s then changes prev l' else s :: changes (Some s) l'
  end.

Definition status_sequence (d : str) (ops : list job_op) : list JobStatus :=
  changes None (statuses d ops empty_db).

(** The pipeline's discipline: a job is marked completed while it is
    processing, and failed while it is pending or processing. *)
Definition op_in_protocol (o : job_op) (db : DB) : bool :=
  match o with
  | OpMarkCompleted _ d =>
      match job_status d db with
      | Some PROCESSING => true
      | _ => false
      end
  | OpMarkFailed _ d _ =>
      match job_status d db with
      | Some PENDING | Some PROCESSING => true
      | _ => false
      end
  | _ => true
  end.

(** The transitions of the job state machine, with standing still. *)
Definition allowed_step (a b : option JobStatus) : bool :=
  match a, b with
  | None, None | None, Some PENDING => true
  | Some PENDING, Some PENDING | Some PENDING, Some PROCESSING
  | Some PENDING, Some FAILED => true
  | Some PROCESSING, Some PROCESSING | Some PROCESSING, Some COMPLETED
  | Some PROCESSING, Some FAILED => true
  | Some COMPLETED, Some COMPLETED | Some FAILED, Some FAILED => true
  | _, _ => false
  end.

Fixpoint chain (prev : option JobStatus) (l : list (option JobStatus)) : bool :=
  match l with
  | [] => true
  | s :: l' => allowed_step prev s && chain s l'
  end.

(** The status sequences that can still follow a status. *)
Definition continuations (s : option JobStatus) : list (list JobStatus) :=
  match s with
  | None =>
      [[]; [PENDING]; [PENDING; PROCESSING]; [PENDING; PROCESSING; COMPLETED];
       [PENDING; PROCESSING; FAILED]; [PENDING; FAILED]]
  | Some PENDING =>
      [[]; [PROCESSING]; [PROCESSING; COMPLETED]; [PROCESSING; FAILED]; [FAILED]]
  | Some PROCESSING => [[]; [COMPLETED]; [FAILED]]
  | Some COMPLETED | Some FAILED => [[]]
  end.

(** The UNIQUE constraint on [jobs.doc_id]. *)
Definition unique_doc_ids (db : DB) : Prop := NoDup (map doc_id (jobs db)).

Fixpoint run_in_protocol (ops : list job_op) (db : DB) : bool :=
  match ops with
  | [] => true
  | o :: ops' => op_in_protocol o db && run_in_protocol ops' (apply_op o db)
  end.

(** *** Queueing a detected file (process_new_file, scan_existing_files)
    and draining the queue (scripts/process_documents.py) *)

(** A [Path], by the attributes the agent reads off it. *)
Record Path := {
  path_str : str;
  parent_name : str;
  name : str;
  stem : str
}.

(** What the file system answers: whether a file is there, the SHA-256 of
    its content in hexadecimal (or the error reading it raised), and
    whether copying it to a destination succeeded. *)
Record Disk := {
  path_exists : Path -> bool;
  sha256_hex : Path -> outcome str;
  copy2 : Path -> str -> bool
}.

Definition watched_languages : list str :=
  [cps "en"; cps "zh"; cps "hi"; cps "bn"; cps "ur"].

(** [detect_language_from_path] (src/common/utils.py) *)
Definition detect_language_from_path (file_path : Path) : option str :=
  let parent := parent_name file_path in
  if existsb (str_eqb parent) watched_languages then Some parent else None.

(** [generate_doc_id] (src/common/utils.py), the hash being given *)
Definition generate_doc_id (file_hash : str) (file_path : Path) (language : str) : str :=
  language ++ cps "_" ++ stem file_path ++ cps "_" ++ firstn 8 file_hash.

Section WithDisk.
(** [json.dumps] on a dictionary, and the processing directory of the
    configuration. *)
Variable json_dumps : dict -> str.
Variable processing_dir : str.
Variable disk : Disk.

(** [process_new_file]: everything runs inside one [try] whose handler
    logs; the store is what the call leaves behind. *)
Definition process_new_file (now : Z) (file_path : Path) (db : DB) : DB :=
  if negb (path_exists disk file_path) then db
  else
    match detect_language_from_path file_path with
    | None => db
    | Some language =>
        match sha256_hex disk file_path with
        | Raise _ => db
        | Return file_hash =>
            let d := generate_doc_id file_hash file_path language in
            match get_job d db with
            | Some _ => db
            | None =>
                let dest_path := processing_dir ++ cps "/" ++ d ++ cps ".pdf" in
                if copy2 disk file_path dest_path
                then
                  snd (add_job now d dest_path language
                         (Some (json_dumps
                                  [(cps "original_filename", VStr (name file_path));
                                   (cps "original_path", VStr (path_str file_path))]))
                         db)
                else db
            end
        end
    end.

(** [scan_existing_files], over the PDF files the directory listings give,
    each with the time at which it is handled. *)
Definition scan_existing_files (pdf_files : list (Z * Path)) (db : DB) : DB :=
  fold_left (fun db f => process_new_file (fst f) (snd f) db) pdf_files db.

End WithDisk.

(** The loop of scripts/process_documents.py: jobs are claimed and
    processed until [get_next_job] finds none; the result is the count
    [processed] and the store.  [failure_of] tells, for a claimed job,
    the message of the exception a stage raises, if any; [clock] gives the
    time of the n-th statement.  [None] stands for a loop that has not
    ended within [fuel] turns. *)
Fixpoint process_all (fuel : nat) (clock : nat -> Z)
    (failure_of : Job -> option str) (n : nat) (db : DB) : option (nat * DB) :=
  match fuel with
  | O => None
  | S fuel' =>
      match get_next_job (clock (2 * n)) db with
      | (None, db') => Some (0, db')
      | (Some job, db') =>
          let db'' := process_document (clock (2 * n + 1)) job (failure_of job) db' in
          match process_all fuel' clock failure_of (S n) db'' with
          | Some (processed, final) => Some (S processed, final)
          | None => None
          end
      end
  end.

(** The status [process_document] leaves a job in. *)
Definition finished_as (failure : option str) : JobStatus :=
  match failure with
  | None => COMPLETED
  | Some _ => FAILED
  end.

(** The rows of other documents than [d]. *)
Definition not_doc (d : str) (j : Job) : bool := negb (has_doc_id d j).

(** The pending rows of the table. *)
Definition pending_jobs (db : DB) : list Job :=
  filter (fun j => JobStatus_eqb (status j) PENDING) (jobs db).

End Ingestion.

(** ** Chunking (src/agents/chunking_agent.py, src/common/utils.py) *)

Module Chunking.
Import PyStr.

(** The tiktoken encoding the agent holds. *)
Class Tokenizer := {
  token : Type;
  encode : str -> list token;
  decode : list token -> str
}.

Definition is_cjk_char (code : char) : bool :=
  (((19968 <=? code) && (code <=? 40959))
   || ((13312 <=? code) && (code <=? 19903))
   || ((131072 <=? code) && (code <=? 173791))
   || ((173824 <=? code) && (code <=? 177983))
   || ((177984 <=? code) && (code <=? 178207))
   || ((178208 <=? code) && (code <=? 183983))
   || ((12288 <=? code) && (code <=? 12351))
   || ((65280 <=? code) && (code <=? 65519)))%N.

Definition count_cjk_chars (t : str) : nat := length (filter is_cjk_char t).

(** [is_cjk_text] at its default threshold 0.3; the quotient is compared
    exactly, which agrees with the float comparison on any string a machine
    can hold. *)
Definition is_cjk_text (t : str) : bool :=
  match t with
  | [] => false
  | _ =>
      let cjk_count := count_cjk_chars t in
      let total_chars := length (strip t) in
      match total_chars with
      | O => false
      | _ => 3 * total_chars <=? 10 * cjk_count
      end
  end.

(** [re.split(r'\n\n+', text)]: [nl] counts the newlines read since the
    last other character. *)
Fixpoint split_blank_lines_from (cur : str) (nl : nat) (s : str) : list str :=
  match s with
  | [] =>
      match nl with
      | 0 => [rev cur]
      | 1 => [rev (NL :: cur)]
      | _ => [rev cur; []]
      end
  | c :: s' =>
      if (c =? NL)%N then split_blank_lines_from cur (S nl) s'
      else match nl with
           | 0 => split_blank_lines_from (c :: cur) 0 s'
           | 1 => split_blank_lines_from (c :: NL :: cur) 0 s'
           | _ => rev cur :: split_blank_lines_from [c] 0 s'
           end
  end.

Definition split_blank_lines (s : str) : list str :=
  split_blank_lines_from [] 0 s.

Definition is_terminator (c : char) : bool :=
  ((c =? 46) || (c =? 33) || (c =? 63))%N.

Definition is_cjk_terminator (c : char) : bool :=
  ((c =? 12290) || (c =? 65281) || (c =? 65311) || (c =? 65307))%N.

(** [re.split(r'([.!?]+\s+)', text)]: [cur] is the input since the last
    separator, [p] a run of terminators just read and [w] the whitespace
    read after it (all three reversed). *)
Fixpoint split_terminators_from (cur p w : str) (s : str) : list str :=
  match s with
  | [] =>
      match w with
      | [] => [rev (p ++ cur)]
      | _ => [rev cur; rev p ++ rev w; []]
      end
  | c :: s' =>
      match w, p with
      | _ :: _, _ =>
          if isspace c then split_terminators_from cur p (c :: w) s'
          else rev cur :: (rev p ++ rev w) ::
               (if is_terminator c then split_terminators_from [] [c] [] s'
                else split_terminators_from [c] [] [] s')
      | [], _ :: _ =>
          if is_terminator c then split_terminators_from cur (c :: p) [] s'
          else if isspace c then split_terminators_from cur p [c] s'
          else split_terminators_from (c :: p ++ cur) [] [] s'
      | [], [] =>
          if is_terminator c then split_terminators_from cur [c] [] s'
          else split_terminators_from (c :: cur) [] [] s'
      end
  end.

(** [re.split] with the class of CJK terminators, captured. *)
Fixpoint split_cjk_terminators_from (cur : str) (s : str) : list str :=
  match s with
  | [] => [rev cur]
  | c :: s' =>
      if is_cjk_terminator c
      then rev cur :: [c] :: split_cjk_terminators_from [] s'
      else split_cjk_terminators_from (c :: cur) s'
  end.

(** The loop over [range(0, len(sentences) - 1, 2)]. *)
Fixpoint recombine (sentences : list str) : list str :=
  match sentences with
  | a :: b :: rest => (a ++ b) :: recombine rest
  | _ => []
  end.

Definition split_by_sentences (t : str) (language : str) : list str :=
  let sentences :=
    if str_eqb language (cps "zh")
    then split_cjk_terminators_from [] t
    else split_terminators_from [] [] [] t in
  filter (fun s => nonempty (strip s)) (recombine sentences).

(** A text holds a separator of the sentence pattern: a terminator
    directly followed by white space. *)
Fixpoint has_separator (s : str) : bool :=
  match s with
  | [] => false
  | c :: s' =>
      match s' with
      | [] => false
      | d :: _ => (is_terminator c && isspace d) || has_separator s'
      end
  end.

(** The last, and the first, character of a text satisfies [p]. *)
Fixpoint ends_with (p : char -> bool) (s : str) : bool :=
  match s with
  | [] => false
  | c :: s' =>
      match s' with
      | [] => p c
      | _ :: _ => ends_with p s'
      end
  end.

Definition starts_with (p : char -> bool) (s : str) : bool :=
  match s with
  | [] => false
  | c :: _ => p c
  end.

Section WithTokenizer.
Context `{Tokenizer}.

Record ChunkingAgent := {
  chunk_size : Z;
  chunk_overlap : Z
}.

Definition count_tokens (t : str) : Z := Z.of_nat (length (encode t)).

(** One turn of the packing loop, over the pair of [chunks] and
    [current_chunk].  The paragraph loop and the sentence loop differ in
    the separator only. *)
Definition pack_step (sep : str) (max_tokens overlap_tokens : Z)
    (st : list str * str) (unit : str) : list str * str :=
  let (chunks, current_chunk) := st in
  let unit := strip unit in
  if negb (nonempty unit) then st
  else
    let test_chunk :=
      if nonempty current_chunk then current_chunk ++ sep ++ unit else unit in
    if (count_tokens test_chunk <=? max_tokens)%Z
    then (chunks, test_chunk)
    else
      let chunks :=
        if nonempty current_chunk then chunks ++ [current_chunk] else chunks in
      match chunks with
      | _ :: _ =>
          if (0 <? overlap_tokens)%Z
          then
            let prev_tokens := encode (last chunks []) in
            let overlap_text := decode (last_n prev_tokens overlap_tokens) in
            (chunks, overlap_text ++ sep ++ unit)
          else (chunks, unit)
      | [] => (chunks, unit)
      end.

Definition pack (sep : str) (max_tokens overlap_tokens : Z)
    (units : list str) : list str :=
  let (chunks, current_chunk) :=
    fold_left (pack_step sep max_tokens overlap_tokens) units ([], []) in
  if nonempty current_chunk then chunks ++ [current_chunk] else chunks.

(** A text occurs inside a chunk; a text is held by the packing loop when
    it occurs inside a finished chunk or inside the current one. *)
Definition inside (u chunk : str) : Prop :=
  exists before after, chunk = before ++ u ++ after.

Definition held (u : str) (st : list str * str) : Prop :=
  (exists c, In c (fst st) /\ inside u c) \/ inside u (snd st).

(** The [while i < len(tokens)] loop.  [None] stands for a loop that does
    not end, which is what happens when the stride is not positive. *)
Fixpoint token_windows (fuel : nat) (tokens : list token)
    (max_tokens stride i : Z) : option (list str) :=
  if (i <? Z.of_nat (length tokens))%Z
  then match fuel with
       | O => None
       | S fuel' =>
           option_map (cons (decode (slice tokens i (i + max_tokens))))
             (token_windows fuel' tokens max_tokens stride (i + stride)%Z)
       end
  else Some [].

Definition chunk_text_recursive (self : ChunkingAgent) (t : str)
    (language : str) (max_tokens overlap_tokens : option Z)
    : option (list str) :=
  let max_tokens := int_or max_tokens (chunk_size self) in
  let overlap_tokens := int_or overlap_tokens (chunk_overlap self) in
  let token_count := count_tokens t in
  if (token_count <=? max_tokens)%Z then Some [t]
  else
    let paragraphs :=
      if existsb (str_eqb language) [cps "zh"; cps "ja"; cps "ko"]
         || is_cjk_text t
      then split_blank_lines t
      else split_blank_lines t in
    if 1 <? length paragraphs
    then Some (pack [NL; NL] max_tokens overlap_tokens paragraphs)
    else
      let sentences := split_by_sentences t language in
      if 1 <? length sentences
      then Some (pack [SP] max_tokens overlap_tokens sentences)
      else
        let tokens := encode t in
        token_windows (length tokens) tokens max_tokens
          (max_tokens - overlap_tokens)%Z 0%Z.

End WithTokenizer.

Section WithTokenizerAndUnicode.
Context `{Tokenizer} `{UnicodeData}.

Fixpoint strip_prefix (pre s : str) : option str :=
  match pre, s with
  | [], _ => Some s
  | a :: pre', b :: s' => if (a =? b)%N then strip_prefix pre' s' else None
  | _ :: _, [] => None
  end.

(** [re.search(r'\[PAGE (\d+)\]', text)]: group 1 of the leftmost match. *)
Fixpoint search_page_marker (s : str) : option str :=
  match s with
  | [] => None
  | _ :: s' =>
      match strip_prefix (cps "[PAGE ") s with
      | Some rest =>
          match span isdecimal rest with
          | ((_ :: _) as ds, 93%N :: _) => Some ds
          | _ => search_page_marker s'
          end
      | None => search_page_marker s'
      end
  end.

Definition extract_page_number (t : str) : Z :=
  match search_page_marker t with
  | Some ds => match int_of_decimals ds with Some n => n | None => 0%Z end
  | None => 0%Z
  end.

Record Chunk := {
  c_text : str;
  c_chunk_id : str;
  c_doc_id : str;
  c_language : str;
  c_page_num : Z;
  c_start_char : Z;
  c_end_char : Z;
  c_metadata : dict
}.

(** [format(i, '04d')] *)
Definition pad4 (i : nat) : str :=
  let ds := str_of_N (N.of_nat i) in
  repeat 48%N (4 - length ds) ++ ds.

(** The body of the loop over [enumerate(text_chunks)]; the state is
    [chunks] and [char_offset]. *)
Definition chunk_document_step (d language : str) (metadata : option dict)
    (total : nat) (st : list Chunk * Z) (item : nat * str) : list Chunk * Z :=
  let (chunks, char_offset) := st in
  let (i, chunk_text) := item in
  let page_num := extract_page_number chunk_text in
  let chunk_id := d ++ cps "_chunk_" ++ pad4 i in
  let len := Z.of_nat (length chunk_text) in
  let chunk :=
    {| c_text := chunk_text; c_chunk_id := chunk_id; c_doc_id := d;
       c_language := language; c_page_num := page_num;
       c_start_char := char_offset; c_end_char := (char_offset + len)%Z;
       c_metadata :=
         dict_set (cps "token_count") (VInt (count_tokens chunk_text))
           (dict_set (cps "total_chunks") (VInt (Z.of_nat total))
              (dict_set (cps "chunk_index") (VInt (Z.of_nat i))
                 (match metadata with Some m => m | None => [] end))) |} in
  (chunks ++ [chunk], (char_offset + len)%Z).

Definition chunk_document (self : ChunkingAgent) (t d language : str)
    (metadata : option dict) : option (list Chunk) :=
  match chunk_text_recursive self t language None None with
  | Some text_chunks =>
      Some (fst (fold_left
                   (chunk_document_step d language metadata (length text_chunks))
                   (combine (seq 0 (length text_chunks)) text_chunks)
                   ([], 0%Z)))
  | None => None
  end.

(** What the loop of [chunk_document] records for the chunk at place [i]. *)
Definition recorded (d language : str) (total : nat) (l : list str)
    (i : nat) (c : Chunk) : Prop :=
  c_chunk_id c = d ++ cps "_chunk_" ++ pad4 i
  /\ c_doc_id c = d
  /\ c_language c = language
  /\ c_page_num c = extract_page_number (c_text c)
  /\ c_start_char c = Z.of_nat (length (concat (firstn i l)))
  /\ c_end_char c = (c_start_char c + Z.of_nat (length (c_text c)))%Z
  /\ dict_get (cps "chunk_index") (c_metadata c) = Some (VInt (Z.of_nat i))
  /\ dict_get (cps "total_chunks") (c_metadata c) = Some (VInt (Z.of_nat total))
  /\ dict_get (cps "token_count") (c_metadata c)
     = Some (VInt (count_tokens (c_text c))).

End WithTokenizerAndUnicode.

(** A text of two paragraphs, and its first paragraph. *)
Definition two_paragraphs : str := cps "alpha beta gamma

delta".

Definition first_paragraph : str := cps "alpha beta gamma".

(** A tokenizer to run the model with: one token per whitespace-separated
    word. *)
Definition word_tokenizer : Tokenizer :=
  {| token := str; encode := split_ws; decode := join [SP] |}.

End Chunking.

(** ** Hybrid retrieval (src/agents/retriever_agent.py) *)

Module Retriever.
Import PyStr.

(** The arithmetic of Python [float]s the agents use: product, sum, the
    comparison [sorted] orders by, [1.0 / n] and [n * 0.1] for an [int]
    [n]. *)
Class FloatOps := {
  float : Type;
  fmul : float -> float -> float;
  fadd : float -> float -> float;
  fle : float -> float -> bool;
  fdiv_one : Z -> float;
  ftenths : Z -> float
}.

(** An insertion-ordered [dict] keyed by chunk identifiers. *)
Fixpoint map_get {V} (k : value) (m : list (value * V)) : option V :=
  match m with
  | [] => None
  | (k', v) :: m' => if value_eqb k' k then Some v else map_get k m'
  end.

Fixpoint map_set {V} (k : value) (v : V) (m : list (value * V)) : list (value * V) :=
  match m with
  | [] => [(k, v)]
  | (k', v') :: m' =>
      if value_eqb k' k then (k', v) :: m' else (k', v') :: map_set k v m'
  end.

Section WithFloats.
Context `{FloatOps}.

Record RetrievalResult := {
  chunk_id : value;
  doc_id : value;
  text : value;
  score : float;
  language : value;
  page_num : value;
  metadata : dict
}.

(** [RetrievalResult(chunk_id=result.chunk_id, ..., score=s, ...)] *)
Definition rescored (result : RetrievalResult) (s : float) : RetrievalResult :=
  {| chunk_id := chunk_id result; doc_id := doc_id result;
     text := text result; score := s; language := language result;
     page_num := page_num result; metadata := metadata result |}.

(** [sorted(xs, key=lambda x: x.score, reverse=True)] *)
Definition sorted_by_score_desc (xs : list RetrievalResult) : list RetrievalResult :=
  sort_by (fun x y => fle (score y) (score x)) xs.

(** The library's keyword index: building one from a tokenized corpus,
    and scoring a tokenized query against every document of the corpus. *)
Class BM25 := {
  bm25 : Type;
  BM25Okapi : list (list str) -> outcome bm25;
  get_scores : bm25 -> list str -> outcome (list float)
}.

Context `{BM25} `{UnicodeData}.

(** An entry of [bm25_documents]. *)
Record Document := {
  d_chunk_id : value;
  d_doc_id : value;
  d_text : value;
  d_language : value;
  d_page_num : value;
  d_metadata : dict
}.

Record RetrieverAgent := {
  enable_bm25 : bool;
  fusion_method : str;
  dense_weight : float;
  keyword_weight : float;
  enable_metadata_filter : bool;
  bm25_index : option bm25;
  bm25_documents : list Document
}.

Definition set_index (self : RetrieverAgent) (ix : option bm25)
    (docs : list Document) : RetrieverAgent :=
  {| enable_bm25 := enable_bm25 self; fusion_method := fusion_method self;
     dense_weight := dense_weight self; keyword_weight := keyword_weight self;
     enable_metadata_filter := enable_metadata_filter self;
     bm25_index := ix; bm25_documents := docs |}.

Definition payload_get (k : str) (payload : dict) : value :=
  match dict_get k payload with Some v => v | None => VNone end.

Definition reserved_keys : list str :=
  [cps "chunk_id"; cps "doc_id"; cps "text"; cps "language"; cps "page_num"].

Definition document_of_payload (payload : dict) : Document :=
  {| d_chunk_id := payload_get (cps "chunk_id") payload;
     d_doc_id := payload_get (cps "doc_id") payload;
     d_text := match dict_get (cps "text") payload with
               | Some v => v
               | None => VStr []
               end;
     d_language := payload_get (cps "language") payload;
     d_page_num := payload_get (cps "page_num") payload;
     d_metadata :=
       filter (fun kv => negb (existsb (str_eqb (fst kv)) reserved_keys)) payload |}.

(** [doc["text"].lower().split()] for every document; [None] when a text
    is not a [str] (an AttributeError). *)
Fixpoint tokenize_corpus (docs : list Document) : option (list (list str)) :=
  match docs with
  | [] => Some []
  | doc :: docs' =>
      match d_text doc, tokenize_corpus docs' with
      | VStr s, Some rest => Some (split_ws (lower s) :: rest)
      | _, _ => None
      end
  end.

(** [_build_bm25_index]; [scroll] is what the vector database's [scroll]
    call gives: the payloads of the points, or an exception. *)
Definition _build_bm25_index (self : RetrieverAgent)
    (scroll : outcome (list dict)) : RetrieverAgent :=
  match scroll with
  | Raise _ => set_index self None (bm25_documents self)
  | Return points =>
      let docs := map document_of_payload points in
      match tokenize_corpus docs with
      | None => set_index self None docs
      | Some tokenized_corpus =>
          match BM25Okapi tokenized_corpus with
          | Return ix => set_index self (Some ix) docs
          | Raise _ => set_index self None docs
          end
      end
  end.

(** [doc.get(k) == v] for an entry of [bm25_documents]: a key the entry
    lacks reads as [None], and the ["metadata"] entry is a [dict], equal
    to no filter value. *)
Definition doc_field_is (doc : Document) (kv : str * value) : bool :=
  let (k, v) := kv in
  if str_eqb k (cps "chunk_id") then value_eqb (d_chunk_id doc) v
  else if str_eqb k (cps "doc_id") then value_eqb (d_doc_id doc) v
  else if str_eqb k (cps "text") then value_eqb (d_text doc) v
  else if str_eqb k (cps "language") then value_eqb (d_language doc) v
  else if str_eqb k (cps "page_num") then value_eqb (d_page_num doc) v
  else if str_eqb k (cps "metadata") then false
  else value_eqb VNone v.

(** The documents the metadata filter lets through. *)
Definition passes_filter (self : RetrieverAgent) (metadata_filter : option dict)
    (doc : Document) : bool :=
  match metadata_filter with
  | Some ((_ :: _) as f) =>
      if enable_metadata_filter self then forallb (doc_field_is doc) f else true
  | _ => true
  end.

Definition result_of_document (doc : Document) (s : float) : RetrievalResult :=
  {| chunk_id := d_chunk_id doc; doc_id := d_doc_id doc; text := d_text doc;
     score := s; language := d_language doc; page_num := d_page_num doc;
     metadata := d_metadata doc |}.

(** [sorted(range(len(scores)), key=lambda i: scores[i], reverse=True)] *)
Definition ranked_indices (scores : list float) : list nat :=
  sort_by
    (fun i j =>
       match nth_error scores j, nth_error scores i with
       | Some a, Some b => fle a b
       | _, _ => true
       end)
    (seq 0 (length scores)).

(** The loop over [top_indices]; [None] when an index is out of range (an
    IndexError). *)
Definition collect_results (self : RetrieverAgent) (metadata_filter : option dict)
    (scores : list float) (top_indices : list nat) : option (list RetrievalResult) :=
  fold_left
    (fun acc idx =>
       match acc with
       | None => None
       | Some results =>
           match nth_error (bm25_documents self) idx, nth_error scores idx with
           | Some doc, Some s =>
               if passes_filter self metadata_filter doc
               then Some (results ++ [result_of_document doc s])
               else Some results
           | _, _ => None
           end
       end)
    top_indices (Some []).

(** [sparse_search], with the agent as it is left afterwards. *)
Definition sparse_search (self : RetrieverAgent) (scroll : outcome (list dict))
    (query : str) (top_k : Z) (metadata_filter : option dict)
    : list RetrievalResult * RetrieverAgent :=
  let self :=
    match bm25_index self with
    | None => _build_bm25_index self scroll
    | Some _ => self
    end in
  match bm25_index self, bm25_documents self with
  | Some ix, _ :: _ =>
      let tokenized_query := split_ws (lower query) in
      match get_scores ix tokenized_query with
      | Return scores =>
          let top_indices := take (ranked_indices scores) top_k in
          match collect_results self metadata_filter scores top_indices with
          | Some results => (take results top_k, self)
          | None => ([], self)
          end
      | Raise _ => ([], self)
      end
  | _, _ => ([], self)
  end.

(** The documents at the first [top_k] places of the ranking, each with
    its score. *)
Definition top_ranked (self : RetrieverAgent) (scores : list float) (top_k : Z)
    : list (Document * float) :=
  flat_map
    (fun idx =>
       match nth_error (bm25_documents self) idx, nth_error scores idx with
       | Some doc, Some s => [(doc, s)]
       | _, _ => []
       end)
    (take (ranked_indices scores) top_k).

(** The place of [i] before [j] in
    [sorted(range(n), key=lambda i: scores[i], reverse=True)]: the score at
    [i] is not lower, and of two places with equal scores the lower index
    comes first. *)
Definition ranks_before (scores : list float) (i j : nat) : Prop :=
  forall si sj,
    nth_error scores i = Some si -> nth_error scores j = Some sj ->
    fle sj si = true /\ (fle si sj = true -> i < j).

(** The results for the places [places] of the index, those kept whose
    document satisfies [keep]. *)
Definition results_at (self : RetrieverAgent) (scores : list float)
    (keep : Document -> bool) (places : list nat) : list RetrievalResult :=
  flat_map
    (fun i =>
       match nth_error (bm25_documents self) i, nth_error scores i with
       | Some doc, Some s => if keep doc then [result_of_document doc s] else []
       | _, _ => []
       end)
    places.

(** The two loops of the weighted branch of [fuse_results]. *)
Definition add_dense (dense_weight : float)
    (result_map : list (value * RetrievalResult)) (result : RetrievalResult) :=
  map_set (chunk_id result) (rescored result (fmul (score result) dense_weight))
    result_map.

Definition add_sparse (keyword_weight : float)
    (result_map : list (value * RetrievalResult)) (result : RetrievalResult) :=
  match map_get (chunk_id result) result_map with
  | Some r =>
      map_set (chunk_id result)
        (rescored r (fadd (score r) (fmul (score result) keyword_weight)))
        result_map
  | None =>
      map_set (chunk_id result)
        (rescored result (fmul (score result) keyword_weight)) result_map
  end.

(** The two loops of the reciprocal-rank branch, over [enumerate]. *)
Definition add_dense_rrf (result_map : list (value * RetrievalResult))
    (item : nat * RetrievalResult) :=
  let (rank, result) := item in
  map_set (chunk_id result)
    (rescored result (fdiv_one (60 + Z.of_nat rank + 1))) result_map.

Definition add_sparse_rrf (result_map : list (value * RetrievalResult))
    (item : nat * RetrievalResult) :=
  let (rank, result) := item in
  let s := fdiv_one (60 + Z.of_nat rank + 1) in
  match map_get (chunk_id result) result_map with
  | Some r => map_set (chunk_id result) (rescored r (fadd (score r) s)) result_map
  | None => map_set (chunk_id result) (rescored result s) result_map
  end.

Definition enumerate {A} (l : list A) : list (nat * A) :=
  combine (seq 0 (length l)) l.

Definition fuse_results (self : RetrieverAgent)
    (dense_results sparse_results : list RetrievalResult) (method : str)
    : list RetrievalResult :=
  if str_eqb method (cps "weighted")
  then
    let result_map := fold_left (add_dense (dense_weight self)) dense_results [] in
    let result_map :=
      fold_left (add_sparse (keyword_weight self)) sparse_results result_map in
    sorted_by_score_desc (map snd result_map)
  else
    let result_map := fold_left add_dense_rrf (enumerate dense_results) [] in
    let result_map := fold_left add_sparse_rrf (enumerate sparse_results) result_map in
    sorted_by_score_desc (map snd result_map).

(** A scored point of the vector database, as [search] returns it. *)
Record Hit := {
  h_payload : dict;
  h_score : float
}.

Definition result_of_hit (hit : Hit) : RetrievalResult :=
  {| chunk_id := payload_get (cps "chunk_id") (h_payload hit);
     doc_id := payload_get (cps "doc_id") (h_payload hit);
     text := payload_get (cps "text") (h_payload hit);
     score := h_score hit;
     language := payload_get (cps "language") (h_payload hit);
     page_num := payload_get (cps "page_num") (h_payload hit);
     metadata :=
       filter (fun kv => negb (existsb (str_eqb (fst kv)) reserved_keys))
         (h_payload hit) |}.

(** The conditions [dense_search] hands to the database: one per entry of
    a non-empty filter, when filtering is enabled. *)
Definition qdrant_filter (self : RetrieverAgent) (metadata_filter : option dict)
    : option dict :=
  match metadata_filter with
  | Some ((_ :: _) as f) => if enable_metadata_filter self then Some f else None
  | _ => None
  end.

(** [dense_search]; [search] is the database's [search] call on a query
    vector, a filter and a limit. *)
Definition dense_search {vector : Type} (self : RetrieverAgent)
    (search : vector -> option dict -> Z -> outcome (list Hit))
    (query_vector : vector) (top_k : Z) (metadata_filter : option dict)
    : list RetrievalResult :=
  match search query_vector (qdrant_filter self metadata_filter) top_k with
  | Return search_result => map result_of_hit search_result
  | Raise _ => []
  end.

(** [retrieve], with the agent as it is left afterwards; [embed_query]
    gives the query's vector, or [None] when the embedding failed. *)
Definition retrieve {vector : Type} (self : RetrieverAgent)
    (embed_query : str -> option vector)
    (search : vector -> option dict -> Z -> outcome (list Hit))
    (scroll : outcome (list dict))
    (query : str) (top_k : Z) (metadata_filter : option dict)
    : list RetrievalResult * RetrieverAgent :=
  match embed_query query with
  | None => ([], self)
  | Some query_vector =>
      let dense_results :=
        dense_search self search query_vector (top_k * 2)%Z metadata_filter in
      if enable_bm25 self
      then
        let (sparse_results, self) :=
          sparse_search self scroll query (top_k * 2)%Z metadata_filter in
        (take (fuse_results self dense_results sparse_results (fusion_method self))
           top_k, self)
      else (take dense_results top_k, self)
  end.

(** The results of a list that carry a given chunk identifier. *)
Definition has_chunk_id (c : value) (r : RetrievalResult) : bool :=
  value_eqb (chunk_id r) c.

Definition results_with (c : value) (l : list RetrievalResult) : list RetrievalResult :=
  filter (has_chunk_id c) l.

(** The entry of the result map for an identifier after the sparse loop
    met the results [ss] carrying it: one keyword term is added per
    result. *)
Definition accumulate (keyword_weight : float) (r : RetrievalResult)
    (ss : list RetrievalResult) : RetrievalResult :=
  fold_left
    (fun r s => rescored r (fadd (score r) (fmul (score s) keyword_weight)))
    ss r.

(** The places of [enumerate(l)] whose result carries a given chunk
    identifier. *)
Definition carries (c : value) (item : nat * RetrievalResult) : bool :=
  has_chunk_id c (snd item).

Definition ranked_with (c : value) (l : list RetrievalResult)
    : list (nat * RetrievalResult) :=
  filter (carries c) (enumerate l).

(** Descending order on the score. *)
Definition score_ge (a b : RetrievalResult) : Prop := fle (score b) (score a) = true.

(** Every entry of the result map is filed under its own chunk identifier,
    and no identifier is filed twice. *)
Definition keyed (m : list (value * RetrievalResult)) : Prop :=
  Forall (fun kv => chunk_id (snd kv) = fst kv) m /\ NoDup (map fst m).

End WithFloats.

(** The payloads of a collection of two chunks, one English and one
    Chinese. *)
Definition payload_of (chunk doc body lang : string) (page : Z) : dict :=
  [(cps "chunk_id", VStr (cps chunk)); (cps "doc_id", VStr (cps doc));
   (cps "text", VStr (cps body)); (cps "language", VStr (cps lang));
   (cps "page_num", VInt page)].

Definition two_language_collection : list dict :=
  [payload_of "en_report_chunk_0000" "en_report" "budget" "en" 1;
   payload_of "zh_report_chunk_0000" "zh_report" "travel" "zh" 1].

Definition language_filter (lang : string) : option dict :=
  Some [(cps "language", VStr (cps lang))].

Definition is_lower_ascii (s : str) : bool :=
  forallb (fun c => ((97 <=? c) && (c <=? 122))%N) s.

(** Integer scores, to run the model with. *)
Definition int_scores : FloatOps :=
  {| float := Z; fmul := Z.mul; fadd := Z.add; fle := Z.leb;
     fdiv_one := fun n => (1000000 / n)%Z; ftenths := fun n => n |}.

(** A keyword index to run the model with: a document scores the number of
    query words it contains; an empty corpus cannot be indexed. *)
Definition overlap_scores (corpus : list (list str)) (q : list str)
    : outcome (list (@float int_scores)) :=
  Return (map (fun d =>
                 Z.of_nat (length (filter (fun w => existsb (str_eqb w) d) q)))
            corpus).

Definition overlap_index : @BM25 int_scores :=
  @Build_BM25 int_scores (list (list str))
    (fun corpus =>
       match corpus with
       | [] => Raise (Exception "ZeroDivisionError" (cps "division by zero"))
       | _ => Return corpus
       end)
    overlap_scores.

End Retriever.

(** ** Reranking (src/agents/reranker_agent.py) *)

Module Reranker.
Import PyStr Retriever.

Section WithFloats.
Context `{FloatOps} `{UnicodeData}.

Record RerankerAgent := {
  enable_rerank : bool;
  rerank_backend : str;
  rerank_top_k : Z;
  rerank_model : str
}.

Definition ValueError : exn :=
  Exception "ValueError" (cps "invalid literal for int() with base 10").

Definition TypeError : exn :=
  Exception "TypeError" (cps "'NoneType' object is not subscriptable").

Definition AttributeError : exn :=
  Exception "AttributeError" (cps "'NoneType' object has no attribute 'lower'").

(** [[int(i) for i in tokens if i.isdigit()]] *)
Fixpoint digit_tokens (tokens : list str) : outcome (list Z) :=
  match tokens with
  | [] => Return []
  | i :: rest =>
      if isdigit i
      then match int_of_decimals i with
           | Some n =>
               match digit_tokens rest with
               | Return l => Return (n :: l)
               | Raise e => Raise e
               end
           | None => Raise ValueError
           end
      else digit_tokens rest
  end.

(** The list [indices] read off the judge's answer. *)
Definition parse_indices (response : str) : outcome (list Z) :=
  let indices_str := strip (hd [] (split NL (strip response))) in
  digit_tokens (split_ws indices_str).

(** The loop over [indices]. *)
Definition pick (results : list RetrievalResult) (indices : list Z)
    : list RetrievalResult :=
  fold_left
    (fun reranked idx =>
       if (0 <=? idx)%Z && (idx <? Z.of_nat (length results))%Z
       then match nth_error results (Z.to_nat idx) with
            | Some r => reranked ++ [r]
            | None => reranked
            end
       else reranked)
    indices [].

(** The loop over [enumerate(results)]. *)
Definition append_missing (results : list RetrievalResult) (indices : list Z)
    (reranked : list RetrievalResult) : list RetrievalResult :=
  fold_left
    (fun reranked item =>
       let '(i, result) := item in
       if existsb (Z.eqb (Z.of_nat i)) indices then reranked
       else reranked ++ [result])
    (enumerate results) reranked.

Definition _parse_reranking_response (response : str)
    (results : list RetrievalResult) : list RetrievalResult :=
  match parse_indices response with
  | Return indices => append_missing results indices (pick results indices)
  | Raise _ => results
  end.

(** [f"[{i}] {result.text[:300]}..."] for every result; slicing a text
    that is [None] is a TypeError. *)
Fixpoint passages_from (i : nat) (results : list RetrievalResult)
    : outcome (list str) :=
  match results with
  | [] => Return []
  | result :: rest =>
      match text result with
      | VStr s =>
          match passages_from (S i) rest with
          | Return l =>
              Return ((cps "[" ++ str_of_N (N.of_nat i) ++ cps "] "
                       ++ firstn 300 s ++ cps "...") :: l)
          | Raise e => Raise e
          end
      | _ => Raise TypeError
      end
  end.

Definition _build_reranking_prompt (query : str) (results : list RetrievalResult)
    : outcome str :=
  match passages_from 0 results with
  | Return passages =>
      Return
        (cps "You are a reranking assistant. Given a query and a list of passages, rank the passages by their relevance to the query.

Query: " ++ query ++ cps "

Passages:
" ++ join [NL] passages ++ cps "

Instructions:
1. Analyze each passage's relevance to the query
2. Return ONLY the passage indices in order of relevance (most relevant first)
3. Format: space-separated indices, e.g., " ++ [34%N] ++ cps "2 0 4 1 3" ++ [34%N] ++ cps "

Reranked indices:")
  | Raise e => Raise e
  end.

(** The body of the [try] of [rerank_with_gemini]; [judge] is the call to
    the hosted model: the text of its response to a prompt, or the
    exception the call or the access to the text raised. *)
Definition rerank_attempt (judge : str -> outcome str) (query : str)
    (results : list RetrievalResult) (top_k : Z)
    : outcome (list RetrievalResult) :=
  match _build_reranking_prompt query results with
  | Raise e => Raise e
  | Return prompt =>
      match judge prompt with
      | Raise e => Raise e
      | Return response_text =>
          if negb (nonempty response_text)
          then Return (take results top_k)
          else Return (take (_parse_reranking_response response_text results) top_k)
      end
  end.

Definition rerank_with_gemini (self : RerankerAgent) (judge : str -> outcome str)
    (query : str) (results : list RetrievalResult) (top_k : option Z)
    : outcome (list RetrievalResult) :=
  let top_k := int_or top_k (rerank_top_k self) in
  match results with
  | [] => Return []
  | _ =>
      match rerank_attempt judge query results top_k with
      | Return reranked => Return reranked
      | Raise _ => Return (take results top_k)
      end
  end.

Definition str_eq_dec : forall a b : str, {a = b} + {a <> b} :=
  list_eq_dec N.eq_dec.

(** [len(query_tokens & text_tokens)] *)
Definition overlap_count (query_tokens text_tokens : list str) : Z :=
  Z.of_nat
    (length (filter (fun w => existsb (str_eqb w) text_tokens)
               (nodup str_eq_dec query_tokens))).

Fixpoint rescore_all (query_tokens : list str) (results : list RetrievalResult)
    : outcome (list RetrievalResult) :=
  match results with
  | [] => Return []
  | result :: rest =>
      match text result with
      | VStr s =>
          let overlap := overlap_count query_tokens (split_ws (lower s)) in
          let new_score := fadd (score result) (ftenths overlap) in
          match rescore_all query_tokens rest with
          | Return l => Return (rescored result new_score :: l)
          | Raise e => Raise e
          end
      | _ => Raise AttributeError
      end
  end.

Definition rerank_with_cpu (self : RerankerAgent) (query : str)
    (results : list RetrievalResult) (top_k : option Z)
    : outcome (list RetrievalResult) :=
  let top_k := int_or top_k (rerank_top_k self) in
  match results with
  | [] => Return []
  | _ =>
      match rescore_all (split_ws (lower query)) results with
      | Return scored_results => Return (take (sorted_by_score_desc scored_results) top_k)
      | Raise e => Raise e
      end
  end.

Definition rerank (self : RerankerAgent) (judge : str -> outcome str)
    (query : str) (results : list RetrievalResult) (top_k : option Z)
    : outcome (list RetrievalResult) :=
  if negb (enable_rerank self)
  then Return (take results (int_or top_k (Z.of_nat (length results))))
  else if str_eqb (rerank_backend self) (cps "gemini")
       then rerank_with_gemini self judge query results top_k
       else rerank_with_cpu self query results top_k.

(** [results[i]], when there is such a place. *)
Definition at_place (results : list RetrievalResult) (i : nat)
    : list RetrievalResult :=
  match nth_error results i with
  | Some r => [r]
  | None => []
  end.

(** [0 <= idx < len(results)] *)
Definition in_range (results : list RetrievalResult) (idx : Z) : bool :=
  (0 <=? idx)%Z && (idx <? Z.of_nat (length results))%Z.

(** [i not in indices] *)
Definition not_listed (indices : list Z) (i : nat) : bool :=
  negb (existsb (Z.eqb (Z.of_nat i)) indices).

(** The score [rerank_with_cpu] gives a result whose text is [s]. *)
Definition cpu_score (query : str) (result : RetrievalResult) (s : str) : float :=
  fadd (score result)
    (ftenths (overlap_count (split_ws (lower query)) (split_ws (lower s)))).


End WithFloats.
End Reranker.

(** ** Chat turns (src/agents/rag_agent.py) *)

Module RAG.
Import PyStr Retriever.

Section WithFloats.
Context `{FloatOps} `{UnicodeData}.

(** What [chat] yields. *)
Inductive chat_item :=
| Status (message : str)
| Context (chunks : list RetrievalResult)
| Response (content : str)
| Error (message : str).

(** What a turn does outside the store, in order. *)
Inductive event :=
| Yielded (item : chat_item)
| Retrieved (query : str)
| OllamaCalled (prompt : str)
| GeminiCalled (prompt : str).

(** The collaborators of a turn: the identifier [uuid.uuid4] draws, the
    time CURRENT_TIMESTAMP reads at the n-th statement, the outcome of
    [retrieve_context] for a query, the chunks the local inference
    service streams for a prompt (none when the request fails, which
    [generate_with_ollama_stream] only logs), and the text of the hosted
    model's response to a prompt. *)
Record Env := {
  uuid4 : str;
  clock : nat -> Z;
  retrieve_context : str -> outcome (list RetrievalResult);
  ollama_stream : str -> list str;
  gemini_text : str -> outcome str
}.

Record world := {
  db : Storage.DB;
  statements : nat;
  log : list event
}.

(** Computations of a turn: they read and change the world and may end
    in an exception. *)
Definition M (A : Type) : Type := world -> outcome A * world.

Definition ret {A} (a : A) : M A := fun w => (Return a, w).

Definition bind {A B} (m : M A) (k : A -> M B) : M B :=
  fun w =>
    match m w with
    | (Return a, w') => k a w'
    | (Raise e, w') => (Raise e, w')
    end.

Definition try_except {A} (body : M A) (handler : exn -> M A) : M A :=
  fun w =>
    match body w with
    | (Return a, w') => (Return a, w')
    | (Raise e, w') => handler e w'
    end.

Notation "x <- m ;; k" := (bind m (fun x => k))
  (at level 61, m at next level, right associativity).
Notation "m ;;; k" := (bind m (fun _ => k))
  (at level 61, right associativity).

Definition emit (e : event) : M unit :=
  fun w => (Return tt, {| db := db w; statements := statements w; log := log w ++ [e] |}).

Definition yield (item : chat_item) : M unit := emit (Yielded item).

(** A statement on the store, run at the time the clock shows. *)
Definition statement (env : Env) (f : Z -> Storage.DB -> Storage.DB) : M unit :=
  fun w =>
    (Return tt,
     {| db := f (clock env (statements w)) (db w);
        statements := S (statements w); log := log w |}).

Definition query_store {A} (f : Storage.DB -> A) : M A :=
  fun w =>
    (Return (f (db w)),
     {| db := db w; statements := S (statements w); log := log w |}).

Definition of_outcome {A} (o : outcome A) : M A := fun w => (o, w).

Definition system_prompt : str :=
  cps "You are a helpful AI assistant with access to a multilingual document database. Your task is to answer questions based on the provided context from retrieved documents.

Instructions:
1. Answer based ONLY on the provided context
2. If the context doesn't contain enough information, say so
3. Cite the document/page when referencing information
4. Be concise but comprehensive
5. Maintain the language of the question in your response when appropriate
6. If multiple documents are relevant, synthesize information from all of them".

Definition context_block (r : RetrievalResult) : str :=
  cps "[Document: " ++ str_of_value (doc_id r) ++ cps ", Page: "
  ++ str_of_value (page_num r) ++ cps ", Language: "
  ++ str_of_value (language r) ++ cps "]" ++ [NL] ++ str_of_value (text r).

(** [build_prompt]; a history entry is the pair of its role and content. *)
Definition build_prompt (query : str) (context : list RetrievalResult)
    (chat_history : list (str * str)) : str :=
  let context_text := join [NL; NL] (map context_block context) in
  let history_text :=
    match chat_history with
    | [] => []
    | _ =>
        join [NL]
          (map (fun msg => upper (fst msg) ++ cps ": " ++ snd msg)
             (last_n chat_history 5))
    end in
  if nonempty history_text
  then system_prompt ++ cps "

Previous conversation:
" ++ history_text ++ cps "

Context from documents:
" ++ context_text ++ cps "

Current question: " ++ query ++ cps "

Answer:"
  else system_prompt ++ cps "

Context from documents:
" ++ context_text ++ cps "

Question: " ++ query ++ cps "

Answer:".

(** [generate_with_ollama_stream]: the chunks of the stream. *)
Definition generate_with_ollama_stream (env : Env) (prompt : str) : M (list str) :=
  emit (OllamaCalled prompt) ;;; ret (ollama_stream env prompt).

Definition gemini_empty_reply : str :=
  cps "I apologize, but I couldn't generate a response. Please try again.".

Definition gemini_error_reply : str :=
  cps "I apologize, but I encountered an error. Please try again.".

(** [generate_with_gemini] *)
Definition generate_with_gemini (env : Env) (prompt : str) : M str :=
  emit (GeminiCalled prompt) ;;;
  match gemini_text env prompt with
  | Return t => if nonempty t then ret t else ret gemini_empty_reply
  | Raise _ => ret gemini_error_reply
  end.

Definition no_context_reply : str :=
  cps "I couldn't find any relevant information in the document database to answer your question.".

Definition ollama_empty_reply : str := cps "Ollama returned empty response".

Definition user : str := cps "user".
Definition assistant : str := cps "assistant".

Definition add_message (env : Env) (session_id role content : str) : M unit :=
  statement env (fun now => Storage.add_message now session_id role content None).

(** The [async for] of the streaming branch: every chunk is yielded as it
    arrives. *)
Fixpoint yield_chunks (chunks : list str) : M unit :=
  match chunks with
  | [] => ret tt
  | chunk :: rest => yield (Response chunk) ;;; yield_chunks rest
  end.

(** The body of the [try] of [chat]. *)
Definition chat_body (env : Env) (query session_id : str) (stream : bool) : M unit :=
  yield (Status (cps "Retrieving relevant documents...")) ;;;
  emit (Retrieved query) ;;;
  context <- of_outcome (retrieve_context env query) ;;
  match context with
  | [] =>
      yield (Status (cps "No relevant documents found")) ;;;
      let response_text := no_context_reply in
      yield (Response response_text) ;;;
      add_message env session_id assistant response_text
  | _ =>
      yield (Context context) ;;;
      history <- query_store (Storage.get_session_messages session_id (Some 10%Z)) ;;
      let chat_history :=
        map (fun msg => (Storage.role msg, Storage.content msg)) (removelast history) in
      let prompt := build_prompt query context chat_history in
      yield (Status (cps "Generating response...")) ;;;
      if stream
      then
        response_chunks <- generate_with_ollama_stream env prompt ;;
        yield_chunks response_chunks ;;;
        match response_chunks with
        | _ :: _ =>
            let full_response := concat response_chunks in
            add_message env session_id assistant full_response
        | [] =>
            let error_msg := ollama_empty_reply in
            yield (Error error_msg) ;;;
            add_message env session_id assistant error_msg
        end
      else
        chunks <- generate_with_ollama_stream env prompt ;;
        let response_text := concat chunks in
        response_text <-
          (if nonempty response_text
           then add_message env session_id assistant response_text ;;; ret response_text
           else ret ollama_empty_reply) ;;
        yield (Response response_text) ;;;
        add_message env session_id assistant response_text
  end.

(** [chat], run until the generator is exhausted. *)
Definition chat (env : Env) (query : str) (session_id : option str)
    (stream : bool) : M unit :=
  session_id <-
    match session_id with
    | Some ((_ :: _) as sid) => ret sid
    | _ =>
        let sid := uuid4 env in
        statement env (fun now => Storage.create_session now sid None) ;;; ret sid
    end ;;
  add_message env session_id user query ;;;
  try_except (chat_body env query session_id stream)
    (fun e =>
       let error_msg := cps "An error occurred: " ++ exn_msg e in
       yield (Error error_msg) ;;;
       add_message env session_id assistant error_msg).

(** The session a turn runs in. *)
Definition session_of (env : Env) (session_id : option str) : str :=
  match session_id with
  | Some ((_ :: _) as sid) => sid
  | _ => uuid4 env
  end.

(** The rows of [chat_messages] a computation added to a world. *)
Definition new_messages {A} (m : M A) (w : world) : list Storage.ChatMessage :=
  skipn (length (Storage.chat_messages (db w)))
    (Storage.chat_messages (db (snd (m w)))).

(** The events a computation added to a world's log. *)
Definition new_events {A} (m : M A) (w : world) : list event :=
  skipn (length (log w)) (log (snd (m w))).

Definition is_generator_call (e : event) : bool :=
  match e with
  | OllamaCalled _ | GeminiCalled _ => true
  | _ => false
  end.

Definition is_gemini_call (e : event) : bool :=
  match e with
  | GeminiCalled _ => true
  | _ => false
  end.

(** The role and content of a stored message. *)
Definition said (m : Storage.ChatMessage) : str * str * str :=
  (Storage.msg_session_id m, Storage.role m, Storage.content m).

End WithFloats.

(** A turn to run the model with: a retrieval outcome and a stream fixed
    in advance, a clock that ticks once per statement, an empty store. *)
Definition sample_result : @RetrievalResult int_scores :=
  @Build_RetrievalResult int_scores
    (VStr (cps "en_report_chunk_0000")) (VStr (cps "en_report"))
    (VStr (cps "[PAGE 1] Budget limit: 50,00,000")) 9%Z
    (VStr (cps "en")) (VInt 1) [].

Definition env_with (context : outcome (list (@RetrievalResult int_scores)))
    (chunks : list str) : @Env int_scores :=
  {| uuid4 := cps "0b8f3c0e-5d1a-4c57-9a53-2f6f1f0c9d11";
     clock := fun n => Z.of_nat n;
     retrieve_context := fun _ => context;
     ollama_stream := fun _ => chunks;
     gemini_text := fun _ => Return (cps "The limit is 50,00,000.") |}.

Definition fresh_world : @world int_scores :=
  {| db := Storage.empty_db; statements := 0; log := [] |}.

(** A world whose session [s1] holds ten messages, stored at the times 0
    to 9. *)
Definition ten_messages_world : @world int_scores :=
  {| db :=
       fold_left
         (fun d n =>
            Storage.add_message (Z.of_nat n) (cps "s1")
              (if Nat.even n then cps "user" else cps "assistant")
              (str_of_N (N.of_nat n)) None d)
         (seq 0 10) Storage.empty_db;
     statements := 10;
     log := [] |}.

End RAG.

(** ** The context of a turn (src/agents/rag_agent.py, [retrieve_context]) *)

Module RAGContext.
Import PyStr Retriever.

Section WithFloats.
Context `{FloatOps}.

(** The settings and sub-agents [retrieve_context] works with: the two
    switches of the configuration, the filter agent, the decomposer, the
    retriever, whose state is a [retriever], and the reranker. *)
Record Agents (retriever : Type) := {
  enable_decomposition : bool;
  enable_rerank : bool;
  extract_filters : str -> dict;
  clean_query : str -> dict -> str;
  decompose_query : str -> list str;
  retrieve : retriever -> str -> Z -> option dict
             -> list RetrievalResult * retriever;
  rerank : str -> list RetrievalResult -> option Z
           -> outcome (list RetrievalResult)
}.

(** The loop over [queries]; the state is [all_results] and the
    retriever. *)
Definition retrieve_all {retriever : Type} (agents : Agents retriever)
    (top_k : Z) (filters : dict) (queries : list str) (r : retriever)
    : list RetrievalResult * retriever :=
  fold_left
    (fun (st : list RetrievalResult * retriever) q =>
       let (all_results, r) := st in
       let (results, r') :=
         retrieve agents r q top_k
           (match filters with [] => None | _ => Some filters end) in
       (all_results ++ results, r'))
    queries ([], r).

(** The body of the loop over [all_results]; the state is [seen] and
    [unique_results]. *)
Definition unique_step (st : list value * list RetrievalResult)
    (result : RetrievalResult) : list value * list RetrievalResult :=
  let (seen, unique_results) := st in
  if existsb (value_eqb (chunk_id result)) seen then (seen, unique_results)
  else (chunk_id result :: seen, unique_results ++ [result]).

Definition unique_by_chunk_id (all_results : list RetrievalResult)
    : list RetrievalResult :=
  snd (fold_left unique_step all_results ([], [])).

(** [retrieve_context], with the retriever as it is left afterwards. *)
Definition retrieve_context {retriever : Type} (agents : Agents retriever)
    (r : retriever) (query : str) (top_k : Z) (use_decomposition : bool)
    : outcome (list RetrievalResult) * retriever :=
  let filters := extract_filters agents query in
  let cleaned_query :=
    match filters with
    | [] => query
    | _ => clean_query agents query filters
    end in
  let queries :=
    if use_decomposition && enable_decomposition agents
    then decompose_query agents cleaned_query
    else [cleaned_query] in
  let (all_results, r) := retrieve_all agents top_k filters queries r in
  let unique_results := unique_by_chunk_id all_results in
  let reranked_results :=
    if enable_rerank agents && (top_k <? Z.of_nat (length unique_results))%Z
    then rerank agents cleaned_query unique_results (Some top_k)
    else Return (take unique_results top_k) in
  (reranked_results, r).

End WithFloats.
End RAGContext.

(* ================================================================== *)
(** * Part II: properties *)
(* ================================================================== *)

Unset Implicit Arguments.

(** ** Facts about strings and sorting *)

Section PyFacts.
Import PyStr.

Lemma str_eqb_eq (a b : str) : str_eqb a b = true <-> a = b.
Proof.
  revert b; induction a as [|x a IH]; intros [|y b]; simpl; split;
    try congruence; try reflexivity.
  - intros E. apply andb_prop in E as [E1 E2].
    apply N.eqb_eq in E1. apply IH in E2. congruence.
  - intros E. injection E as -> ->.
    rewrite N.eqb_refl. simpl. now apply IH.
Qed.

Lemma str_eqb_refl (a : str) : str_eqb a a = true.
Proof. now apply str_eqb_eq. Qed.

Lemma str_eqb_neq (a b : str) : str_eqb a b = false <-> a <> b.
Proof.
  split.
  - intros E F. apply str_eqb_eq in F. congruence.
  - intros F. destruct (str_eqb a b) eqn:E; [|reflexivity].
    apply str_eqb_eq in E. contradiction.
Qed.

Lemma insert_by_In {A} (before : A -> A -> bool) (x y : A) (l : list A) :
  In y (insert_by before x l) <-> y = x \/ In y l.
Proof.
  induction l as [|z l IH]; simpl.
  - intuition.
  - destruct (before x z); simpl; [intuition|].
    rewrite IH. intuition.
Qed.

Lemma sort_by_In {A} (before : A -> A -> bool) (y : A) (l : list A) :
  In y (sort_by before l) <-> In y l.
Proof.
  induction l as [|x l IH]; simpl; [reflexivity|].
  rewrite insert_by_In, IH. intuition.
Qed.

Lemma insert_by_length {A} (before : A -> A -> bool) (x : A) (l : list A) :
  length (insert_by before x l) = S (length l).
Proof.
  induction l as [|z l IH]; simpl; [reflexivity|].
  destruct (before x z); simpl; congruence.
Qed.

Lemma sort_by_length {A} (before : A -> A -> bool) (l : list A) :
  length (sort_by before l) = length l.
Proof.
  induction l as [|x l IH]; simpl; [reflexivity|].
  now rewrite insert_by_length, IH.
Qed.

Lemma find_app_split {A} (p : A -> bool) (l1 l2 : list A) :
  find p (l1 ++ l2) =
    match find p l1 with
    | Some x => Some x
    | None => find p l2
    end.
Proof.
  induction l1 as [|x l1 IH]; simpl; [reflexivity|].
  destruct (p x); [reflexivity|exact IH].
Qed.

Lemma filter_none {A} (p : A -> bool) (l : list A) :
  (forall x, In x l -> p x = false) -> filter p l = [].
Proof.
  induction l as [|x l IH]; simpl; intros F; [reflexivity|].
  rewrite (F x) by now left. apply IH. intros y Hy. apply F. now right.
Qed.

Lemma firstn_In {A} (n : nat) (x : A) (l : list A) :
  In x (firstn n l) -> In x l.
Proof.
  intros Hx. rewrite <- (firstn_skipn n l). apply in_or_app. now left.
Qed.

Lemma insert_by_filter {A} (before : A -> A -> bool) (p : A -> bool) (x : A)
    (l : list A) :
  Permutation (filter p (insert_by before x l)) (filter p (x :: l)).
Proof.
  induction l as [|z l IH]; simpl; [reflexivity|].
  destruct (before x z); simpl; [reflexivity|].
  simpl in IH. destruct (p z), (p x); simpl in *.
  - rewrite IH. apply perm_swap.
  - now rewrite IH.
  - exact IH.
  - exact IH.
Qed.

Lemma sort_by_filter {A} (before : A -> A -> bool) (p : A -> bool) (l : list A) :
  Permutation (filter p (sort_by before l)) (filter p l).
Proof.
  induction l as [|x l IH]; simpl; [reflexivity|].
  rewrite insert_by_filter. simpl. destruct (p x); now rewrite IH.
Qed.

Lemma insert_by_perm {A} (before : A -> A -> bool) (x : A) (l : list A) :
  Permutation (insert_by before x l) (x :: l).
Proof.
  induction l as [|z l IH]; simpl; [reflexivity|].
  destruct (before x z); [reflexivity|].
  rewrite IH. apply perm_swap.
Qed.

Lemma sort_by_perm {A} (before : A -> A -> bool) (l : list A) :
  Permutation (sort_by before l) l.
Proof.
  induction l as [|x l IH]; simpl; [reflexivity|].
  rewrite insert_by_perm. now constructor.
Qed.

(** The sort is stable: elements that may all stand before one another
    keep the order they came in. *)
Lemma insert_by_keeps_order {A} (before : A -> A -> bool) (p : A -> bool)
    (x : A) (l : list A) :
  (forall z, p x = true -> p z = true -> before x z = true) ->
  filter p (insert_by before x l) = filter p (x :: l).
Proof.
  intros Ties. induction l as [|z l IH]; [reflexivity|].
  cbn [insert_by]. destruct (before x z) eqn:E; [reflexivity|].
  cbn [filter] in *. rewrite IH.
  destruct (p x) eqn:Px, (p z) eqn:Pz; try reflexivity.
  rewrite Ties in E by auto. discriminate.
Qed.

Lemma sort_by_keeps_order {A} (before : A -> A -> bool) (p : A -> bool)
    (l : list A) :
  (forall a b, p a = true -> p b = true -> before a b = true) ->
  filter p (sort_by before l) = filter p l.
Proof.
  intros Ties. induction l as [|x l IH]; [reflexivity|].
  cbn [sort_by fold_right]. rewrite insert_by_keeps_order by (intros; now apply Ties).
  cbn [filter]. fold (sort_by before l). now rewrite IH.
Qed.

Section SortBySorted.
Variables (A : Type) (before : A -> A -> bool).
Hypothesis before_total : forall a b, before a b = true \/ before b a = true.
Hypothesis before_trans :
  forall a b c, before a b = true -> before b c = true -> before a c = true.

Lemma insert_by_sorted (x : A) (l : list A) :
  StronglySorted (fun a b => before a b = true) l ->
  StronglySorted (fun a b => before a b = true) (insert_by before x l).
Proof.
  induction 1 as [|z l S IH Fz]; simpl.
  - repeat constructor.
  - destruct (before x z) eqn:E.
    + constructor; [now constructor|].
      constructor; [exact E|].
      rewrite Forall_forall in *. intros y Hy. eapply before_trans; eauto.
    + constructor; [exact IH|].
      rewrite Forall_forall in *. intros y Hy.
      apply insert_by_In in Hy as [->|Hy]; [|now apply Fz].
      destruct (before_total x z); congruence.
Qed.

Lemma sort_by_sorted (l : list A) :
  StronglySorted (fun a b => before a b = true) (sort_by before l).
Proof.
  induction l as [|x l IH]; simpl; [constructor|now apply insert_by_sorted].
Qed.

End SortBySorted.

End PyFacts.

(** ** The job store *)

Section JobStore.
Import PyStr Storage Ingestion.

Lemma has_doc_id_true (d : str) (j : Job) : has_doc_id d j = true <-> doc_id j = d.
Proof. apply str_eqb_eq. Qed.

Lemma existsb_has_doc_id (d : str) (js : list Job) :
  existsb (has_doc_id d) js = true <-> In d (map doc_id js).
Proof.
  rewrite existsb_exists, in_map_iff. split.
  - intros (j & Hj & E). apply has_doc_id_true in E. eauto.
  - intros (j & E & Hj). exists j. split; [assumption|].
    now apply has_doc_id_true.
Qed.

Lemma find_absent (d : str) (js : list Job) :
  existsb (has_doc_id d) js = false -> find (has_doc_id d) js = None.
Proof.
  induction js as [|j js IH]; simpl; [reflexivity|].
  destruct (has_doc_id d j); simpl; [discriminate|exact IH].
Qed.

Lemma find_unique (j : Job) (js : list Job) :
  NoDup (map doc_id js) -> In j js -> find (has_doc_id (doc_id j)) js = Some j.
Proof.
  induction js as [|k js IH]; simpl; [contradiction|].
  intros ND [->|Hin].
  - unfold has_doc_id at 1. now rewrite str_eqb_refl.
  - inversion ND as [|? ? Hk ND']; subst.
    destruct (has_doc_id (doc_id j) k) eqn:E.
    + apply has_doc_id_true in E. exfalso. apply Hk.
      rewrite E. now apply in_map.
    + now apply IH.
Qed.

Lemma find_map_status (d : str) (f : Job -> Job) (js : list Job) :
  (forall j, doc_id (f j) = doc_id j) ->
  find (has_doc_id d) (map f js) = option_map f (find (has_doc_id d) js).
Proof.
  intros Hf. induction js as [|j js IH]; simpl; [reflexivity|].
  unfold has_doc_id at 1 3. rewrite Hf.
  destruct (str_eqb (doc_id j) d); [reflexivity|exact IH].
Qed.

(** The status of a job after [update_job_status]. *)
Lemma job_status_update (now : Z) (d d0 : str) (s : JobStatus)
    (err : option str) (db : DB) :
  job_status d (update_job_status now d0 s err db) =
    match job_status d db with
    | Some s' => if str_eqb d d0 then Some s else Some s'
    | None => None
    end.
Proof.
  unfold job_status, get_job, update_job_status. simpl.
  rewrite find_map_status.
  - destruct (find (has_doc_id d) (jobs db)) as [j|] eqn:F; simpl; [|reflexivity].
    apply find_some in F as [_ F]. apply has_doc_id_true in F.
    unfold has_doc_id. rewrite F.
    destruct (str_eqb d d0); reflexivity.
  - intros j. now destruct (has_doc_id d0 j).
Qed.

Lemma update_preserves_unique (now : Z) (d0 : str) (s : JobStatus)
    (err : option str) (db : DB) :
  unique_doc_ids db -> unique_doc_ids (update_job_status now d0 s err db).
Proof.
  unfold unique_doc_ids, update_job_status. simpl. rewrite map_map.
  intros ND. erewrite map_ext; [exact ND|].
  intros j. now destruct (has_doc_id d0 j).
Qed.

(** The status of a job after [add_job]. *)
Lemma job_status_add (now : Z) (d d0 fp lang : str) (meta : option str) (db : DB) :
  job_status d (snd (add_job now d0 fp lang meta db)) =
    match job_status d db with
    | Some s => Some s
    | None =>
        if negb (existsb (has_doc_id d0) (jobs db)) && str_eqb d0 d
        then Some PENDING else None
    end.
Proof.
  unfold add_job. destruct (existsb (has_doc_id d0) (jobs db)) eqn:Ex; simpl.
  - now destruct (job_status d db).
  - unfold job_status, get_job. simpl.
    rewrite find_app_split.
    destruct (find (has_doc_id d) (jobs db)) as [j|] eqn:F; [reflexivity|].
    simpl. unfold has_doc_id at 1. simpl.
    now destruct (str_eqb d0 d).
Qed.

Lemma add_preserves_unique (now : Z) (d0 fp lang : str) (meta : option str) (db : DB) :
  unique_doc_ids db -> unique_doc_ids (snd (add_job now d0 fp lang meta db)).
Proof.
  unfold unique_doc_ids, add_job.
  destruct (existsb (has_doc_id d0) (jobs db)) eqn:Ex; simpl; [trivial|].
  intros ND. rewrite map_app. simpl.
  apply NoDup_app; [exact ND| |].
  - constructor; [intros []|constructor].
  - intros x Hx [<-|[]].
    apply existsb_has_doc_id in Hx. congruence.
Qed.

(** The job [get_next_job] hands out is a pending row of the table. *)
Lemma get_pending_jobs_head (db : DB) (job : Job) (rest : list Job) :
  get_pending_jobs 1 db = job :: rest ->
  In job (jobs db) /\ status job = PENDING.
Proof.
  unfold get_pending_jobs, sql_limit. simpl.
  intros E.
  assert (Hin : In job (sort_by (fun a b => (created_at a <=? created_at b)%Z)
                          (filter (fun j => JobStatus_eqb (status j) PENDING) (jobs db)))).
  { destruct (sort_by _ _) as [|x l]; simpl in E; [discriminate|].
    injection E as -> _. now left. }
  apply sort_by_In in Hin. apply filter_In in Hin as [Hin Hs].
  split; [exact Hin|]. now destruct (status job).
Qed.

Lemma get_next_job_unique (now : Z) (db : DB) :
  unique_doc_ids db -> unique_doc_ids (snd (get_next_job now db)).
Proof.
  unfold get_next_job. destruct (get_pending_jobs 1 db); simpl; [trivial|].
  apply update_preserves_unique.
Qed.

Lemma apply_op_unique (o : job_op) (db : DB) :
  unique_doc_ids db -> unique_doc_ids (apply_op o db).
Proof.
  destruct o; simpl.
  - apply add_preserves_unique.
  - apply get_next_job_unique.
  - apply update_preserves_unique.
  - apply update_preserves_unique.
Qed.

Lemma allowed_step_refl (s : option JobStatus) : allowed_step s s = true.
Proof. now destruct s as [[]|]. Qed.

(** One operation of the protocol moves a job along an edge of the state
    machine, or leaves it where it is. *)
Lemma protocol_step (d : str) (o : job_op) (db : DB) :
  unique_doc_ids db ->
  op_in_protocol o db = true ->
  allowed_step (job_status d db) (job_status d (apply_op o db)) = true.
Proof.
  intros U P. destruct o as [now d0 fp lang meta|now|now d0|now d0 e]; simpl in *.
  - rewrite job_status_add.
    destruct (job_status d db) as [[]|]; try reflexivity.
    now destruct (negb _ && _).
  - unfold get_next_job.
    destruct (get_pending_jobs 1 db) as [|job rest] eqn:G; simpl.
    + apply allowed_step_refl.
    + apply get_pending_jobs_head in G as [Hin Hs].
      rewrite job_status_update.
      destruct (str_eqb d (doc_id job)) eqn:E.
      * apply str_eqb_eq in E. subst d.
        unfold job_status, get_job. rewrite (find_unique _ _ U Hin). simpl.
        now rewrite Hs.
      * now destruct (job_status d db) as [[]|].
  - unfold mark_job_completed. rewrite job_status_update.
    destruct (str_eqb d d0) eqn:E.
    + apply str_eqb_eq in E. subst d0.
      now destruct (job_status d db) as [[]|].
    + now destruct (job_status d db) as [[]|].
  - unfold mark_job_failed. rewrite job_status_update.
    destruct (str_eqb d d0) eqn:E.
    + apply str_eqb_eq in E. subst d0.
      now destruct (job_status d db) as [[]|].
    + now destruct (job_status d db) as [[]|].
Qed.

Lemma protocol_run_chain (d : str) (ops : list job_op) :
  forall db, unique_doc_ids db -> run_in_protocol ops db = true ->
  chain (job_status d db) (statuses d ops db) = true.
Proof.
  induction ops as [|o ops IH]; intros db U R; simpl in *; [reflexivity|].
  apply andb_prop in R as [P R].
  rewrite (protocol_step d o db U P). simpl.
  apply IH; [now apply apply_op_unique|exact R].
Qed.

Lemma chain_continuations (l : list (option JobStatus)) :
  forall s, chain s l = true -> In (changes s l) (continuations s).
Proof.
  induction l as [|a l IH]; intros s C.
  - destruct s as [[]|]; simpl; auto.
  - simpl in C. apply andb_prop in C as [A C]. specialize (IH a C).
    destruct s as [[]|], a as [[]|]; try discriminate A; simpl in *;
      intuition (subst; try congruence; auto 10);
      match goal with
      | E : _ = changes _ _ |- _ => rewrite <- E; auto 10
      end.
Qed.

(** The pipeline marks the job it has just claimed, which the claim left
    processing: its marks are within the protocol. *)
Lemma claimed_job_is_processing (now : Z) (db : DB) (job : Job) :
  unique_doc_ids db ->
  fst (get_next_job now db) = Some job ->
  job_status (doc_id job) (snd (get_next_job now db)) = Some PROCESSING.
Proof.
  intros U. unfold get_next_job.
  destruct (get_pending_jobs 1 db) as [|j rest] eqn:G; simpl; [discriminate|].
  intros E. injection E as ->.
  apply get_pending_jobs_head in G as [Hin Hs].
  rewrite job_status_update, str_eqb_refl.
  unfold job_status, get_job. now rewrite (find_unique _ _ U Hin).
Qed.

(** What [process_document] does with a job just claimed is within the
    protocol, whether the stages succeed or one of them raises. *)
Lemma process_document_in_protocol (now now' : Z) (db : DB) (job : Job)
    (failure : option str) :
  unique_doc_ids db ->
  fst (get_next_job now db) = Some job ->
  let db' := snd (get_next_job now db) in
  let o := match failure with
           | None => OpMarkCompleted now' (doc_id job)
           | Some e => OpMarkFailed now' (doc_id job) e
           end in
  process_document now' job failure db' = apply_op o db'
  /\ op_in_protocol o db' = true.
Proof.
  intros Un G db' o.
  pose proof (claimed_job_is_processing now db job Un G) as P.
  unfold o, db'. destruct failure as [e|]; simpl; now rewrite P.
Qed.

Lemma one_row_per_doc_id (d : str) (js : list Job) :
  NoDup (map doc_id js) -> In d (map doc_id js) ->
  length (filter (has_doc_id d) js) = 1.
Proof.
  induction js as [|j js IH]; simpl; [contradiction|].
  intros ND Hin. inversion ND as [|? ? Hj ND']; subst.
  destruct (has_doc_id d j) eqn:E; simpl.
  - apply has_doc_id_true in E. subst d. f_equal.
    rewrite filter_none; [reflexivity|].
    intros k Hk. destruct (has_doc_id (doc_id j) k) eqn:E; [|reflexivity].
    apply has_doc_id_true in E. exfalso. apply Hj. rewrite <- E. now apply in_map.
  - destruct Hin as [Hd|Hin]; [|now apply IH].
    subst d. unfold has_doc_id in E. now rewrite str_eqb_refl in E.
Qed.

(** C2 (as amended): calling [add_job] twice with the same [doc_id], on
    a table that satisfies its UNIQUE constraint, leaves exactly one row
    with that [doc_id]; the second call does not insert or update and is
    not ignored either: it raises the IntegrityError of the constraint and
    leaves the store as the first call left it. *)
Theorem add_job_twice_one_row_second_raises
    (now1 now2 : Z) (d fp1 lang1 fp2 lang2 : str) (meta1 meta2 : option str)
    (db : DB) :
  unique_doc_ids db ->
  let first := add_job now1 d fp1 lang1 meta1 db in
  let second := add_job now2 d fp2 lang2 meta2 (snd first) in
  fst second = Raise IntegrityError
  /\ snd second = snd first
  /\ length (filter (has_doc_id d) (jobs (snd second))) = 1.
Proof.
  intros U first second.
  assert (Ex : existsb (has_doc_id d) (jobs (snd first)) = true).
  { unfold first, add_job.
    destruct (existsb (has_doc_id d) (jobs db)) eqn:E; simpl; [exact E|].
    rewrite existsb_app. simpl. unfold has_doc_id at 2. simpl.
    rewrite str_eqb_refl. now rewrite orb_true_r. }
  assert (S2 : second = (Raise IntegrityError, snd first)).
  { unfold second, add_job at 1. now rewrite Ex. }
  rewrite S2. simpl. repeat split.
  apply one_row_per_doc_id.
  - now apply add_preserves_unique.
  - now apply existsb_has_doc_id.
Qed.

Lemma add_job_twice_one_row_witness :
  unique_doc_ids empty_db
  /\ fst (add_job 1 (cps "en_report_0a1b2c3d") (cps "b.pdf") (cps "en") None
           (snd (add_job 0 (cps "en_report_0a1b2c3d") (cps "a.pdf") (cps "en")
                   None empty_db)))
     = Raise IntegrityError.
Proof.
  assert (U : unique_doc_ids empty_db) by constructor.
  split; [exact U|].
  exact (proj1 (add_job_twice_one_row_second_raises 0 1 (cps "en_report_0a1b2c3d")
                  (cps "a.pdf") (cps "en") (cps "b.pdf") (cps "en") None None empty_db U)).
Defined.

(** C2, as stated, fails: the second [add_job] for a [doc_id] is an error,
    not an ignored insert. *)
Lemma second_add_job_is_an_error :
  let d := cps "en_report_0a1b2c3d" in
  let fp := cps "data/processing/en_report_0a1b2c3d.pdf" in
  let db1 := snd (add_job 0 d fp (cps "en") None empty_db) in
  fst (add_job 1 d fp (cps "en") None db1) = Raise IntegrityError
  /\ fst (add_job 1 d fp (cps "en") None db1) <> Return 1%Z
  /\ length (jobs db1) = 1.
Proof.
  vm_compute. repeat split. discriminate.
Qed.

(** C4 (as amended): when [mark_job_completed] is applied only to a job
    that is processing and [mark_job_failed] only to a job that is pending
    or processing, the status sequence of every job, over any run of
    [add_job], [get_next_job], [mark_job_completed] and [mark_job_failed]
    from the empty store, is an initial part of pending, processing,
    completed or of pending, processing, failed, or is pending, failed: no
    step leaves completed or failed and no job is in both.  The table keeps
    one row, hence one status, per [doc_id]. *)
Theorem job_status_sequences_in_protocol (d : str) (ops : list job_op) :
  run_in_protocol ops empty_db = true ->
  In (status_sequence d ops)
    [[]; [PENDING]; [PENDING; PROCESSING]; [PENDING; PROCESSING; COMPLETED];
     [PENDING; PROCESSING; FAILED]; [PENDING; FAILED]]
  /\ unique_doc_ids (fold_left (fun db o => apply_op o db) ops empty_db).
Proof.
  intros R. split.
  - apply (chain_continuations (statuses d ops empty_db) None).
    apply (protocol_run_chain d ops empty_db); [constructor|exact R].
  - assert (G : forall db, unique_doc_ids db ->
                  unique_doc_ids (fold_left (fun db o => apply_op o db) ops db)).
    { clear R. induction ops as [|o ops IH]; intros db U; simpl; [exact U|].
      apply IH. now apply apply_op_unique. }
    apply G. constructor.
Qed.

Lemma job_status_sequences_witness :
  let d := cps "en_report_0a1b2c3d" in
  let ops := [OpAddJob 0 d (cps "a.pdf") (cps "en") None; OpGetNextJob 1;
              OpMarkFailed 2 d (cps "OCR failed: no text extracted")] in
  run_in_protocol ops empty_db = true
  /\ In (status_sequence d ops)
       [[]; [PENDING]; [PENDING; PROCESSING]; [PENDING; PROCESSING; COMPLETED];
        [PENDING; PROCESSING; FAILED]; [PENDING; FAILED]].
Proof.
  intros d ops.
  assert (R : run_in_protocol ops empty_db = true) by reflexivity.
  split; [exact R|].
  exact (proj1 (job_status_sequences_in_protocol d ops R)).
Defined.

(** C4, as stated, fails: [update_job_status] overwrites whatever status
    a job has, so [mark_job_failed] moves a completed job to failed. *)
Lemma mark_job_failed_leaves_completed :
  let d := cps "en_report_0a1b2c3d" in
  let ops := [OpAddJob 0 d (cps "a.pdf") (cps "en") None; OpGetNextJob 1;
              OpMarkCompleted 2 d] in
  let db := fold_left (fun db o => apply_op o db) ops empty_db in
  job_status d db = Some COMPLETED
  /\ job_status d (mark_job_failed 3 d (cps "late error") db) = Some FAILED
  /\ status_sequence d (ops ++ [OpMarkFailed 3 d (cps "late error")])
     = [PENDING; PROCESSING; COMPLETED; FAILED].
Proof.
  vm_compute. repeat split.
Qed.

End JobStore.

(** ** Query decomposition *)

Section SubQueries.
Import PyStr Decomposition.
Context `{UnicodeData}.

Lemma long_enough_length (line : str) :
  long_enough line = (10 <? length line).
Proof. destruct line; reflexivity. Qed.

Lemma collect_sub_queries_from (lines acc : list str) :
  fold_left
    (fun sub_queries line =>
       let line := clean_line line in
       if long_enough line then sub_queries ++ [line] else sub_queries)
    lines acc
  = acc ++ filter (fun l => 10 <? length l) (map clean_line lines).
Proof.
  revert acc; induction lines as [|line lines IH]; intros acc; simpl.
  - now rewrite app_nil_r.
  - rewrite IH, long_enough_length.
    destruct (10 <? length (clean_line line)); [|reflexivity].
    now rewrite <- app_assoc.
Qed.

(** C7 (as amended): the parser returns the first four of the lines that,
    once numbering, bullets and quotes are stripped, are longer than 10
    characters, in their order; a line of 10 characters or fewer is
    discarded.  So at most 4 sub-queries are returned, each a cleaned line
    of at least 11 characters, and when no more than four lines qualify
    every one of them is returned. *)
Theorem parse_sub_queries_keeps_lines_over_ten (response_text : str) :
  let cleaned := map clean_line (response_lines response_text) in
  let kept := filter (fun l => 10 <? length l) cleaned in
  _parse_sub_queries response_text = firstn 4 kept
  /\ length (_parse_sub_queries response_text) <= 4
  /\ (forall q, In q (_parse_sub_queries response_text) ->
        In q cleaned /\ 11 <= length q)
  /\ (length kept <= 4 ->
      forall q, In q cleaned -> 11 <= length q ->
        In q (_parse_sub_queries response_text)).
Proof.
  intros cleaned kept.
  assert (E : _parse_sub_queries response_text = firstn 4 kept).
  { unfold _parse_sub_queries, collect_sub_queries.
    now rewrite collect_sub_queries_from. }
  rewrite E. split; [reflexivity|]. split; [apply firstn_le_length|]. split.
  - intros q Hq. apply firstn_In in Hq. apply filter_In in Hq as [Hq L].
    split; [exact Hq|]. apply Nat.ltb_lt in L. lia.
  - intros L q Hq Hlen. rewrite firstn_all2 by exact L.
    apply filter_In. split; [exact Hq|]. apply Nat.ltb_lt. lia.
Qed.

End SubQueries.

(** C7, as stated, fails: a line of exactly 10 characters is discarded. *)
Lemma ten_character_line_is_discarded :
  let response_text := PyStr.cps "abcdefghij" in
  In response_text (Decomposition.response_lines response_text)
  /\ length (@Decomposition.clean_line PyStr.ascii_tables response_text) = 10
  /\ @Decomposition._parse_sub_queries PyStr.ascii_tables response_text = [].
Proof.
  vm_compute. repeat split. now left.
Qed.

(** ** Reranking *)

Section RerankFallback.
Import PyStr Retriever Reranker.
Context `{FloatOps} `{UnicodeData}.

Lemma take_nil {A} (k : Z) : take (@nil A) k = [].
Proof. unfold take. destruct (0 <=? k)%Z; apply firstn_nil. Qed.

Lemma take_positive {A} (l : list A) (k : Z) :
  (0 <= k)%Z -> take l k = firstn (Z.to_nat k) l.
Proof.
  intros K. unfold take.
  destruct (0 <=? k)%Z eqn:E; [reflexivity|]. apply Z.leb_gt in E. lia.
Qed.

Lemma take_length_le {A} (l : list A) (k : Z) :
  (0 <= k)%Z -> (Z.of_nat (length (take l k)) <= k)%Z.
Proof.
  intros K. rewrite take_positive by exact K.
  pose proof (firstn_le_length (Z.to_nat k) l). lia.
Qed.

Lemma enumerate_items {A} (l : list A) (start : nat) :
  map snd (combine (seq start (length l)) l) = l.
Proof.
  revert start; induction l as [|x l IH]; intros start; simpl; [reflexivity|].
  now rewrite IH.
Qed.





End RerankFallback.


(** ** Weighted fusion *)

Section Fusion.
Import PyStr Retriever.
Context `{F : FloatOps} `{B : @BM25 F}.

Lemma value_eqb_eq (a b : value) : value_eqb a b = true <-> a = b.
Proof.
  destruct a, b; simpl; split; try congruence; try reflexivity.
  - intros E. apply Z.eqb_eq in E. congruence.
  - intros E. injection E as ->. apply Z.eqb_refl.
  - intros E. apply str_eqb_eq in E. congruence.
  - intros E. injection E as ->. apply str_eqb_refl.
Qed.

Lemma value_eqb_refl (a : value) : value_eqb a a = true.
Proof. now apply value_eqb_eq. Qed.

Lemma value_eqb_sym (a b : value) : value_eqb a b = value_eqb b a.
Proof.
  destruct (value_eqb a b) eqn:E, (value_eqb b a) eqn:E'; try reflexivity.
  - apply value_eqb_eq in E. subst. now rewrite value_eqb_refl in E'.
  - apply value_eqb_eq in E'. subst. now rewrite value_eqb_refl in E.
Qed.

Lemma map_get_set_same {V} (k : value) (v : V) (m : list (value * V)) :
  map_get k (map_set k v m) = Some v.
Proof.
  induction m as [|[k' v'] m IH]; simpl.
  - now rewrite value_eqb_refl.
  - destruct (value_eqb k' k) eqn:E; simpl; now rewrite E.
Qed.

Lemma map_get_set_other {V} (k k0 : value) (v : V) (m : list (value * V)) :
  value_eqb k0 k = false -> map_get k (map_set k0 v m) = map_get k m.
Proof.
  intros N. induction m as [|[k' v'] m IH]; simpl.
  - now rewrite N.
  - destruct (value_eqb k' k0) eqn:E; simpl.
    + apply value_eqb_eq in E. subst k'. now rewrite N.
    + now rewrite IH.
Qed.

Lemma map_set_keys {V} (k : value) (v : V) (m : list (value * V)) :
  map fst (map_set k v m) =
    if existsb (fun k' => value_eqb k' k) (map fst m) then map fst m
    else map fst m ++ [k].
Proof.
  induction m as [|[k' v'] m IH]; simpl; [reflexivity|].
  destruct (value_eqb k' k); simpl; [reflexivity|].
  rewrite IH. now destruct (existsb _ (map fst m)).
Qed.

Lemma map_set_entries {V} (P : value * V -> Prop) (k : value) (v : V)
    (m : list (value * V)) :
  P (k, v) -> Forall P m -> Forall P (map_set k v m).
Proof.
  intros Pk. induction m as [|[k' v'] m IH]; simpl; intros Fm.
  - now constructor.
  - apply Forall_cons_iff in Fm as [Px Fm'].
    destruct (value_eqb k' k) eqn:E.
    + apply value_eqb_eq in E. subst k'. now constructor.
    + constructor; [exact Px|now apply IH].
Qed.

Lemma keyed_set (k : value) (r : RetrievalResult)
    (m : list (value * RetrievalResult)) :
  chunk_id r = k -> keyed m -> keyed (map_set k r m).
Proof.
  intros Hk [Fm ND]. split.
  - now apply map_set_entries.
  - rewrite map_set_keys.
    destruct (existsb (fun k' => value_eqb k' k) (map fst m)) eqn:E; [exact ND|].
    apply NoDup_app; [exact ND| |].
    + constructor; [intros []|constructor].
    + intros x Hx [<-|[]].
      assert (T : existsb (fun k' => value_eqb k' k) (map fst m) = true).
      { apply existsb_exists. exists k. split; [exact Hx|apply value_eqb_refl]. }
      congruence.
Qed.

Lemma map_get_keyed (k : value) (r : RetrievalResult)
    (m : list (value * RetrievalResult)) :
  keyed m -> map_get k m = Some r -> chunk_id r = k.
Proof.
  intros [Fm _]. induction m as [|[k' v'] m IH]; simpl; [discriminate|].
  apply Forall_cons_iff in Fm as [Px Fm']. simpl in Px.
  destruct (value_eqb k' k) eqn:E.
  - intros G. injection G as <-. apply value_eqb_eq in E. congruence.
  - now apply IH.
Qed.

Lemma map_get_absent {V} (k : value) (m : list (value * V)) :
  ~ In k (map fst m) -> map_get k m = None.
Proof.
  induction m as [|[k' v'] m IH]; simpl; [reflexivity|].
  intros N. destruct (value_eqb k' k) eqn:E.
  - apply value_eqb_eq in E. subst. exfalso. apply N. now left.
  - apply IH. intros Hin. apply N. now right.
Qed.

(** The values of a keyed map that carry an identifier are the entry
    filed under it, if any. *)
Lemma results_with_values (c : value) (m : list (value * RetrievalResult)) :
  keyed m ->
  results_with c (map snd m) =
    match map_get c m with
    | Some r => [r]
    | None => []
    end.
Proof.
  intros [Fm ND]. induction m as [|[k r] m IH]; simpl; [reflexivity|].
  apply Forall_cons_iff in Fm as [Px Fm']. simpl in Px.
  simpl in ND. apply NoDup_cons_iff in ND as [Nk ND'].
  unfold has_chunk_id. rewrite Px.
  destruct (value_eqb k c) eqn:E.
  - apply value_eqb_eq in E. subst c. f_equal.
    apply filter_none. intros r' Hr'.
    apply in_map_iff in Hr' as ([k' r''] & <- & Hin). simpl.
    rewrite Forall_forall in Fm'. specialize (Fm' _ Hin). simpl in Fm'.
    unfold has_chunk_id. rewrite Fm'.
    destruct (value_eqb k' k) eqn:E; [|reflexivity].
    apply value_eqb_eq in E. exfalso. apply Nk.
    apply (in_map fst) in Hin. simpl in Hin. now rewrite <- E.
  - now apply IH.
Qed.

Lemma keyed_dense (w : float) (l : list RetrievalResult) :
  forall m, keyed m -> keyed (fold_left (add_dense w) l m).
Proof.
  induction l as [|x l IH]; intros m K; simpl; [exact K|].
  apply IH. unfold add_dense. now apply keyed_set.
Qed.

Lemma keyed_sparse (w : float) (l : list RetrievalResult) :
  forall m, keyed m -> keyed (fold_left (add_sparse w) l m).
Proof.
  induction l as [|x l IH]; intros m K; simpl; [exact K|].
  apply IH. unfold add_sparse.
  destruct (map_get (chunk_id x) m) as [r|] eqn:G.
  - apply keyed_set; [|exact K]. simpl. now apply (map_get_keyed _ _ m K).
  - now apply keyed_set.
Qed.

(** The dense loop leaves alone the identifiers it does not meet. *)
Lemma dense_absent (w : float) (c : value) (l : list RetrievalResult) :
  forall m, results_with c l = [] ->
  map_get c (fold_left (add_dense w) l m) = map_get c m.
Proof.
  induction l as [|x l IH]; intros m E; simpl; [reflexivity|].
  simpl in E. destruct (has_chunk_id c x) eqn:Hx; [discriminate|].
  rewrite IH by exact E. unfold add_dense. now apply map_get_set_other.
Qed.

Lemma dense_single (w : float) (c : value) (d : RetrievalResult)
    (l : list RetrievalResult) :
  forall m, results_with c l = [d] ->
  map_get c (fold_left (add_dense w) l m) = Some (rescored d (fmul (score d) w)).
Proof.
  induction l as [|x l IH]; intros m E; simpl in *; [discriminate|].
  destruct (has_chunk_id c x) eqn:Hx.
  - injection E as -> E. rewrite dense_absent by exact E.
    unfold add_dense. unfold has_chunk_id in Hx. apply value_eqb_eq in Hx.
    rewrite Hx. apply map_get_set_same.
  - now apply IH.
Qed.

Lemma sparse_absent (w : float) (c : value) (l : list RetrievalResult) :
  forall m, results_with c l = [] ->
  map_get c (fold_left (add_sparse w) l m) = map_get c m.
Proof.
  induction l as [|x l IH]; intros m E; simpl; [reflexivity|].
  simpl in E. destruct (has_chunk_id c x) eqn:Hx; [discriminate|].
  rewrite IH by exact E. unfold add_sparse.
  destruct (map_get (chunk_id x) m); now apply map_get_set_other.
Qed.

Lemma sparse_single (w : float) (c : value) (s : RetrievalResult)
    (l : list RetrievalResult) :
  forall m, results_with c l = [s] ->
  map_get c (fold_left (add_sparse w) l m) =
    match map_get c m with
    | Some r => Some (rescored r (fadd (score r) (fmul (score s) w)))
    | None => Some (rescored s (fmul (score s) w))
    end.
Proof.
  induction l as [|x l IH]; intros m E; simpl in *; [discriminate|].
  destruct (has_chunk_id c x) eqn:Hx.
  - injection E as -> E. rewrite sparse_absent by exact E.
    unfold has_chunk_id in Hx. apply value_eqb_eq in Hx.
    unfold add_sparse. rewrite Hx.
    destruct (map_get c m); apply map_get_set_same.
  - rewrite IH by exact E. unfold add_sparse.
    destruct (map_get (chunk_id x) m); now rewrite map_get_set_other.
Qed.

(** Of several dense results with one identifier the loop keeps the
    last. *)
Lemma dense_keeps_last (w : float) (c : value) (l : list RetrievalResult) :
  forall m,
  map_get c (fold_left (add_dense w) l m) =
    match rev (results_with c l) with
    | d :: _ => Some (rescored d (fmul (score d) w))
    | [] => map_get c m
    end.
Proof.
  induction l as [|x l IH]; intros m; simpl; [reflexivity|].
  rewrite IH. destruct (has_chunk_id c x) eqn:Hx; simpl.
  - destruct (rev (results_with c l)) as [|d t]; simpl; [|reflexivity].
    unfold add_dense. unfold has_chunk_id in Hx. apply value_eqb_eq in Hx.
    rewrite Hx. apply map_get_set_same.
  - destruct (rev (results_with c l)); [|reflexivity].
    unfold add_dense. now apply map_get_set_other.
Qed.

(** Every sparse result with an identifier adds its keyword term to the
    entry filed under it. *)
Lemma sparse_accumulates (w : float) (c : value) (l : list RetrievalResult) :
  forall m,
  map_get c (fold_left (add_sparse w) l m) =
    match map_get c m, results_with c l with
    | Some r, ss => Some (accumulate w r ss)
    | None, s :: ss => Some (accumulate w (rescored s (fmul (score s) w)) ss)
    | None, [] => None
    end.
Proof.
  induction l as [|x l IH]; intros m; simpl.
  - now destruct (map_get c m).
  - rewrite IH. destruct (has_chunk_id c x) eqn:Hx.
    + unfold has_chunk_id in Hx. apply value_eqb_eq in Hx.
      unfold add_sparse. rewrite Hx.
      destruct (map_get c m) as [r|]; now rewrite map_get_set_same.
    + assert (E : map_get c (add_sparse w m x) = map_get c m).
      { unfold add_sparse.
        destruct (map_get (chunk_id x) m); now apply map_get_set_other. }
      now rewrite E.
Qed.

Lemma weighted_fused_with (self : RetrieverAgent)
    (dense sparse : list RetrievalResult) (c : value) :
  Permutation
    (results_with c (fuse_results self dense sparse (cps "weighted")))
    (match map_get c (fold_left (add_sparse (keyword_weight self)) sparse
                        (fold_left (add_dense (dense_weight self)) dense []))
     with
     | Some r => [r]
     | None => []
     end).
Proof.
  unfold fuse_results. rewrite str_eqb_refl.
  unfold sorted_by_score_desc, results_with. rewrite sort_by_filter.
  fold (results_with c (map snd (fold_left (add_sparse (keyword_weight self)) sparse
                                   (fold_left (add_dense (dense_weight self)) dense [])))).
  rewrite results_with_values; [reflexivity|].
  apply keyed_sparse, keyed_dense. split; constructor.
Qed.

(** C5 (as amended): in weighted fusion, a chunk identifier carried by
    exactly one dense and exactly one sparse result comes out once, with
    score dense_score * dense_weight + sparse_score * keyword_weight; an
    identifier carried by exactly one result of one list and by none of the
    other comes out once with that list's weighted term alone; and for
    every pair of lists the fused list is in descending order of the
    combined score.  Scores are Python floats: the statement holds for any
    arithmetic whose comparison is total and transitive. *)
Theorem weighted_fusion_scores_and_order (self : RetrieverAgent)
    (dense sparse : list RetrievalResult) :
  (forall a b, fle a b = true \/ fle b a = true) ->
  (forall a b c, fle a b = true -> fle b c = true -> fle a c = true) ->
  let fused := fuse_results self dense sparse (cps "weighted") in
  (forall c d s,
      results_with c dense = [d] -> results_with c sparse = [s] ->
      results_with c fused =
        [rescored d (fadd (fmul (score d) (dense_weight self))
                          (fmul (score s) (keyword_weight self)))])
  /\ (forall c d,
        results_with c dense = [d] -> results_with c sparse = [] ->
        results_with c fused = [rescored d (fmul (score d) (dense_weight self))])
  /\ (forall c s,
        results_with c dense = [] -> results_with c sparse = [s] ->
        results_with c fused = [rescored s (fmul (score s) (keyword_weight self))])
  /\ StronglySorted score_ge fused.
Proof.
  intros total trans fused. split; [|split; [|split]].
  - intros c d s Hd Hs.
    pose proof (weighted_fused_with self dense sparse c) as P.
    rewrite (sparse_single _ _ _ _ _ Hs), (dense_single _ _ _ _ _ Hd) in P.
    symmetry in P. now apply Permutation_length_1_inv in P.
  - intros c d Hd Hs.
    pose proof (weighted_fused_with self dense sparse c) as P.
    rewrite (sparse_absent _ _ _ _ Hs), (dense_single _ _ _ _ _ Hd) in P.
    symmetry in P. now apply Permutation_length_1_inv in P.
  - intros c s Hd Hs.
    pose proof (weighted_fused_with self dense sparse c) as P.
    rewrite (sparse_single _ _ _ _ _ Hs), (dense_absent _ _ _ _ Hd) in P.
    simpl in P. symmetry in P. now apply Permutation_length_1_inv in P.
  - unfold fused, fuse_results. rewrite str_eqb_refl.
    unfold sorted_by_score_desc, score_ge.
    apply (sort_by_sorted _ (fun x y : RetrievalResult => fle (score y) (score x))).
    + intros a b. apply total.
    + intros a b c Hab Hbc. eapply trans; eauto.
Qed.

End Fusion.

(** What the weighted branch makes of a repeated identifier: the last
    dense score and every sparse score enter the sum. *)
Example weighted_fusion_of_repeated_identifier :
  let mk := fun (c : string) (s : Z) =>
    @Retriever.Build_RetrievalResult Retriever.int_scores
      (PyStr.VStr (PyStr.cps c)) (PyStr.VStr (PyStr.cps "doc"))
      (PyStr.VStr (PyStr.cps "text")) s (PyStr.VStr (PyStr.cps "en"))
      (PyStr.VInt 1) [] in
  let self :=
    @Retriever.Build_RetrieverAgent Retriever.int_scores Retriever.overlap_index
      true (PyStr.cps "weighted") 6%Z 4%Z true None [] in
  Retriever.fuse_results self
    [mk "c0"%string 9%Z; mk "c0"%string 7%Z]
    [mk "c0"%string 5%Z; mk "c1"%string 2%Z; mk "c0"%string 3%Z]
    (PyStr.cps "weighted")
  = [mk "c0"%string (7 * 6 + 5 * 4 + 3 * 4)%Z; mk "c1"%string (2 * 4)%Z].
Proof. vm_compute. reflexivity. Qed.

Lemma weighted_fusion_witness :
  let mk := fun (c : string) (s : Z) =>
    @Retriever.Build_RetrievalResult Retriever.int_scores
      (PyStr.VStr (PyStr.cps c)) (PyStr.VStr (PyStr.cps "doc"))
      (PyStr.VStr (PyStr.cps "text")) s (PyStr.VStr (PyStr.cps "en"))
      (PyStr.VInt 1) [] in
  let self :=
    @Retriever.Build_RetrieverAgent Retriever.int_scores Retriever.overlap_index
      true (PyStr.cps "weighted") 6%Z 4%Z true None [] in
  let dense := [mk "c0"%string 9%Z; mk "c1"%string 7%Z] in
  let sparse := [mk "c1"%string 5%Z; mk "c2"%string 3%Z] in
  Retriever.results_with (PyStr.VStr (PyStr.cps "c1"))
    (Retriever.fuse_results self dense sparse (PyStr.cps "weighted"))
  = [mk "c1"%string (7 * 6 + 5 * 4)%Z].
Proof.
  intros mk self dense sparse.
  refine (proj1 (@weighted_fusion_scores_and_order Retriever.int_scores
                   Retriever.overlap_index self dense sparse _ _)
            (PyStr.VStr (PyStr.cps "c1")) (mk "c1"%string 7%Z) (mk "c1"%string 5%Z)
            eq_refl eq_refl).
  - intros a b. simpl. rewrite !Z.leb_le. lia.
  - intros a b c. simpl. rewrite !Z.leb_le. lia.
Defined.

(** C5, as stated, fails: for a chunk identifier that a list carries more
    than once the fused score is not one dense term plus one sparse term,
    nor a single term.  Here [c0] has one dense result (score 9) and two
    sparse results (scores 5 and 3), and [c1] two sparse results only
    (scores 2 and 1); the weights are 6 and 4. *)
Lemma repeated_identifier_breaks_the_formula :
  let mk := fun (c : string) (s : Z) =>
    @Retriever.Build_RetrievalResult Retriever.int_scores
      (PyStr.VStr (PyStr.cps c)) (PyStr.VStr (PyStr.cps "doc"))
      (PyStr.VStr (PyStr.cps "text")) s (PyStr.VStr (PyStr.cps "en"))
      (PyStr.VInt 1) [] in
  let self :=
    @Retriever.Build_RetrieverAgent Retriever.int_scores Retriever.overlap_index
      true (PyStr.cps "weighted") 6%Z 4%Z true None [] in
  let dense := [mk "c0"%string 9%Z] in
  let sparse := [mk "c0"%string 5%Z; mk "c1"%string 2%Z; mk "c0"%string 3%Z;
                 mk "c1"%string 1%Z] in
  let fused := Retriever.fuse_results self dense sparse (PyStr.cps "weighted") in
  map (@Retriever.score Retriever.int_scores)
    (Retriever.results_with (PyStr.VStr (PyStr.cps "c0")) fused) = [86%Z]
  /\ 86%Z <> (9 * 6 + 5 * 4)%Z
  /\ 86%Z <> (9 * 6 + 3 * 4)%Z
  /\ map (@Retriever.score Retriever.int_scores)
       (Retriever.results_with (PyStr.VStr (PyStr.cps "c1")) fused) = [12%Z]
  /\ 12%Z <> (2 * 4)%Z
  /\ 12%Z <> (1 * 4)%Z.
Proof.
  vm_compute. repeat split; discriminate.
Qed.

(** ** Sparse search *)

Section SparseSearch.
Import PyStr Retriever.
Context `{F : FloatOps} `{B : @BM25 F} `{U : UnicodeData}.

Lemma take_In {A} (x : A) (l : list A) (k : Z) : In x (take l k) -> In x l.
Proof. unfold take. destruct (0 <=? k)%Z; apply firstn_In. Qed.

Lemma ranked_indices_in_range (scores : list float) (i : nat) :
  In i (ranked_indices scores) -> i < length scores.
Proof.
  unfold ranked_indices. rewrite sort_by_In, in_seq. lia.
Qed.

(** Over indices within range, the loop of [sparse_search] keeps, in order,
    the documents that pass the filter. *)
Lemma collect_results_in_range (self : RetrieverAgent) (f : option dict)
    (scores : list float) (idxs : list nat) :
  length scores = length (bm25_documents self) ->
  (forall i, In i idxs -> i < length scores) ->
  forall acc,
  fold_left
    (fun acc idx =>
       match acc with
       | None => None
       | Some results =>
           match nth_error (bm25_documents self) idx, nth_error scores idx with
           | Some doc, Some s =>
               if passes_filter self f doc
               then Some (results ++ [result_of_document doc s])
               else Some results
           | _, _ => None
           end
       end)
    idxs (Some acc)
  = Some (acc ++
          map (fun ds => result_of_document (fst ds) (snd ds))
            (filter (fun ds => passes_filter self f (fst ds))
               (flat_map
                  (fun idx =>
                     match nth_error (bm25_documents self) idx,
                           nth_error scores idx with
                     | Some doc, Some s => [(doc, s)]
                     | _, _ => []
                     end)
                  idxs))).
Proof.
  intros L. induction idxs as [|i idxs IH]; intros R acc; simpl.
  - now rewrite app_nil_r.
  - assert (Hi : i < length scores) by (apply R; now left).
    destruct (nth_error (bm25_documents self) i) as [doc|] eqn:D.
    2:{ apply nth_error_None in D. lia. }
    destruct (nth_error scores i) as [s|] eqn:S.
    2:{ apply nth_error_None in S. lia. }
    simpl. destruct (passes_filter self f doc); simpl.
    + rewrite IH by (intros j Hj; apply R; now right).
      now rewrite <- app_assoc.
    + apply IH. intros j Hj. apply R. now right.
Qed.

(** With an index in place, [sparse_search] returns the documents that
    pass the metadata filter among those ranked in the first [top_k]
    places over the whole index. *)
Lemma sparse_search_post_filters (self : RetrieverAgent)
    (scroll : outcome (list dict)) (query : str) (top_k : Z)
    (f : option dict) (ix : bm25) (scores : list float) :
  bm25_index self = Some ix ->
  bm25_documents self <> [] ->
  get_scores ix (split_ws (lower query)) = Return scores ->
  length scores = length (bm25_documents self) ->
  fst (sparse_search self scroll query top_k f)
  = take (map (fun ds => result_of_document (fst ds) (snd ds))
            (filter (fun ds => passes_filter self f (fst ds))
               (top_ranked self scores top_k)))
      top_k.
Proof.
  intros Ix Docs G L. unfold sparse_search. rewrite Ix. simpl. rewrite Ix.
  destruct (bm25_documents self) as [|doc docs] eqn:D; [congruence|].
  rewrite G. unfold collect_results.
  rewrite collect_results_in_range.
  - simpl. unfold top_ranked. now rewrite D.
  - now rewrite D.
  - intros i Hi. apply take_In in Hi. now apply ranked_indices_in_range.
Qed.

Lemma insert_by_ranks (scores : list float) (x : nat) (l : list nat) :
  (forall a b, fle a b = true \/ fle b a = true) ->
  (forall a b c, fle a b = true -> fle b c = true -> fle a c = true) ->
  x < length scores ->
  (forall y, In y l -> x < y /\ y < length scores) ->
  StronglySorted (ranks_before scores) l ->
  StronglySorted (ranks_before scores)
    (insert_by
       (fun i j =>
          match nth_error scores j, nth_error scores i with
          | Some a, Some b => fle a b
          | _, _ => true
          end)
       x l).
Proof.
  intros total trans Hx Hl S.
  destruct (nth_error scores x) as [sx|] eqn:Ex;
    [|apply nth_error_None in Ex; lia].
  induction S as [|z l S IH Fz]; simpl.
  - repeat constructor.
  - destruct (Hl z (or_introl eq_refl)) as [Lz Rz].
    destruct (nth_error scores z) as [sz|] eqn:Ez;
      [|apply nth_error_None in Ez; lia].
    rewrite Ex.
    assert (Hl' : forall y, In y l -> x < y /\ y < length scores)
      by (intros y Hy; apply Hl; now right).
    destruct (fle sz sx) eqn:C.
    + constructor; [now constructor|].
      constructor.
      * intros si sj Ei Ej. rewrite Ex in Ei. rewrite Ez in Ej.
        injection Ei as <-. injection Ej as <-. split; [exact C|intros _; exact Lz].
      * rewrite Forall_forall in *. intros y Hy si sj Ei Ej.
        rewrite Ex in Ei. injection Ei as <-.
        destruct (Fz y Hy sz sj Ez Ej) as [G _].
        split; [eapply trans; eauto|]. intros _. now apply Hl'.
    + constructor; [now apply IH|].
      rewrite Forall_forall in *. intros y Hy.
      apply insert_by_In in Hy as [->|Hy]; [|now apply Fz].
      intros si sj Ei Ej. rewrite Ez in Ei. rewrite Ex in Ej.
      injection Ei as <-. injection Ej as <-.
      split; [destruct (total sx sz); congruence|]. intros G. congruence.
Qed.

(** The ranking is the order of [sorted] with [reverse=True]: descending
    scores, equal scores in the order of the index. *)
Lemma ranked_indices_stable (scores : list float) :
  (forall a b, fle a b = true \/ fle b a = true) ->
  (forall a b c, fle a b = true -> fle b c = true -> fle a c = true) ->
  StronglySorted (ranks_before scores) (ranked_indices scores).
Proof.
  intros total trans. unfold ranked_indices, sort_by.
  assert (G : forall m s, s + m = length scores ->
             StronglySorted (ranks_before scores)
               (fold_right
                  (insert_by
                     (fun i j =>
                        match nth_error scores j, nth_error scores i with
                        | Some a, Some b => fle a b
                        | _, _ => true
                        end))
                  [] (seq s m))
             /\ forall y,
                  In y (fold_right
                          (insert_by
                             (fun i j =>
                                match nth_error scores j, nth_error scores i with
                                | Some a, Some b => fle a b
                                | _, _ => true
                                end))
                          [] (seq s m)) ->
                  s <= y /\ y < length scores).
  { induction m as [|m IH]; intros s E; simpl.
    - split; [constructor|intros y []].
    - destruct (IH (S s)) as [S1 B1]; [lia|]. split.
      + apply insert_by_ranks; [exact total|exact trans|lia| |exact S1].
        intros y Hy. specialize (B1 y Hy). lia.
      + intros y Hy. apply insert_by_In in Hy as [->|Hy]; [lia|].
        specialize (B1 y Hy). lia. }
  apply (G (length scores) 0). reflexivity.
Qed.

Lemma results_at_length (self : RetrieverAgent) (scores : list float)
    (keep : Document -> bool) (places : list nat) :
  length (results_at self scores keep places) <= length places.
Proof.
  unfold results_at. induction places as [|i places IH]; simpl; [lia|].
  rewrite length_app.
  destruct (nth_error (bm25_documents self) i); [destruct (nth_error scores i)|];
    try (simpl; lia).
  destruct (keep d); simpl; lia.
Qed.

Lemma results_at_top_ranked (self : RetrieverAgent) (f : option dict)
    (scores : list float) (keep : Document -> bool) (places : list nat) :
  (forall doc, passes_filter self f doc = keep doc) ->
  map (fun ds => result_of_document (fst ds) (snd ds))
    (filter (fun ds => passes_filter self f (fst ds))
       (flat_map
          (fun idx =>
             match nth_error (bm25_documents self) idx, nth_error scores idx with
             | Some doc, Some s => [(doc, s)]
             | _, _ => []
             end)
          places))
  = results_at self scores keep places.
Proof.
  intros K. unfold results_at.
  induction places as [|i places IH]; simpl; [reflexivity|].
  rewrite filter_app, map_app, IH. f_equal.
  destruct (nth_error (bm25_documents self) i); [destruct (nth_error scores i)|];
    try reflexivity.
  simpl. rewrite K. now destruct (keep d).
Qed.

(** With an index in place, what [sparse_search] returns for a filter that
    the documents satisfying [keep] pass: the results kept among the first
    [top_k] places of the ranking. *)
Lemma sparse_search_ranks_then_keeps (self : RetrieverAgent)
    (scroll : outcome (list dict)) (query : str) (top_k : Z)
    (f : option dict) (keep : Document -> bool) (ix : bm25) (scores : list float) :
  bm25_index self = Some ix ->
  bm25_documents self <> [] ->
  get_scores ix (split_ws (lower query)) = Return scores ->
  length scores = length (bm25_documents self) ->
  (0 <= top_k)%Z ->
  (forall doc, passes_filter self f doc = keep doc) ->
  fst (sparse_search self scroll query top_k f)
  = results_at self scores keep (firstn (Z.to_nat top_k) (ranked_indices scores)).
Proof.
  intros Ix Docs G L K Keep.
  rewrite (sparse_search_post_filters self scroll query top_k f ix scores Ix Docs G L).
  unfold top_ranked. rewrite (results_at_top_ranked self f scores keep _ Keep).
  rewrite (take_positive (ranked_indices scores) top_k K).
  rewrite take_positive by exact K. apply firstn_all2.
  etransitivity; [apply results_at_length|]. apply firstn_le_length.
Qed.

(** C10: [sparse_search] ranks the whole index by score, takes the first
    [top_k] places of that ranking and only then drops the documents that
    fail the metadata filter.  With an index in place and a language
    filter, the results are those of the documents of that language among
    the first [top_k] places of the ranking, and without a filter those of
    all documents at these places, where the ranking lists every place of
    the index once, by descending score and, for equal scores, by
    ascending index.  So for some collection, query, [top_k] and filter the
    search returns fewer than [top_k] results (here none, where the search
    without filter returns one) although [top_k] documents of the index
    built satisfy the filter.  The keyword index is the library's: it is
    assumed to index any corpus with a non-empty document and to score
    every document of the corpus it indexed; [str.lower] is assumed to
    leave lower-case ASCII words alone, and the comparison of scores to be
    total and transitive. *)
Theorem sparse_search_filters_after_ranking :
  (forall corpus, (exists d, In d corpus /\ d <> []) ->
     exists ix, BM25Okapi corpus = Return ix) ->
  (forall corpus ix q, BM25Okapi corpus = Return ix ->
     exists scores, get_scores ix q = Return scores
                    /\ length scores = length corpus) ->
  (forall s, is_lower_ascii s = true -> lower s = s) ->
  (forall a b, fle a b = true \/ fle b a = true) ->
  (forall a b c, fle a b = true -> fle b c = true -> fle a c = true) ->
  (forall self scroll query top_k lang ix scores,
      bm25_index self = Some ix ->
      bm25_documents self <> [] ->
      enable_metadata_filter self = true ->
      get_scores ix (split_ws (lower query)) = Return scores ->
      length scores = length (bm25_documents self) ->
      (0 <= top_k)%Z ->
      exists ranking,
        Permutation ranking (seq 0 (length (bm25_documents self)))
        /\ StronglySorted (ranks_before scores) ranking
        /\ fst (sparse_search self scroll query top_k
                  (Some [(cps "language", lang)]))
           = results_at self scores (fun doc => value_eqb (d_language doc) lang)
               (firstn (Z.to_nat top_k) ranking)
        /\ fst (sparse_search self scroll query top_k None)
           = results_at self scores (fun _ => true)
               (firstn (Z.to_nat top_k) ranking))
  /\ (exists self scroll query top_k lang,
        let out :=
          sparse_search self scroll query top_k (Some [(cps "language", lang)]) in
        bm25_index (snd out) <> None
        /\ (0 < top_k)%Z
        /\ fst out = []
        /\ (top_k <= Z.of_nat
                       (length (filter (fun doc => value_eqb (d_language doc) lang)
                                  (bm25_documents (snd out)))))%Z
        /\ length (fst (sparse_search self scroll query top_k None)) = 1).
Proof.
  intros Hbuild Hscore Hlower total trans. split.
  { intros self scroll query top_k lang ix scores Ix Docs En G L K.
    exists (ranked_indices scores). split; [|split; [|split]].
    - unfold ranked_indices. rewrite <- L. apply sort_by_perm.
    - now apply ranked_indices_stable.
    - apply sparse_search_ranks_then_keeps with (ix := ix); auto.
      intros doc. unfold passes_filter. rewrite En. simpl.
      apply andb_true_r.
    - apply sparse_search_ranks_then_keeps with (ix := ix); auto. }
  pose (corpus := [[cps "budget"]; [cps "travel"]]).
  destruct (Hbuild corpus) as [ix Hix].
  { exists [cps "budget"]. split; [now left|discriminate]. }
  destruct (Hscore corpus ix [cps "budget"] Hix) as (scores & Hs & Hl).
  destruct scores as [|s0 [|s1 [|? ?]]]; try discriminate Hl. clear Hl.
  pose (self0 := {| enable_bm25 := true; fusion_method := cps "weighted";
                    dense_weight := fdiv_one 1; keyword_weight := fdiv_one 1;
                    enable_metadata_filter := true; bm25_index := None;
                    bm25_documents := [] |}).
  pose (docs := map document_of_payload two_language_collection).
  assert (Build : _build_bm25_index self0 (Return two_language_collection)
                  = set_index self0 (Some ix) docs).
  { unfold _build_bm25_index. fold docs.
    assert (T : tokenize_corpus docs = Some corpus).
    { cbn. rewrite !Hlower by reflexivity. reflexivity. }
    rewrite T. now rewrite Hix. }
  assert (Run : forall f,
             sparse_search self0 (Return two_language_collection) (cps "budget") 1 f
             = (match collect_results (set_index self0 (Some ix) docs) f [s0; s1]
                        (take (ranked_indices [s0; s1]) 1) with
                | Some results => take results 1
                | None => []
                end,
                set_index self0 (Some ix) docs)).
  { intros f. unfold sparse_search. cbn [bm25_index self0]. rewrite Build.
    cbn [bm25_index bm25_documents set_index map two_language_collection docs].
    rewrite Hlower by reflexivity.
    replace (split_ws (cps "budget")) with [cps "budget"] by reflexivity.
    rewrite Hs. destruct (collect_results _ _ _ _); reflexivity. }
  assert (Rank : ranked_indices [s0; s1] = if fle s1 s0 then [0; 1] else [1; 0])
    by reflexivity.
  destruct (fle s1 s0) eqn:C.
  - exists self0, (Return two_language_collection), (cps "budget"), 1%Z,
      (VStr (cps "zh")).
    cbv zeta. rewrite !Run, Rank. vm_compute. repeat split; discriminate.
  - exists self0, (Return two_language_collection), (cps "budget"), 1%Z,
      (VStr (cps "en")).
    cbv zeta. rewrite !Run, Rank. vm_compute. repeat split; discriminate.
Qed.

End SparseSearch.

Lemma overlap_index_builds (corpus : list (list PyStr.str)) :
  (exists d, In d corpus /\ d <> []) ->
  exists ix, @Retriever.BM25Okapi _ Retriever.overlap_index corpus = PyStr.Return ix.
Proof.
  intros (d & Hd & _). destruct corpus as [|c corpus]; [contradiction|].
  now exists (c :: corpus).
Qed.

Lemma overlap_index_scores (corpus : list (list PyStr.str))
    (ix : @Retriever.bm25 _ Retriever.overlap_index) (q : list PyStr.str) :
  @Retriever.BM25Okapi _ Retriever.overlap_index corpus = PyStr.Return ix ->
  exists scores, @Retriever.get_scores _ Retriever.overlap_index ix q = PyStr.Return scores
                 /\ length scores = length corpus.
Proof.
  destruct corpus as [|c corpus]; simpl; [discriminate|].
  intros E. injection E as <-. eexists. split; [reflexivity|].
  simpl. now rewrite length_map.
Qed.

Lemma ascii_lower_fixes_lower_case (s : PyStr.str) :
  Retriever.is_lower_ascii s = true -> @PyStr.lower PyStr.ascii_tables s = s.
Proof.
  simpl. induction s as [|c s IH]; simpl; [reflexivity|].
  intros E. apply andb_prop in E as [Hc Hs]. rewrite (IH Hs). f_equal.
  unfold PyStr.ascii_lower_char.
  apply andb_prop in Hc as [H1 H2]. apply N.leb_le in H1.
  destruct ((65 <=? c)%N && (c <=? 90)%N) eqn:E; [|reflexivity].
  apply andb_prop in E as [_ E]. apply N.leb_le in E. lia.
Qed.

Lemma sparse_search_filters_witness :
  exists self scroll query top_k lang,
    let out :=
      @Retriever.sparse_search Retriever.int_scores Retriever.overlap_index
        PyStr.ascii_tables self scroll query top_k
        (Some [(PyStr.cps "language", lang)]) in
    Retriever.bm25_index (snd out) <> None
    /\ (0 < top_k)%Z
    /\ fst out = []
    /\ (top_k <= Z.of_nat
                   (length (filter (fun doc =>
                                      PyStr.value_eqb (Retriever.d_language doc) lang)
                              (Retriever.bm25_documents (snd out)))))%Z
    /\ length (fst (@Retriever.sparse_search Retriever.int_scores
                      Retriever.overlap_index PyStr.ascii_tables self scroll query
                      top_k None)) = 1.
Proof.
  refine (proj2 (@sparse_search_filters_after_ranking Retriever.int_scores
                   Retriever.overlap_index PyStr.ascii_tables
                   overlap_index_builds overlap_index_scores
                   ascii_lower_fixes_lower_case _ _)).
  - intros a b. simpl. rewrite !Z.leb_le. lia.
  - intros a b c. simpl. rewrite !Z.leb_le. lia.
Defined.

(** ** Chunking *)

Section Chunks.
Import PyStr Chunking.
Context `{T : Tokenizer}.

Lemma nonempty_app_r (a b : str) : nonempty b = true -> nonempty (a ++ b) = true.
Proof. destruct a; [trivial|reflexivity]. Qed.

(** A text within the bound is returned as it is. *)
Lemma small_text_is_one_chunk (self : ChunkingAgent) (t language : str)
    (max_tokens overlap_tokens : option Z) :
  (count_tokens t <= int_or max_tokens (chunk_size self))%Z ->
  chunk_text_recursive self t language max_tokens overlap_tokens = Some [t].
Proof.
  intros L. unfold chunk_text_recursive.
  apply Z.leb_le in L. now rewrite L.
Qed.

(** The first unit of the packing loop opens a chunk, whatever its size. *)
Lemma pack_step_first (sep unit : str) (max_tokens overlap_tokens : Z) :
  strip unit = unit -> nonempty unit = true ->
  (max_tokens < count_tokens unit)%Z ->
  pack_step sep max_tokens overlap_tokens ([], []) unit = ([], unit).
Proof.
  intros S N L. unfold pack_step. rewrite S, N. simpl.
  apply Z.leb_gt in L. now rewrite L.
Qed.

(** A unit that does not fit closes the current chunk as it stands. *)
Lemma pack_step_overflow (sep cur unit : str) (max_tokens overlap_tokens : Z) :
  strip unit = unit -> nonempty unit = true -> nonempty cur = true ->
  (max_tokens < count_tokens (cur ++ sep ++ unit))%Z ->
  exists next,
    pack_step sep max_tokens overlap_tokens ([], cur) unit = ([cur], next)
    /\ nonempty next = true.
Proof.
  intros S N C L. unfold pack_step. rewrite S, N, C. simpl.
  apply Z.leb_gt in L. rewrite L.
  destruct (0 <? overlap_tokens)%Z.
  - eexists. split; [reflexivity|].
    apply nonempty_app_r, nonempty_app_r. exact N.
  - now exists unit.
Qed.

(** C3 fails on the code: the paragraph loop never splits a paragraph.
    For any tokenizer that counts more than [max_tokens] tokens in the
    first paragraph of the two-paragraph text (and in the text),
    [chunk_text_recursive] returns that paragraph whole, a chunk over the
    bound. *)
Theorem oversized_paragraph_is_one_chunk (self : ChunkingAgent)
    (max_tokens : Z) (overlap_tokens : option Z) :
  max_tokens <> 0%Z ->
  (max_tokens < count_tokens first_paragraph)%Z ->
  (max_tokens < count_tokens two_paragraphs)%Z ->
  exists chunks,
    chunk_text_recursive self two_paragraphs (cps "en") (Some max_tokens)
      overlap_tokens = Some chunks
    /\ In first_paragraph chunks
    /\ exists chunk, In chunk chunks /\ (max_tokens < count_tokens chunk)%Z.
Proof.
  intros M0 H1 H2. unfold chunk_text_recursive.
  assert (E0 : int_or (Some max_tokens) (chunk_size self) = max_tokens).
  { simpl. destruct (max_tokens =? 0)%Z eqn:E; [|reflexivity].
    apply Z.eqb_eq in E. contradiction. }
  rewrite E0.
  assert (E1 : (count_tokens two_paragraphs <=? max_tokens)%Z = false)
    by (apply Z.leb_gt; lia).
  rewrite E1.
  assert (E2 : split_blank_lines two_paragraphs = [first_paragraph; cps "delta"])
    by reflexivity.
  rewrite E2.
  set (ov := int_or overlap_tokens (chunk_overlap self)).
  assert (P : exists next,
             pack [NL; NL] max_tokens ov [first_paragraph; cps "delta"]
             = [first_paragraph; next]).
  { unfold pack. cbn [fold_left].
    rewrite pack_step_first by (reflexivity || exact H1).
    destruct (pack_step_overflow [NL; NL] first_paragraph (cps "delta")
                max_tokens ov) as (next & E & N); try reflexivity.
    { exact H2. }
    rewrite E, N. now exists next. }
  destruct P as (next & P).
  exists [first_paragraph; next].
  split; [|split].
  - match goal with
    | |- context [if ?c then [first_paragraph; cps "delta"] else _] => destruct c
    end; cbn [length Nat.ltb Nat.leb]; now rewrite P.
  - now left.
  - exists first_paragraph. split; [now left|exact H1].
Qed.

End Chunks.

Lemma oversized_paragraph_witness :
  exists chunks,
    @Chunking.chunk_text_recursive Chunking.word_tokenizer
      {| Chunking.chunk_size := 500; Chunking.chunk_overlap := 65 |}
      Chunking.two_paragraphs (PyStr.cps "en") (Some 2%Z) (Some 1%Z)
    = Some chunks
    /\ In Chunking.first_paragraph chunks
    /\ exists chunk, In chunk chunks
         /\ (2 < @Chunking.count_tokens Chunking.word_tokenizer chunk)%Z.
Proof.
  apply (@oversized_paragraph_is_one_chunk Chunking.word_tokenizer).
  - discriminate.
  - reflexivity.
  - reflexivity.
Defined.

(** The run of [chunk_document] on that text with a bound of 2 tokens: the
    first chunk records a token count of 3. *)
Example chunk_document_records_oversized_chunk :
  option_map
    (map (fun c => (Chunking.c_chunk_id c,
                    PyStr.dict_get (PyStr.cps "token_count") (Chunking.c_metadata c))))
    (@Chunking.chunk_document Chunking.word_tokenizer PyStr.ascii_tables
       {| Chunking.chunk_size := 2; Chunking.chunk_overlap := 1 |}
       Chunking.two_paragraphs (PyStr.cps "en_report") (PyStr.cps "en") None)
  = Some [(PyStr.cps "en_report_chunk_0000", Some (PyStr.VInt 3));
          (PyStr.cps "en_report_chunk_0001", Some (PyStr.VInt 2))].
Proof. vm_compute. reflexivity. Qed.

(** ** Chat turns *)

Section ChatTurns.
Import PyStr Retriever RAG.
Context `{F : FloatOps} `{U : UnicodeData}.

Lemma skipn_length_app {A} (l l' : list A) : skipn (length l) (l ++ l') = l'.
Proof. induction l; simpl; auto. Qed.

Lemma create_session_messages (now : Z) (sid : str) (meta : option str)
    (d : Storage.DB) :
  Storage.chat_messages (Storage.create_session now sid meta d)
  = Storage.chat_messages d.
Proof. unfold Storage.create_session. now destruct (existsb _ _). Qed.

(** The streaming loop yields the chunks and touches nothing else. *)
Lemma yield_chunks_run (chunks : list str) :
  forall w, yield_chunks chunks w
  = (Return tt, {| db := db w; statements := statements w;
                   log := log w ++ map (fun c => Yielded (Response c)) chunks |}).
Proof.
  induction chunks as [|c chunks IH]; intros [d n l]; simpl.
  - unfold ret. now rewrite app_nil_r.
  - unfold bind, yield, emit. simpl. rewrite IH. simpl. now rewrite <- app_assoc.
Qed.

Lemma no_gemini_in_chunks (chunks : list str) :
  existsb is_gemini_call (map (fun c => Yielded (Response c)) chunks) = false.
Proof. induction chunks; simpl; auto. Qed.

(** Unfolds a turn down to the store and the log it leaves. *)
Ltac run_turn :=
  unfold new_messages, new_events, chat, chat_body, generate_with_ollama_stream,
    try_except, bind, of_outcome;
  cbn -[build_prompt user assistant no_context_reply ollama_empty_reply skipn
        Storage.get_session_messages concat yield_chunks].

Ltac settle_turn :=
  cbn -[build_prompt user assistant no_context_reply ollama_empty_reply skipn
        Storage.get_session_messages concat yield_chunks];
  rewrite ?create_session_messages, <- ?app_assoc, ?skipn_length_app.

(** C8: when retrieval gives an empty context, the turn ends normally;
    it yields the no-relevant-information message as its response, makes
    no call to a generator, and adds to the session the user's question
    followed by that message as the assistant's. *)
Theorem empty_context_turn_skips_generation (env : Env) (query : str)
    (session_id : option str) (stream : bool) (w : world) :
  retrieve_context env query = Return [] ->
  let sid := session_of env session_id in
  let turn := chat env query session_id stream in
  fst (turn w) = Return tt
  /\ new_events turn w
     = [Yielded (Status (cps "Retrieving relevant documents..."));
        Retrieved query;
        Yielded (Status (cps "No relevant documents found"));
        Yielded (Response no_context_reply)]
  /\ existsb is_generator_call (new_events turn w) = false
  /\ map said (new_messages turn w)
     = [(sid, user, query); (sid, assistant, no_context_reply)].
Proof.
  intros R sid turn. unfold turn, sid. clear turn sid.
  assert (E : new_events (chat env query session_id stream) w
              = [Yielded (Status (cps "Retrieving relevant documents..."));
                 Retrieved query;
                 Yielded (Status (cps "No relevant documents found"));
                 Yielded (Response no_context_reply)]).
  { run_turn. rewrite R.
    destruct session_id as [[|c sid0]|]; settle_turn; reflexivity. }
  rewrite E. split; [|split; [reflexivity|split; [reflexivity|]]].
  - run_turn. rewrite R. destruct session_id as [[|c sid0]|]; reflexivity.
  - run_turn. rewrite R.
    destruct session_id as [[|c sid0]|]; settle_turn; reflexivity.
Qed.

(** C9: a turn with [stream=False] whose context is not empty and whose
    generation is not empty stores the assistant's message twice, the two
    rows carrying the same session, role and content; a turn with
    [stream=True] stores exactly one assistant message, whatever
    happens. *)
Theorem non_streaming_turn_stores_reply_twice (env : Env) (query : str)
    (session_id : option str) (w : world) (c : RetrievalResult)
    (cs : list RetrievalResult) :
  retrieve_context env query = Return (c :: cs) ->
  (forall prompt, concat (ollama_stream env prompt) <> []) ->
  let sid := session_of env session_id in
  (exists response,
      response <> []
      /\ map said (new_messages (chat env query session_id false) w)
         = [(sid, user, query); (sid, assistant, response);
            (sid, assistant, response)])
  /\ (exists response,
        map said (new_messages (chat env query session_id true) w)
        = [(sid, user, query); (sid, assistant, response)]).
Proof.
  intros R G sid. unfold sid. clear sid. split.
  - run_turn. rewrite R.
    destruct session_id as [[|c0 sid0]|]; settle_turn;
      match goal with |- context [ollama_stream env ?p] => set (prompt := p) end;
      specialize (G prompt);
      destruct (concat (ollama_stream env prompt)) as [|x resp] eqn:E;
      try contradiction; settle_turn;
      exists (x :: resp); (split; [discriminate|]); settle_turn; reflexivity.
  - run_turn. rewrite R.
    destruct session_id as [[|c0 sid0]|]; settle_turn;
      match goal with |- context [ollama_stream env ?p] => set (prompt := p) end;
      rewrite yield_chunks_run;
      destruct (ollama_stream env prompt) as [|x chunks] eqn:E; settle_turn;
      eexists; reflexivity.
Qed.

(** Whatever retrieval and generation do, a streaming turn stores one
    assistant message. *)
Lemma streaming_turn_stores_one_reply (env : Env) (query : str)
    (session_id : option str) (w : world) :
  exists response,
    map said (new_messages (chat env query session_id true) w)
    = [(session_of env session_id, user, query);
       (session_of env session_id, assistant, response)].
Proof.
  run_turn.
  destruct (retrieve_context env query) as [[|c cs]|e];
    destruct session_id as [[|c0 sid0]|]; settle_turn;
    try (eexists; reflexivity);
    match goal with |- context [ollama_stream env ?p] => set (prompt := p) end;
    rewrite yield_chunks_run;
    destruct (ollama_stream env prompt) as [|x chunks] eqn:E; settle_turn;
    eexists; reflexivity.
Qed.

(** The turn never reaches [generate_with_gemini]. *)
Lemma chat_never_calls_gemini (env : Env) (query : str)
    (session_id : option str) (stream : bool) (w : world) :
  existsb is_gemini_call (new_events (chat env query session_id stream) w) = false.
Proof.
  destruct stream.
  - run_turn.
    destruct (retrieve_context env query) as [[|c cs]|e];
      destruct session_id as [[|c0 sid0]|]; settle_turn;
      try reflexivity;
      match goal with |- context [ollama_stream env ?p] => set (prompt := p) end;
      rewrite yield_chunks_run;
      destruct (ollama_stream env prompt) as [|x chunks] eqn:E;
      settle_turn; rewrite ?existsb_app; cbn [existsb is_gemini_call orb map];
      rewrite ?no_gemini_in_chunks; reflexivity.
  - run_turn.
    destruct (retrieve_context env query) as [[|c cs]|e];
      destruct session_id as [[|c0 sid0]|]; settle_turn;
      try reflexivity;
      match goal with |- context [ollama_stream env ?p] => set (prompt := p) end;
      destruct (concat (ollama_stream env prompt)) as [|x resp] eqn:E;
      settle_turn; reflexivity.
Qed.

(** C1 fails on the code: when the local service streams nothing, the
    turn yields and stores the message that the primary model returned an
    empty response; [generate_with_gemini] is not called. *)
Theorem empty_stream_is_not_retried_on_gemini (env : Env) (query : str)
    (session_id : option str) (stream : bool) (w : world)
    (c : RetrievalResult) (cs : list RetrievalResult) :
  retrieve_context env query = Return (c :: cs) ->
  (forall prompt, ollama_stream env prompt = []) ->
  let sid := session_of env session_id in
  let turn := chat env query session_id stream in
  existsb is_gemini_call (new_events turn w) = false
  /\ map said (new_messages turn w)
     = [(sid, user, query); (sid, assistant, ollama_empty_reply)].
Proof.
  intros R G sid turn. unfold turn, sid. clear turn sid.
  split; [apply chat_never_calls_gemini|].
  destruct stream.
  - run_turn. rewrite R.
    destruct session_id as [[|c0 sid0]|]; settle_turn;
      rewrite !G, yield_chunks_run; settle_turn; reflexivity.
  - run_turn. rewrite R.
    destruct session_id as [[|c0 sid0]|]; settle_turn;
      rewrite !G; cbn [concat]; settle_turn; reflexivity.
Qed.

End ChatTurns.

Lemma empty_context_turn_witness :
  let env := RAG.env_with (PyStr.Return []) [PyStr.cps "unused"] in
  let query := PyStr.cps "maximum budget allowed" in
  map RAG.said
    (RAG.new_messages (@RAG.chat _ PyStr.ascii_tables env query None true)
       RAG.fresh_world)
  = [(RAG.uuid4 env, RAG.user, query);
     (RAG.uuid4 env, RAG.assistant, RAG.no_context_reply)].
Proof.
  intros env query.
  exact (proj2 (proj2 (proj2
           (@empty_context_turn_skips_generation _ PyStr.ascii_tables env query
              None true RAG.fresh_world eq_refl)))).
Defined.

Lemma non_streaming_turn_witness :
  let env := RAG.env_with (PyStr.Return [RAG.sample_result])
               [PyStr.cps "The limit "; PyStr.cps "is 50,00,000."] in
  let query := PyStr.cps "maximum budget allowed" in
  exists response,
    response <> []
    /\ map RAG.said
         (RAG.new_messages (@RAG.chat _ PyStr.ascii_tables env query None false)
            RAG.fresh_world)
       = [(RAG.uuid4 env, RAG.user, query);
          (RAG.uuid4 env, RAG.assistant, response);
          (RAG.uuid4 env, RAG.assistant, response)].
Proof.
  intros env query.
  refine (proj1 (@non_streaming_turn_stores_reply_twice _ PyStr.ascii_tables env
                   query None RAG.fresh_world RAG.sample_result [] eq_refl _)).
  intros prompt. discriminate.
Defined.

Lemma empty_stream_witness :
  let env := RAG.env_with (PyStr.Return [RAG.sample_result]) [] in
  let query := PyStr.cps "maximum budget allowed" in
  existsb RAG.is_gemini_call
    (RAG.new_events (@RAG.chat _ PyStr.ascii_tables env query None true)
       RAG.fresh_world) = false
  /\ map RAG.said
       (RAG.new_messages (@RAG.chat _ PyStr.ascii_tables env query None true)
          RAG.fresh_world)
     = [(RAG.uuid4 env, RAG.user, query);
        (RAG.uuid4 env, RAG.assistant, RAG.ollama_empty_reply)].
Proof.
  intros env query.
  exact (@empty_stream_is_not_retried_on_gemini _ PyStr.ascii_tables env query
           None true RAG.fresh_world RAG.sample_result [] eq_refl
           (fun _ => eq_refl)).
Defined.

(** The rows a non-streaming turn leaves in an empty store. *)
Example non_streaming_turn_rows :
  map (fun m => (Storage.msg_id m, Storage.role m, Storage.content m))
    (Storage.chat_messages
       (RAG.db (snd (@RAG.chat _ PyStr.ascii_tables
                       (RAG.env_with (PyStr.Return [RAG.sample_result])
                          [PyStr.cps "The limit "; PyStr.cps "is 50,00,000."])
                       (PyStr.cps "maximum budget allowed") None false
                       RAG.fresh_world))))
  = [(1%Z, RAG.user, PyStr.cps "maximum budget allowed");
     (2%Z, RAG.assistant, PyStr.cps "The limit is 50,00,000.");
     (3%Z, RAG.assistant, PyStr.cps "The limit is 50,00,000.")].
Proof. vm_compute. reflexivity. Qed.

(* ================================================================== *)
(** * Part III: further properties of the store and the agents *)
(* ================================================================== *)

(** ** Rows and sessions of the store *)

Section StoreRows.
Import PyStr Storage Ingestion.

Lemma map_fixed {A} (f : A -> A) (l : list A) :
  (forall x, In x l -> f x = x) -> map f l = l.
Proof.
  induction l as [|x l IH]; simpl; intros Fx; [reflexivity|].
  rewrite (Fx x) by now left. f_equal. apply IH. intros y Hy. apply Fx. now right.
Qed.

Lemma set_jobs_same (db : DB) : set_jobs db (jobs db) (jobs_seq db) = db.
Proof. now destruct db. Qed.

Lemma find_none_existsb {A} (p : A -> bool) (l : list A) :
  find p l = None <-> existsb p l = false.
Proof.
  induction l as [|x l IH]; simpl; [tauto|].
  destruct (p x); simpl; [split; discriminate|exact IH].
Qed.

(** X1.  [create_session] is an insert-or-ignore: a second call for the
    same session identifier, at any time and with any metadata, adds no
    row and changes none; the session is on record after the first call,
    and the jobs and the messages are not touched.  The ignored insert is
    not without trace: every call, ignored or not, uses up a rowid, so the
    store after the second call is the store after the first with the
    sequence of the session table advanced by one, and a session created
    next gets a rowid two above that of the first. *)
Theorem create_session_twice_is_once (now1 now2 now3 : Z) (sid sid' : str)
    (meta1 meta2 meta3 : option str) (db : DB) :
  let db1 := create_session now1 sid meta1 db in
  let db2 := create_session now2 sid meta2 db1 in
  db2 = set_sessions db1 (chat_sessions db1) (chat_sessions_seq db1 + 1)%Z
  /\ chat_sessions db2 = chat_sessions db1
  /\ chat_sessions_seq db1 = (chat_sessions_seq db + 1)%Z
  /\ existsb (fun s => str_eqb (cs_session_id s) sid) (chat_sessions db1) = true
  /\ jobs db2 = jobs db /\ chat_messages db2 = chat_messages db
  /\ (existsb (fun s => str_eqb (cs_session_id s) sid') (chat_sessions db1) = false ->
      chat_sessions (create_session now3 sid' meta3 db2)
      = chat_sessions db1 ++
        [{| cs_id := (chat_sessions_seq db1 + 2)%Z; cs_session_id := sid';
            cs_created_at := now3; cs_metadata := dumps_or_empty meta3 |}]).
Proof.
  intros db1 db2.
  assert (E : existsb (fun s => str_eqb (cs_session_id s) sid) (chat_sessions db1) = true).
  { unfold db1, create_session.
    destruct (existsb _ (chat_sessions db)) eqn:Ex; [exact Ex|].
    simpl. rewrite existsb_app. simpl. rewrite str_eqb_refl. now rewrite orb_true_r. }
  assert (E2 : db2 = set_sessions db1 (chat_sessions db1) (chat_sessions_seq db1 + 1)%Z).
  { unfold db2. unfold create_session at 1. now rewrite E. }
  split; [exact E2|]. split; [now rewrite E2|].
  split; [unfold db1, create_session; now destruct (existsb _ (chat_sessions db))|].
  split; [exact E|].
  split; [rewrite E2; unfold db1, create_session;
          now destruct (existsb _ (chat_sessions db))|].
  split; [rewrite E2; unfold db1, create_session;
          now destruct (existsb _ (chat_sessions db))|].
  intros Fresh. rewrite E2. unfold create_session at 1. cbn [chat_sessions set_sessions
    chat_sessions_seq]. rewrite Fresh. cbn [chat_sessions set_sessions].
  do 3 f_equal. lia.
Qed.

Lemma create_session_witness :
  map cs_id
    (chat_sessions
       (create_session 3 (cps "s2") None
          (create_session 2 (cps "s1") None
             (create_session 1 (cps "s1") None empty_db))))
  = [1%Z; 3%Z].
Proof.
  rewrite (proj2 (proj2 (proj2 (proj2 (proj2 (proj2
             (create_session_twice_is_once 1 2 3 (cps "s1") (cps "s2")
                None None None empty_db))))))
             eq_refl).
  reflexivity.
Defined.

(** X2.  A job added under a [doc_id] the table does not have yet is
    found again by [get_job]: it is pending, has no error message and
    carries the path, language and time given; the call returns the next
    rowid; looking up any other [doc_id] gives what it gave before. *)
Theorem add_job_then_get_job (now : Z) (d fp lang : str) (meta : option str)
    (db : DB) :
  get_job d db = None ->
  let db1 := snd (add_job now d fp lang meta db) in
  fst (add_job now d fp lang meta db) = Return (jobs_seq db + 1)%Z
  /\ get_job d db1
     = Some {| id := (jobs_seq db + 1)%Z; doc_id := d; file_path := fp;
               language := lang; status := PENDING; created_at := now;
               updated_at := now; error_message := None;
               metadata := dumps_or_empty meta |}
  /\ (forall d', d' <> d -> get_job d' db1 = get_job d' db).
Proof.
  intros G db1. unfold get_job in G. pose proof G as Ex.
  apply find_none_existsb in Ex.
  unfold db1, add_job. rewrite Ex. simpl. split; [reflexivity|]. split.
  - unfold get_job. simpl. rewrite find_app_split, G. simpl.
    unfold has_doc_id at 1. simpl. now rewrite str_eqb_refl.
  - intros d' N. unfold get_job. simpl. rewrite find_app_split.
    destruct (find (has_doc_id d') (jobs db)); [reflexivity|].
    simpl. unfold has_doc_id at 1. simpl.
    destruct (str_eqb d d') eqn:E; [|reflexivity].
    apply str_eqb_eq in E. congruence.
Qed.

Lemma add_job_then_get_job_witness :
  option_map status
    (get_job (cps "en_report_0a1b2c3d")
       (snd (add_job 7 (cps "en_report_0a1b2c3d") (cps "a.pdf") (cps "en") None
               empty_db)))
  = Some PENDING.
Proof.
  rewrite (proj1 (proj2 (add_job_then_get_job 7 (cps "en_report_0a1b2c3d")
                           (cps "a.pdf") (cps "en") None empty_db eq_refl))).
  reflexivity.
Defined.

(** X3.  [update_job_status] touches nothing but the status, error
    message and update time of the rows with the given [doc_id]: every
    row keeps its rowid, [doc_id], path, language, creation time and
    metadata, rows of other documents are left as they are, the chat tables
    are not written, and for a [doc_id] the table does not have the store
    is unchanged (the UPDATE matches no row and nothing is raised). *)
Theorem update_job_status_only_marks (now : Z) (d : str) (s : JobStatus)
    (err : option str) (db : DB) :
  let db1 := update_job_status now d s err db in
  let kept := fun j => (id j, doc_id j, file_path j, language j, created_at j,
                        metadata j) in
  map kept (jobs db1) = map kept (jobs db)
  /\ (forall j, In j (jobs db) -> doc_id j <> d -> In j (jobs db1))
  /\ chat_sessions db1 = chat_sessions db
  /\ chat_messages db1 = chat_messages db
  /\ (get_job d db = None -> db1 = db).
Proof.
  intros db1 kept. unfold db1, update_job_status. simpl.
  split; [|split; [|split; [reflexivity|split; [reflexivity|]]]].
  - rewrite map_map. apply map_ext. intros j. now destruct (has_doc_id d j).
  - intros j Hj N. apply in_map_iff. exists j. split; [|exact Hj].
    destruct (has_doc_id d j) eqn:E; [|reflexivity].
    apply has_doc_id_true in E. contradiction.
  - intros G. unfold get_job in G. apply find_none_existsb in G.
    rewrite map_fixed; [apply set_jobs_same|].
    intros j Hj. destruct (has_doc_id d j) eqn:E; [|reflexivity].
    assert (T : existsb (has_doc_id d) (jobs db) = true)
      by (apply existsb_exists; eauto).
    congruence.
Qed.

End StoreRows.

(** ** The queue of pending jobs *)

Section JobQueue.
Import PyStr Storage Ingestion.

Lemma StronglySorted_weaken {A} (R R' : A -> A -> Prop) (l : list A) :
  (forall a b, R a b -> R' a b) -> StronglySorted R l -> StronglySorted R' l.
Proof.
  intros W. induction 1 as [|x l S IH Fx]; constructor; [exact IH|].
  eapply Forall_impl; [|exact Fx]. intros y. apply W.
Qed.

Lemma StronglySorted_firstn {A} (R : A -> A -> Prop) (n : nat) (l : list A) :
  StronglySorted R l -> StronglySorted R (firstn n l).
Proof.
  intros S. revert n. induction S as [|x l S IH Fx]; intros [|n]; simpl;
    try constructor; [apply IH|].
  rewrite Forall_forall in *. intros y Hy. apply Fx. eapply firstn_In; eauto.
Qed.

Lemma oldest_first_sorted (l : list Job) :
  StronglySorted (fun a b => (created_at a <= created_at b)%Z)
    (sort_by (fun a b => (created_at a <=? created_at b)%Z) l).
Proof.
  apply StronglySorted_weaken
    with (R := fun a b => (created_at a <=? created_at b)%Z = true).
  - intros a b. apply Z.leb_le.
  - apply sort_by_sorted.
    + intros a b. rewrite !Z.leb_le. lia.
    + intros a b c. rewrite !Z.leb_le. lia.
Qed.

Lemma sql_limit_In {A} (k : Z) (x : A) (l : list A) :
  In x (sql_limit k l) -> In x l.
Proof. unfold sql_limit. destruct (k <? 0)%Z; [trivial|apply firstn_In]. Qed.

(** X4.  [get_pending_jobs] returns pending rows of the table only,
    oldest first by creation time, and never more than a non-negative
    [limit]; when the limit is negative or covers the whole queue every
    pending job is returned. *)
Theorem get_pending_jobs_oldest_first (limit : Z) (db : DB) :
  let r := get_pending_jobs limit db in
  (forall j, In j r -> In j (jobs db) /\ status j = PENDING)
  /\ StronglySorted (fun a b => (created_at a <= created_at b)%Z) r
  /\ ((0 <= limit)%Z -> (Z.of_nat (length r) <= limit)%Z)
  /\ ((limit < 0)%Z \/ (Z.of_nat (length (pending_jobs db)) <= limit)%Z ->
      forall j, In j (pending_jobs db) -> In j r).
Proof.
  intros r. unfold r, get_pending_jobs. fold (pending_jobs db).
  split; [|split; [|split]].
  - intros j Hj. apply sql_limit_In, sort_by_In in Hj.
    apply filter_In in Hj as [Hj Hs]. split; [exact Hj|]. now destruct (status j).
  - unfold sql_limit. destruct (limit <? 0)%Z.
    + apply oldest_first_sorted.
    + apply StronglySorted_firstn, oldest_first_sorted.
  - intros L. unfold sql_limit.
    destruct (limit <? 0)%Z eqn:E; [apply Z.ltb_lt in E; lia|].
    pose proof (firstn_le_length (Z.to_nat limit)
                  (sort_by (fun a b => (created_at a <=? created_at b)%Z)
                     (pending_jobs db))).
    lia.
  - intros L j Hj. unfold sql_limit.
    destruct (limit <? 0)%Z eqn:E.
    + now apply sort_by_In.
    + apply Z.ltb_ge in E. destruct L as [L|L]; [lia|].
      rewrite firstn_all2; [now apply sort_by_In|].
      rewrite sort_by_length. lia.
Qed.

(** Moving a document out of 'pending' removes its rows from the queue
    and nothing else. *)
Lemma pending_after_update (now : Z) (d : str) (s : JobStatus)
    (err : option str) (db : DB) :
  s <> PENDING ->
  pending_jobs (update_job_status now d s err db)
  = filter (not_doc d) (pending_jobs db).
Proof.
  intros N. unfold pending_jobs, update_job_status. simpl.
  induction (jobs db) as [|j js IH]; simpl; [reflexivity|].
  unfold not_doc at 1. destruct (has_doc_id d j) eqn:E; simpl.
  - destruct s; try contradiction; simpl; rewrite IH;
      destruct (JobStatus_eqb (status j) PENDING); simpl;
      unfold not_doc; rewrite ?E; reflexivity.
  - rewrite IH. destruct (JobStatus_eqb (status j) PENDING); simpl;
      unfold not_doc; rewrite ?E; reflexivity.
Qed.

Lemma NoDup_doc_ids_filter (p : Job -> bool) (js : list Job) :
  NoDup (map doc_id js) -> NoDup (map doc_id (filter p js)).
Proof.
  induction js as [|j js IH]; simpl; intros ND; [constructor|].
  apply NoDup_cons_iff in ND as [Nj ND].
  destruct (p j); simpl; [|now apply IH].
  constructor; [|now apply IH].
  intros Hin. apply Nj. apply in_map_iff in Hin as (k & E & Hk).
  apply filter_In in Hk as [Hk _]. apply in_map_iff. eauto.
Qed.

Lemma remove_one_doc (job : Job) (js : list Job) :
  NoDup (map doc_id js) -> In job js ->
  length (filter (not_doc (doc_id job)) js) + 1 = length js.
Proof.
  induction js as [|j js IH]; simpl; [contradiction|].
  intros ND Hin. apply NoDup_cons_iff in ND as [Nj ND].
  unfold not_doc at 1. destruct (has_doc_id (doc_id job) j) eqn:E; simpl.
  - apply has_doc_id_true in E.
    rewrite forallb_filter_id; [lia|].
    apply forallb_forall. intros k Hk. unfold not_doc.
    destruct (has_doc_id (doc_id job) k) eqn:E'; [|reflexivity].
    apply has_doc_id_true in E'. exfalso. apply Nj. rewrite E, <- E'.
    now apply in_map.
  - destruct Hin as [->|Hin].
    + unfold has_doc_id in E. now rewrite str_eqb_refl in E.
    + specialize (IH ND Hin). lia.
Qed.

Lemma get_pending_one (db : DB) :
  get_pending_jobs 1 db
  = match sort_by (fun a b => (created_at a <=? created_at b)%Z) (pending_jobs db) with
    | [] => []
    | x :: _ => [x]
    end.
Proof.
  unfold get_pending_jobs, sql_limit. fold (pending_jobs db). simpl.
  now destruct (sort_by _ (pending_jobs db)).
Qed.

Lemma sort_by_nil {A} (before : A -> A -> bool) (l : list A) :
  sort_by before l = [] -> l = [].
Proof.
  intros E. apply (f_equal (@length A)) in E. rewrite sort_by_length in E.
  now destruct l.
Qed.

(** What [get_next_job] does, by the state of the queue. *)
Lemma get_next_job_cases (now : Z) (db : DB) :
  (pending_jobs db = [] /\ get_next_job now db = (None, db))
  \/ (exists job,
        In job (pending_jobs db)
        /\ (forall j, In j (pending_jobs db) -> (created_at job <= created_at j)%Z)
        /\ get_next_job now db
           = (Some job, update_job_status now (doc_id job) PROCESSING None db)).
Proof.
  unfold get_next_job. rewrite get_pending_one.
  pose proof (oldest_first_sorted (pending_jobs db)) as Sorted.
  destruct (sort_by _ (pending_jobs db)) as [|job rest] eqn:S.
  - left. split; [|reflexivity]. now apply sort_by_nil in S.
  - right. exists job. split; [|split; [|reflexivity]].
    + apply (sort_by_In (fun a b => (created_at a <=? created_at b)%Z)).
      rewrite S. now left.
    + intros j Hj.
      apply (sort_by_In (fun a b => (created_at a <=? created_at b)%Z)) in Hj.
      rewrite S in Hj. apply StronglySorted_inv in Sorted as [_ F].
      destruct Hj as [->|Hj]; [lia|].
      rewrite Forall_forall in F. now apply F.
Qed.

Lemma pending_job_status (job : Job) (db : DB) :
  unique_doc_ids db -> In job (pending_jobs db) ->
  job_status (doc_id job) db = Some PENDING.
Proof.
  intros Un Hin. apply filter_In in Hin as [Hin Hs].
  unfold job_status, get_job. rewrite (find_unique _ _ Un Hin). simpl.
  now destruct (status job).
Qed.

(** X5.  [get_next_job] on a table with distinct [doc_id]s: when it
    returns a job, that job was pending with the earliest creation time
    of the queue, it is now processing, and the queue is what it was
    without that job, so the job is not handed out again; when it returns
    nothing, the queue was empty and the store is unchanged. *)
Theorem get_next_job_claims_oldest_pending (now : Z) (db : DB) :
  unique_doc_ids db ->
  match get_next_job now db with
  | (Some job, db1) =>
      In job (pending_jobs db)
      /\ (forall j, In j (pending_jobs db) -> (created_at job <= created_at j)%Z)
      /\ job_status (doc_id job) db1 = Some PROCESSING
      /\ pending_jobs db1 = filter (not_doc (doc_id job)) (pending_jobs db)
      /\ length (pending_jobs db1) + 1 = length (pending_jobs db)
  | (None, db1) => pending_jobs db = [] /\ db1 = db
  end.
Proof.
  intros Un.
  destruct (get_next_job_cases now db) as [[P ->]|(job & Hin & Min & ->)];
    [now split|].
  split; [exact Hin|]. split; [exact Min|]. split; [|split].
  - rewrite job_status_update, str_eqb_refl.
    now rewrite (pending_job_status job db Un Hin).
  - now apply pending_after_update.
  - rewrite pending_after_update by discriminate.
    apply remove_one_doc; [|exact Hin]. now apply NoDup_doc_ids_filter.
Qed.

Lemma get_next_job_witness :
  fst (get_next_job 5
         (snd (add_job 1 (cps "en_b_11111111") (cps "b.pdf") (cps "en") None
                 (snd (add_job 0 (cps "en_a_00000000") (cps "a.pdf") (cps "en")
                         None empty_db)))))
  <> None.
Proof.
  assert (U : unique_doc_ids
                (snd (add_job 1 (cps "en_b_11111111") (cps "b.pdf") (cps "en") None
                        (snd (add_job 0 (cps "en_a_00000000") (cps "a.pdf")
                                (cps "en") None empty_db))))).
  { apply add_preserves_unique, add_preserves_unique. constructor. }
  pose proof (get_next_job_claims_oldest_pending 5 _ U) as T.
  destruct (get_next_job 5 _) as [[job|] db1]; [discriminate|].
  destruct T as [E _]. discriminate E.
Defined.

Lemma filter_not_doc_twice (d : str) (js : list Job) :
  filter (not_doc d) (filter (not_doc d) js) = filter (not_doc d) js.
Proof.
  induction js as [|j js IH]; simpl; [reflexivity|].
  destruct (not_doc d j) eqn:E; simpl; rewrite ?E, IH; reflexivity.
Qed.

(** A claimed job run through [process_document]: the queue loses the
    job, and only its status changes. *)
Lemma claim_and_process (t1 t2 : Z) (failure : option str) (job : Job) (db : DB) :
  unique_doc_ids db -> In job (pending_jobs db) ->
  let db2 := process_document t2 job failure
               (update_job_status t1 (doc_id job) PROCESSING None db) in
  unique_doc_ids db2
  /\ pending_jobs db2 = filter (not_doc (doc_id job)) (pending_jobs db)
  /\ (forall d, job_status d db2
                = if str_eqb d (doc_id job) then Some (finished_as failure)
                  else job_status d db).
Proof.
  intros Un Hin db2.
  pose proof (pending_job_status job db Un Hin) as St.
  unfold db2, process_document, mark_job_completed, mark_job_failed.
  destruct failure as [e|]; (split; [|split]);
    try (now apply update_preserves_unique, update_preserves_unique);
    try (rewrite !pending_after_update by discriminate;
         now apply filter_not_doc_twice);
    intros d; rewrite !job_status_update;
    destruct (str_eqb d (doc_id job)) eqn:E;
    try (apply str_eqb_eq in E; subst d; now rewrite St);
    now destruct (job_status d db).
Qed.

(** X6.  The loop of the processing script ends: on a table with
    distinct [doc_id]s and with more turns than jobs in the queue it
    stops after processing exactly the jobs that were pending, leaves no
    job pending, leaves every job that was pending completed or failed
    according to whether a stage raised, and leaves the status of every
    other job as it was. *)
Theorem process_all_drains_the_queue (clock : nat -> Z)
    (failure_of : Job -> option str) (fuel : nat) :
  forall (n : nat) (db : DB),
  unique_doc_ids db ->
  length (pending_jobs db) < fuel ->
  exists final,
    process_all fuel clock failure_of n db = Some (length (pending_jobs db), final)
    /\ pending_jobs final = []
    /\ unique_doc_ids final
    /\ (forall j, In j (pending_jobs db) ->
          job_status (doc_id j) final = Some (finished_as (failure_of j)))
    /\ (forall d, job_status d db <> Some PENDING ->
          job_status d final = job_status d db).
Proof.
  induction fuel as [|fuel IH]; intros n db Un L; [lia|].
  cbn [process_all].
  destruct (get_next_job_cases (clock (2 * n)) db)
    as [[P ->]|(job & Hin & _ & ->)].
  { exists db. rewrite P. simpl. repeat split; auto. intros j []. }
  destruct (claim_and_process (clock (2 * n)) (clock (2 * n + 1))
              (failure_of job) job db Un Hin) as (Un2 & Q2 & St2).
  set (db2 := process_document (clock (2 * n + 1)) job (failure_of job)
                (update_job_status (clock (2 * n)) (doc_id job) PROCESSING None db))
    in *.
  assert (Len : length (pending_jobs db2) + 1 = length (pending_jobs db)).
  { rewrite Q2. apply remove_one_doc; [|exact Hin].
    now apply NoDup_doc_ids_filter. }
  destruct (IH (S n) db2 Un2) as (final & Run & Empty & UnF & Fin & Keep); [lia|].
  exists final. rewrite Run. split; [|split; [exact Empty|split; [exact UnF|split]]].
  - f_equal. f_equal. lia.
  - intros j Hj. destruct (str_eqb (doc_id j) (doc_id job)) eqn:E.
    + apply str_eqb_eq in E.
      assert (J : j = job).
      { apply filter_In in Hj as [Hj _]. apply filter_In in Hin as [Hin' _].
        pose proof (find_unique j (jobs db) Un Hj) as F1.
        pose proof (find_unique job (jobs db) Un Hin') as F2.
        rewrite E in F1. congruence. }
      subst j. rewrite Keep; rewrite St2, str_eqb_refl; [reflexivity|].
      now destruct (failure_of job).
    + apply Fin. rewrite Q2. apply filter_In. split; [exact Hj|].
      unfold not_doc, has_doc_id. now rewrite E.
  - intros d N. destruct (str_eqb d (doc_id job)) eqn:E.
    + apply str_eqb_eq in E. subst d.
      now rewrite (pending_job_status job db Un Hin) in N.
    + rewrite Keep; rewrite St2, E; [reflexivity|exact N].
Qed.

Lemma process_all_witness :
  let db := snd (add_job 1 (cps "en_b_11111111") (cps "b.pdf") (cps "en") None
                   (snd (add_job 0 (cps "en_a_00000000") (cps "a.pdf") (cps "en")
                           None empty_db))) in
  exists final,
    process_all 3 Z.of_nat (fun _ => None) 0 db = Some (2, final)
    /\ pending_jobs final = [].
Proof.
  intros db.
  assert (U : unique_doc_ids db).
  { apply add_preserves_unique, add_preserves_unique. constructor. }
  assert (L : length (pending_jobs db) < 3) by (vm_compute; lia).
  destruct (process_all_drains_the_queue Z.of_nat (fun _ => None) 3 0 db U L)
    as (final & Run & Empty & _).
  exists final. split; [exact Run|exact Empty].
Defined.

End JobQueue.

(** ** Queueing detected files *)

Section Enqueue.
Import PyStr Storage Ingestion.
Variable json_dumps : dict -> str.
Variable processing_dir : str.
Variable disk : Disk.

Local Abbreviation enqueue := (process_new_file json_dumps processing_dir disk).

Lemma get_job_after_add (now : Z) (d d0 fp lang : str) (meta : option str)
    (db : DB) :
  get_job d db <> None -> get_job d (snd (add_job now d0 fp lang meta db)) <> None.
Proof.
  unfold add_job. destruct (existsb (has_doc_id d0) (jobs db)); simpl; [trivial|].
  unfold get_job. simpl. rewrite find_app_split.
  now destruct (find (has_doc_id d) (jobs db)).
Qed.

Lemma get_job_added (now : Z) (d fp lang : str) (meta : option str) (db : DB) :
  get_job d (snd (add_job now d fp lang meta db)) <> None.
Proof.
  unfold add_job. destruct (existsb (has_doc_id d) (jobs db)) eqn:Ex; simpl.
  - unfold get_job. intros G. apply find_none_existsb in G. congruence.
  - unfold get_job. simpl. rewrite find_app_split.
    destruct (find (has_doc_id d) (jobs db)); [discriminate|].
    simpl. unfold has_doc_id at 1. simpl. now rewrite str_eqb_refl.
Qed.

(** A job on record stays on record through [process_new_file]. *)
Lemma enqueue_keeps_jobs (now : Z) (f : Path) (d : str) (db : DB) :
  get_job d db <> None -> get_job d (enqueue now f db) <> None.
Proof.
  intros G. unfold process_new_file.
  destruct (negb (path_exists disk f)); [exact G|].
  destruct (detect_language_from_path f) as [language|]; [|exact G].
  destruct (sha256_hex disk f) as [file_hash|e]; [|exact G].
  destruct (get_job (generate_doc_id file_hash f language) db); [exact G|].
  destruct (copy2 disk f _); [|exact G].
  now apply get_job_after_add.
Qed.

(** Once a file has been handled, handling it again changes nothing. *)
Lemma enqueue_again (now now' : Z) (f : Path) (db : DB) :
  enqueue now' f (enqueue now f db) = enqueue now f db.
Proof.
  unfold process_new_file at 2.
  destruct (negb (path_exists disk f)) eqn:Ex.
  { unfold process_new_file. now rewrite Ex. }
  destruct (detect_language_from_path f) as [language|] eqn:Lg.
  2:{ unfold process_new_file. now rewrite Ex, Lg. }
  destruct (sha256_hex disk f) as [file_hash|e] eqn:Hh.
  2:{ unfold process_new_file. now rewrite Ex, Lg, Hh. }
  destruct (get_job (generate_doc_id file_hash f language) db) as [j|] eqn:G.
  { unfold process_new_file. now rewrite Ex, Lg, Hh, G. }
  destruct (copy2 disk f _) eqn:Cp.
  2:{ unfold process_new_file. now rewrite Ex, Lg, Hh, G, Cp. }
  unfold process_new_file. rewrite Ex, Lg, Hh, G, Cp.
  destruct (get_job _ (snd (add_job _ _ _ _ _ db))) eqn:G2; [reflexivity|].
  exfalso. revert G2. apply get_job_added.
Qed.

Lemma enqueue_stable (f : Path) (db db' : DB) :
  (forall t, enqueue t f db = db) ->
  (forall d, get_job d db <> None -> get_job d db' <> None) ->
  forall t, enqueue t f db' = db'.
Proof.
  intros St Keep t. specialize (St t). revert St.
  unfold process_new_file.
  destruct (negb (path_exists disk f)); [reflexivity|].
  destruct (detect_language_from_path f) as [language|]; [|reflexivity].
  destruct (sha256_hex disk f) as [file_hash|e]; [|reflexivity].
  destruct (get_job (generate_doc_id file_hash f language) db) as [j|] eqn:G.
  - intros _.
    destruct (get_job _ db') eqn:G2; [reflexivity|].
    exfalso. revert G2. apply Keep. now rewrite G.
  - destruct (copy2 disk f _); [|now destruct (get_job _ db')].
    intros E. exfalso.
    apply (f_equal (fun x => length (jobs x))) in E. revert E.
    unfold add_job. unfold get_job in G. apply find_none_existsb in G.
    rewrite G. simpl. rewrite length_app. simpl. lia.
Qed.

(** X7.  [process_new_file] queues a file at most once: it never lets
    the UNIQUE constraint of the table fail, it leaves the rows already
    there as they are, adding at most one pending row for a [doc_id] not
    yet on record, and handling the same file again, at any later time,
    changes nothing.  Scanning the directories again after a scan queues
    nothing either. *)
Theorem process_new_file_queues_once (now now' : Z) (f : Path) (db : DB) :
  unique_doc_ids db ->
  let db1 := enqueue now f db in
  unique_doc_ids db1
  /\ (jobs db1 = jobs db
      \/ exists row, jobs db1 = jobs db ++ [row]
                     /\ status row = PENDING
                     /\ get_job (doc_id row) db = None)
  /\ enqueue now' f db1 = db1
  /\ (forall files again,
        incl (map snd again) (map snd files) ->
        scan_existing_files json_dumps processing_dir disk again
          (scan_existing_files json_dumps processing_dir disk files db)
        = scan_existing_files json_dumps processing_dir disk files db).
Proof.
  intros Un db1. split; [|split; [|split]].
  - unfold db1, process_new_file.
    destruct (negb (path_exists disk f)); [exact Un|].
    destruct (detect_language_from_path f) as [language|]; [|exact Un].
    destruct (sha256_hex disk f) as [file_hash|e]; [|exact Un].
    destruct (get_job _ db); [exact Un|].
    destruct (copy2 disk f _); [|exact Un].
    now apply add_preserves_unique.
  - unfold db1, process_new_file.
    destruct (negb (path_exists disk f)); [now left|].
    destruct (detect_language_from_path f) as [language|]; [|now left].
    destruct (sha256_hex disk f) as [file_hash|e]; [|now left].
    destruct (get_job _ db) eqn:G; [now left|].
    destruct (copy2 disk f _); [|now left].
    right. unfold add_job. pose proof G as Ex. unfold get_job in Ex.
    apply find_none_existsb in Ex. rewrite Ex. simpl.
    eexists. split; [reflexivity|]. split; [reflexivity|exact G].
  - apply enqueue_again.
  - clear Un db1. intros files again Incl.
    assert (St : forall files db0 g,
               In g (map snd files) ->
               forall t, enqueue t g (scan_existing_files json_dumps processing_dir
                                        disk files db0)
                         = scan_existing_files json_dumps processing_dir disk files db0).
    { intros fs. induction fs as [|[t0 g0] fs IH] using rev_ind; intros db0 g Hg t.
      - destruct Hg.
      - unfold scan_existing_files in *. rewrite fold_left_app. simpl.
        rewrite map_app in Hg. apply in_app_or in Hg as [Hg|[<-|[]]].
        + apply enqueue_stable with (db := fold_left
                                       (fun db f => enqueue (fst f) (snd f) db) fs db0).
          * intros t'. now apply IH.
          * intros d. apply enqueue_keeps_jobs.
        + apply enqueue_again. }
    induction again as [|[t g] again IH]; [reflexivity|].
    simpl. simpl in Incl.
    unfold scan_existing_files at 1. simpl.
    rewrite St by (apply Incl; now left).
    apply IH. intros x Hx. apply Incl. now right.
Qed.

End Enqueue.

Lemma process_new_file_witness :
  let disk := {| Ingestion.path_exists := fun _ => true;
                 Ingestion.sha256_hex := fun _ =>
                   PyStr.Return (PyStr.cps "0a1b2c3d4e5f60718293a4b5c6d7e8f9");
                 Ingestion.copy2 := fun _ _ => true |} in
  let f := {| Ingestion.path_str := PyStr.cps "data/incoming/en/report.pdf";
              Ingestion.parent_name := PyStr.cps "en";
              Ingestion.name := PyStr.cps "report.pdf";
              Ingestion.stem := PyStr.cps "report" |} in
  let enqueue := Ingestion.process_new_file (fun _ => PyStr.cps "{}")
                   (PyStr.cps "data/processing") disk in
  enqueue 9%Z f (enqueue 3%Z f Storage.empty_db) = enqueue 3%Z f Storage.empty_db.
Proof.
  intros disk f enqueue.
  assert (U : Ingestion.unique_doc_ids Storage.empty_db) by constructor.
  exact (proj1 (proj2 (proj2
           (process_new_file_queues_once (fun _ => PyStr.cps "{}")
              (PyStr.cps "data/processing") disk 3%Z 9%Z f Storage.empty_db U)))).
Defined.

(** ** Chat messages *)

Section Messages.
Import PyStr Storage.

Lemma insert_by_snoc {A} (before : A -> A -> bool) (y x : A) (l : list A) :
  before y x = true ->
  insert_by before y (l ++ [x]) = insert_by before y l ++ [x].
Proof.
  intros B. induction l as [|z l IH]; simpl.
  - now rewrite B.
  - destruct (before y z); [reflexivity|]. now rewrite IH.
Qed.

Lemma sort_by_snoc {A} (before : A -> A -> bool) (x : A) (l : list A) :
  (forall y, In y l -> before y x = true) ->
  sort_by before (l ++ [x]) = sort_by before l ++ [x].
Proof.
  induction l as [|y l IH]; simpl; intros B; [reflexivity|].
  rewrite IH by (intros z Hz; apply B; now right).
  apply insert_by_snoc. apply B. now left.
Qed.

Lemma filter_filter_other (sid sid' : str) (ms : list ChatMessage) :
  sid' <> sid ->
  filter (fun m => str_eqb (msg_session_id m) sid')
    (filter (fun m => negb (str_eqb (msg_session_id m) sid)) ms)
  = filter (fun m => str_eqb (msg_session_id m) sid') ms.
Proof.
  intros N. induction ms as [|m ms IH]; simpl; [reflexivity|].
  destruct (str_eqb (msg_session_id m) sid) eqn:E; simpl.
  - destruct (str_eqb (msg_session_id m) sid') eqn:E'; [|exact IH].
    apply str_eqb_eq in E, E'. congruence.
  - now rewrite IH.
Qed.

(** X8.  [clear_session] deletes the messages of one session and nothing
    else: the session has no message afterwards, every other session reads
    as before, and the session records, the jobs and the rowid sequence of
    the messages are untouched (the session itself stays on record and no
    rowid is handed out twice). *)
Theorem clear_session_clears_one_session (sid : str) (db : DB) :
  let db1 := clear_session sid db in
  (forall limit, get_session_messages sid limit db1 = [])
  /\ (forall sid' limit, sid' <> sid ->
        get_session_messages sid' limit db1 = get_session_messages sid' limit db)
  /\ chat_sessions db1 = chat_sessions db
  /\ jobs db1 = jobs db
  /\ chat_messages_seq db1 = chat_messages_seq db.
Proof.
  intros db1. split; [|split; [|repeat split]].
  - intros limit. unfold db1, get_session_messages, clear_session. simpl.
    rewrite filter_none.
    + simpl. destruct limit as [k|]; [|reflexivity].
      destruct (k =? 0)%Z; [reflexivity|]. unfold sql_limit.
      destruct (k <? 0)%Z; [reflexivity|apply firstn_nil].
    + intros m Hm. apply filter_In in Hm as [_ Hm].
      now destruct (str_eqb (msg_session_id m) sid).
  - intros sid' limit N. unfold db1, get_session_messages, clear_session. simpl.
    now rewrite filter_filter_other.
Qed.

(** The row [add_message] inserts. *)
Lemma messages_after_add (now : Z) (sid r c : str) (meta : option str) (db : DB) :
  chat_messages (add_message now sid r c meta db)
  = chat_messages db ++
    [{| msg_id := (chat_messages_seq db + 1)%Z; msg_session_id := sid; role := r;
        content := c; msg_created_at := now;
        msg_metadata := dumps_or_empty meta |}].
Proof. reflexivity. Qed.

Lemma session_messages_after_add (now : Z) (sid r c : str) (meta : option str)
    (db : DB) :
  (forall m, In m (chat_messages db) -> msg_session_id m = sid ->
     (msg_created_at m <= now)%Z) ->
  get_session_messages sid None (add_message now sid r c meta db)
  = get_session_messages sid None db ++
    [{| msg_id := (chat_messages_seq db + 1)%Z; msg_session_id := sid; role := r;
        content := c; msg_created_at := now;
        msg_metadata := dumps_or_empty meta |}].
Proof.
  intros Mono. unfold get_session_messages. rewrite messages_after_add.
  rewrite filter_app. simpl. rewrite str_eqb_refl.
  apply sort_by_snoc. intros m Hm. apply filter_In in Hm as [Hm E].
  apply str_eqb_eq in E. simpl. apply Z.leb_le. now apply Mono.
Qed.

(** X9.  A message added to a session at a time no earlier than the
    session's messages so far is read back last by [get_session_messages],
    after the messages read before and with the role and content given;
    the messages of every other session read as before. *)
Theorem add_message_is_read_back_last (now : Z) (sid r c : str)
    (meta : option str) (db : DB) :
  (forall m, In m (chat_messages db) -> msg_session_id m = sid ->
     (msg_created_at m <= now)%Z) ->
  let db1 := add_message now sid r c meta db in
  (exists row,
      get_session_messages sid None db1 = get_session_messages sid None db ++ [row]
      /\ msg_session_id row = sid /\ role row = r /\ content row = c
      /\ msg_created_at row = now)
  /\ (forall sid' limit, sid' <> sid ->
        get_session_messages sid' limit db1 = get_session_messages sid' limit db).
Proof.
  intros Mono db1. split.
  - eexists. split; [now apply session_messages_after_add|]. now repeat split.
  - intros sid' limit N. unfold db1, get_session_messages.
    rewrite messages_after_add, filter_app. simpl.
    destruct (str_eqb sid sid') eqn:E;
      [apply str_eqb_eq in E; congruence|].
    now rewrite app_nil_r.
Qed.

Lemma add_message_witness :
  map content
    (get_session_messages (cps "s1") None
       (add_message 2 (cps "s1") (cps "assistant") (cps "hello") None
          (add_message 1 (cps "s1") (cps "user") (cps "hi") None empty_db)))
  = [cps "hi"; cps "hello"].
Proof.
  destruct (proj1 (add_message_is_read_back_last 2 (cps "s1") (cps "assistant")
                     (cps "hello") None
                     (add_message 1 (cps "s1") (cps "user") (cps "hi") None empty_db)
                     ltac:(intros m [<-|[]] _; simpl; lia)))
    as (row & E & _ & _ & C & _).
  rewrite E, map_app. simpl. now rewrite C.
Defined.

(** X10.  With a limit, [get_session_messages] returns the oldest
    messages of the session: once a session holds [k] messages or more,
    a message added later (at a time no earlier than theirs) is not among
    the [k] returned, which stay the same.  [chat] reads its history with
    [limit=10]. *)
Theorem limited_history_stops_growing (now : Z) (sid r c : str)
    (meta : option str) (k : Z) (db : DB) :
  (forall m, In m (chat_messages db) -> msg_session_id m = sid ->
     (msg_created_at m <= now)%Z) ->
  (0 < k)%Z ->
  (k <= Z.of_nat (length (get_session_messages sid None db)))%Z ->
  get_session_messages sid (Some k) (add_message now sid r c meta db)
  = get_session_messages sid (Some k) db.
Proof.
  intros Mono K L.
  pose proof (session_messages_after_add now sid r c meta db Mono) as E.
  unfold get_session_messages in *.
  destruct (k =? 0)%Z eqn:Z0; [apply Z.eqb_eq in Z0; lia|].
  rewrite E. unfold sql_limit.
  destruct (k <? 0)%Z eqn:Neg; [apply Z.ltb_lt in Neg; lia|].
  rewrite firstn_app.
  replace (Z.to_nat k - length _) with 0 by lia.
  simpl. now rewrite app_nil_r.
Qed.

Lemma limited_history_witness :
  let db := add_message 1 (cps "s1") (cps "user") (cps "hi") None empty_db in
  get_session_messages (cps "s1") (Some 1%Z)
    (add_message 2 (cps "s1") (cps "assistant") (cps "hello") None db)
  = get_session_messages (cps "s1") (Some 1%Z) db.
Proof.
  intros db.
  apply (limited_history_stops_growing 2 (cps "s1") (cps "assistant")
           (cps "hello") None 1 db).
  - intros m [<-|[]] _. simpl. lia.
  - lia.
  - simpl. lia.
Defined.

End Messages.

(** ** Token windows and sentences *)

Section Windows.
Import PyStr Chunking.
Context `{T : Tokenizer}.

Lemma slice_length_le {A} (l : list A) (i m : Z) :
  (0 <= i)%Z -> (0 <= m)%Z -> (Z.of_nat (length (slice l i (i + m))) <= m)%Z.
Proof.
  intros I M. unfold slice. rewrite length_skipn.
  rewrite take_positive by lia. rewrite length_firstn. lia.
Qed.

(** The windows, when the stride is positive. *)
Lemma token_windows_from (tokens : list token) (max_tokens stride : Z) :
  (0 < stride)%Z ->
  forall fuel i,
  (0 <= i)%Z ->
  (Z.of_nat (length tokens) - i <= Z.of_nat fuel)%Z ->
  token_windows fuel tokens max_tokens stride i
  = Some (map (fun k => decode (slice tokens (i + Z.of_nat k * stride)
                                  (i + Z.of_nat k * stride + max_tokens)))
            (seq 0 (Z.to_nat ((Z.of_nat (length tokens) - i + stride - 1) / stride)))).
Proof.
  intros S. induction fuel as [|fuel IH]; intros i I L.
  - assert (N : (i <? Z.of_nat (length tokens))%Z = false) by (apply Z.ltb_ge; lia).
    simpl. rewrite N.
    assert (Q : ((Z.of_nat (length tokens) - i + stride - 1) / stride <= 0)%Z).
    { apply Z.lt_succ_r. apply Z.div_lt_upper_bound; lia. }
    replace (Z.to_nat _) with 0 by lia. reflexivity.
  - cbn [token_windows].
    destruct (i <? Z.of_nat (length tokens))%Z eqn:C.
    + apply Z.ltb_lt in C.
      rewrite IH by lia. simpl. f_equal.
      replace ((Z.of_nat (length tokens) - i + stride - 1) / stride)%Z
        with ((Z.of_nat (length tokens) - (i + stride) + stride - 1) / stride + 1)%Z.
      2:{ rewrite <- Z.div_add by lia. f_equal. lia. }
      assert (P : (0 <= (Z.of_nat (length tokens) - (i + stride) + stride - 1) / stride)%Z)
        by (apply Z.div_pos; lia).
      rewrite Z2Nat.inj_add by lia. rewrite Nat.add_comm. simpl.
      f_equal; [f_equal; f_equal; lia|].
      rewrite <- seq_shift, map_map. apply map_ext. intros k.
      f_equal. f_equal; lia.
    + apply Z.ltb_ge in C.
      assert (Q : ((Z.of_nat (length tokens) - i + stride - 1) / stride <= 0)%Z).
      { apply Z.lt_succ_r. apply Z.div_lt_upper_bound; lia. }
      replace (Z.to_nat _) with 0 by lia. reflexivity.
Qed.

(** With a stride that is not positive the loop never gets past the first
    token. *)
Lemma token_windows_stuck (tokens : list token) (max_tokens stride : Z) :
  (stride <= 0)%Z -> tokens <> [] ->
  forall fuel i, (i <= 0)%Z ->
  token_windows fuel tokens max_tokens stride i = None.
Proof.
  intros S N. induction fuel as [|fuel IH]; intros i I.
  - simpl. destruct (i <? Z.of_nat (length tokens))%Z eqn:C; [reflexivity|].
    apply Z.ltb_ge in C. destruct tokens; [contradiction|simpl in C; lia].
  - cbn [token_windows].
    destruct (i <? Z.of_nat (length tokens))%Z eqn:C.
    + rewrite IH by lia. reflexivity.
    + apply Z.ltb_ge in C. destruct tokens; [contradiction|simpl in C; lia].
Qed.

(** X11.  When [overlap_tokens] is smaller than [max_tokens] the window
    loop ends for every token list: it gives one window per stride of
    [max_tokens - overlap_tokens] tokens, the k-th decoded from the tokens
    from position [k * stride] on, [max_tokens] of them at most.  So
    [chunk_text_recursive] returns for every text. *)
Theorem token_windows_cover_the_tokens (tokens : list token)
    (max_tokens overlap_tokens : Z) :
  (0 <= overlap_tokens < max_tokens)%Z ->
  let stride := (max_tokens - overlap_tokens)%Z in
  let n := Z.to_nat ((Z.of_nat (length tokens) + stride - 1) / stride) in
  token_windows (length tokens) tokens max_tokens stride 0
  = Some (map (fun k => decode (slice tokens (Z.of_nat k * stride)
                                  (Z.of_nat k * stride + max_tokens)))
            (seq 0 n))
  /\ (forall k, (Z.of_nat (length (slice tokens (Z.of_nat k * stride)
                                     (Z.of_nat k * stride + max_tokens)))
                 <= max_tokens)%Z)
  /\ (forall self t language mx ov,
        (int_or ov (chunk_overlap self) < int_or mx (chunk_size self))%Z ->
        chunk_text_recursive self t language mx ov <> None).
Proof.
  intros B stride n. split; [|split].
  - rewrite token_windows_from by (unfold stride; lia).
    unfold n. f_equal.
    replace (Z.of_nat (length tokens) - 0 + stride - 1)%Z
      with (Z.of_nat (length tokens) + stride - 1)%Z by lia.
    apply map_ext. intros k. reflexivity.
  - intros k. apply slice_length_le; unfold stride; nia.
  - intros self t language mx ov L. unfold chunk_text_recursive.
    destruct (_ <=? _)%Z; [discriminate|].
    match goal with
    | |- context [if ?c then split_blank_lines t else split_blank_lines t] =>
        destruct c
    end;
      (destruct (1 <? length (split_blank_lines t)); [discriminate|];
       destruct (1 <? length (split_by_sentences t language)); [discriminate|];
       rewrite token_windows_from by lia; discriminate).
Qed.

(** X12.  When [overlap_tokens] is not smaller than [max_tokens], the
    window loop does not end on any non-empty token list, however many
    turns it is given; [chunk_text_recursive] then does not return for a
    text over the bound that has a single paragraph and at most one
    sentence. *)
Theorem token_windows_never_end (self : ChunkingAgent) (t language : str)
    (mx ov : option Z) :
  let max_tokens := int_or mx (chunk_size self) in
  let overlap_tokens := int_or ov (chunk_overlap self) in
  (max_tokens <= overlap_tokens)%Z ->
  (max_tokens < count_tokens t)%Z ->
  (0 <= max_tokens)%Z ->
  length (split_blank_lines t) <= 1 ->
  length (split_by_sentences t language) <= 1 ->
  (forall fuel,
      token_windows fuel (encode t) max_tokens (max_tokens - overlap_tokens) 0 = None)
  /\ chunk_text_recursive self t language mx ov = None.
Proof.
  intros max_tokens overlap_tokens L C M P S.
  assert (N : encode t <> []).
  { unfold count_tokens in C. destruct (encode t); [simpl in C; lia|discriminate]. }
  split.
  - intros fuel. apply token_windows_stuck; [lia|exact N|lia].
  - unfold chunk_text_recursive. fold max_tokens overlap_tokens.
    assert (E : (count_tokens t <=? max_tokens)%Z = false) by (apply Z.leb_gt; lia).
    rewrite E.
    assert (P' : (1 <? length (split_blank_lines t)) = false)
      by (apply Nat.ltb_ge; lia).
    assert (S' : (1 <? length (split_by_sentences t language)) = false)
      by (apply Nat.ltb_ge; lia).
    match goal with
    | |- context [if ?c then split_blank_lines t else split_blank_lines t] =>
        destruct c
    end; rewrite P', S'; apply token_windows_stuck; try lia; exact N.
Qed.

End Windows.

(** ** Chunk records and sentences *)

Section ChunkRecords.
Import PyStr Chunking.
Context `{T : Tokenizer} `{U : UnicodeData}.

Lemma dict_get_set_same (k : str) (v : value) (d : dict) :
  dict_get k (dict_set k v d) = Some v.
Proof.
  induction d as [|[k' v'] d IH]; simpl.
  - now rewrite str_eqb_refl.
  - destruct (str_eqb k' k) eqn:E; simpl; rewrite E; [reflexivity|exact IH].
Qed.

Lemma dict_get_set_other (k k0 : str) (v : value) (d : dict) :
  str_eqb k0 k = false -> dict_get k (dict_set k0 v d) = dict_get k d.
Proof.
  intros N. induction d as [|[k' v'] d IH]; simpl.
  - now rewrite N.
  - destruct (str_eqb k' k0) eqn:E; simpl.
    + apply str_eqb_eq in E. subst k'. now rewrite N.
    + destruct (str_eqb k' k); [reflexivity|exact IH].
Qed.

Lemma combine_seq_snoc {A} (l : list A) (x : A) (s : nat) :
  combine (seq s (length (l ++ [x]))) (l ++ [x])
  = combine (seq s (length l)) l ++ [(s + length l, x)].
Proof.
  revert s. induction l as [|y l IH]; intros s; simpl.
  - now rewrite Nat.add_0_r.
  - rewrite IH. simpl. rewrite Nat.add_succ_r. reflexivity.
Qed.

Lemma chunk_document_fold (d language : str) (metadata : option dict)
    (total : nat) (l : list str) :
  let r := fold_left (chunk_document_step d language metadata total)
             (combine (seq 0 (length l)) l) ([], 0%Z) in
  map c_text (fst r) = l
  /\ snd r = Z.of_nat (length (concat l))
  /\ forall i c, nth_error (fst r) i = Some c -> recorded d language total l i c.
Proof.
  induction l as [|x l IH] using rev_ind.
  - simpl. split; [reflexivity|]. split; [reflexivity|].
    intros [|i] c; discriminate.
  - rewrite combine_seq_snoc, fold_left_app. cbn zeta in IH.
    destruct (fold_left _ (combine (seq 0 (length l)) l) _) as [chunks off].
    simpl in IH. destruct IH as (M & O & R). cbn zeta.
    cbn [fold_left chunk_document_step fst snd].
    assert (Len : length chunks = length l)
      by (rewrite <- (length_map c_text chunks); now rewrite M).
    split; [|split].
    + rewrite map_app, M. reflexivity.
    + rewrite O, concat_app, !length_app. simpl. rewrite app_nil_r. lia.
    + intros i c Hn. destruct (Nat.lt_ge_cases i (length chunks)) as [Lt|Ge].
      * rewrite nth_error_app1 in Hn by exact Lt.
        destruct (R i c Hn) as (R1 & R2 & R3 & R4 & R5 & R6 & R7 & R8 & R9).
        repeat split; try assumption.
        rewrite firstn_app. replace (i - length l) with 0 by lia.
        simpl. rewrite app_nil_r. exact R5.
      * rewrite nth_error_app2 in Hn by exact Ge.
        destruct (i - length chunks) as [|k] eqn:K;
          [|destruct k; discriminate].
        assert (i = length l) by lia. subst i.
        injection Hn as <-. unfold recorded. cbn [c_chunk_id c_doc_id c_language
          c_page_num c_start_char c_end_char c_metadata c_text].
        repeat split.
        -- rewrite firstn_app, firstn_all, Nat.sub_diag. simpl.
           rewrite app_nil_r. exact O.
        -- rewrite dict_get_set_other by reflexivity.
           rewrite dict_get_set_other by reflexivity.
           apply dict_get_set_same.
        -- rewrite dict_get_set_other by reflexivity.
           apply dict_get_set_same.
        -- apply dict_get_set_same.
Qed.

(** X13.  [chunk_document] gives one chunk record for each text chunk of
    [chunk_text_recursive], in order.  The record at place [i] has the
    identifier [<doc_id>_chunk_<i as four digits>], the document and the
    language of the call, the page number read off its own text, and
    character offsets that run on from the chunk before: [start_char] is
    the summed length of the text chunks before it (not its position in the
    document) and [end_char] adds its own length.  Its metadata give
    [chunk_index], [total_chunks] and [token_count], whatever the caller's
    metadata said under those keys. *)
Theorem chunk_document_numbers_its_chunks (self : ChunkingAgent) (t d language : str)
    (metadata : option dict) (text_chunks : list str) :
  chunk_text_recursive self t language None None = Some text_chunks ->
  exists chunks,
    chunk_document self t d language metadata = Some chunks
    /\ map c_text chunks = text_chunks
    /\ forall i c, nth_error chunks i = Some c ->
         c_chunk_id c = d ++ cps "_chunk_" ++ pad4 i
         /\ c_doc_id c = d
         /\ c_language c = language
         /\ c_page_num c = extract_page_number (c_text c)
         /\ c_start_char c = Z.of_nat (length (concat (firstn i text_chunks)))
         /\ c_end_char c = (c_start_char c + Z.of_nat (length (c_text c)))%Z
         /\ dict_get (cps "chunk_index") (c_metadata c) = Some (VInt (Z.of_nat i))
         /\ dict_get (cps "total_chunks") (c_metadata c)
            = Some (VInt (Z.of_nat (length text_chunks)))
         /\ dict_get (cps "token_count") (c_metadata c)
            = Some (VInt (count_tokens (c_text c))).
Proof.
  intros E. unfold chunk_document. rewrite E.
  destruct (chunk_document_fold d language metadata (length text_chunks) text_chunks)
    as (M & _ & R).
  eexists. split; [reflexivity|]. split; [exact M|].
  intros i c Hn. exact (R i c Hn).
Qed.

End ChunkRecords.

Lemma chunk_document_numbers_witness :
  exists chunks,
    @Chunking.chunk_document Chunking.word_tokenizer PyStr.ascii_tables
      {| Chunking.chunk_size := 2; Chunking.chunk_overlap := 1 |}
      Chunking.two_paragraphs (PyStr.cps "en_report") (PyStr.cps "en") None
    = Some chunks
    /\ map Chunking.c_start_char chunks
       = map (fun i => Z.of_nat (length (concat (firstn i (map Chunking.c_text chunks)))))
           (seq 0 (length chunks)).
Proof.
  destruct (@chunk_document_numbers_its_chunks Chunking.word_tokenizer
              PyStr.ascii_tables
              {| Chunking.chunk_size := 2; Chunking.chunk_overlap := 1 |}
              Chunking.two_paragraphs (PyStr.cps "en_report") (PyStr.cps "en")
              None _ eq_refl) as (chunks & E & M & R).
  exists chunks. split; [exact E|].
  vm_compute in E. injection E as <-. reflexivity.
Defined.

Section Sentences.
Import PyStr Chunking.

Ltac flatten_pieces :=
  cbn [concat rev app]; rewrite ?rev_app_distr; cbn [rev app];
  rewrite ?app_nil_r, <- ?app_assoc; cbn [app]; reflexivity.

Lemma split_terminators_concat (s cur p w : str) :
  concat (split_terminators_from cur p w s) = rev cur ++ rev p ++ rev w ++ s.
Proof.
  revert cur p w. induction s as [|c s IH]; intros cur p w.
  - cbn [split_terminators_from]. destruct w as [|x w]; flatten_pieces.
  - cbn [split_terminators_from]. destruct w as [|x w]; [destruct p as [|y p]|].
    + destruct (is_terminator c); rewrite IH; flatten_pieces.
    + destruct (is_terminator c); [|destruct (isspace c)]; rewrite IH;
        flatten_pieces.
    + destruct (isspace c); [rewrite IH; flatten_pieces|].
      cbn [concat]. destruct (is_terminator c); rewrite IH; flatten_pieces.
Qed.

Lemma split_terminators_odd (s cur p w : str) :
  Nat.odd (length (split_terminators_from cur p w s)) = true.
Proof.
  revert cur p w. induction s as [|c s IH]; intros cur p w.
  - simpl. destruct w; reflexivity.
  - cbn [split_terminators_from]. destruct w as [|x w]; [destruct p as [|y p]|].
    + destruct (is_terminator c); apply IH.
    + destruct (is_terminator c); [|destruct (isspace c)]; apply IH.
    + destruct (isspace c); [apply IH|].
      cbn [length]. rewrite Nat.odd_succ_succ.
      destruct (is_terminator c); apply IH.
Qed.

Lemma split_cjk_terminators_concat (s cur : str) :
  concat (split_cjk_terminators_from cur s) = rev cur ++ s.
Proof.
  revert cur. induction s as [|c s IH]; intros cur; simpl.
  - reflexivity.
  - destruct (is_cjk_terminator c).
    + cbn [concat]. rewrite IH. reflexivity.
    + rewrite IH. simpl. now rewrite <- app_assoc.
Qed.

Lemma split_cjk_terminators_odd (s cur : str) :
  Nat.odd (length (split_cjk_terminators_from cur s)) = true.
Proof.
  revert cur. induction s as [|c s IH]; intros cur; simpl.
  - reflexivity.
  - destruct (is_cjk_terminator c); [|apply IH].
    cbn [length]. rewrite Nat.odd_succ_succ. apply IH.
Qed.

(** The pairs of [recombine] leave out the last piece of a list of odd
    length. *)
Lemma recombine_odd (l : list str) :
  Nat.odd (length l) = true ->
  concat (recombine l) ++ last l [] = concat l.
Proof.
  assert (G : forall n (l : list str), length l <= n ->
              Nat.odd (length l) = true ->
              concat (recombine l) ++ last l [] = concat l).
  { induction n as [|n IH]; intros l0 L O.
    - destruct l0; [discriminate|simpl in L; lia].
    - destruct l0 as [|a [|b rest]]; [discriminate| |].
      + simpl. now rewrite app_nil_r.
      + cbn [length] in O, L. rewrite Nat.odd_succ_succ in O.
        cbn [recombine concat].
        destruct rest as [|r rest']; [discriminate|].
        change (last (a :: b :: r :: rest') []) with (last (r :: rest') []).
        rewrite <- (IH (r :: rest')) by (try exact O; simpl in *; lia).
        rewrite <- !app_assoc. reflexivity. }
  intros O. exact (G (length l) l (le_n _) O).
Qed.

Lemma concat_filter_length (f : str -> bool) (l : list str) :
  length (concat (filter f l)) <= length (concat l).
Proof.
  induction l as [|x l IH]; simpl; [lia|].
  destruct (f x); simpl; rewrite ?length_app; lia.
Qed.

Lemma split_terminators_no_space (s cur p : str) :
  forallb (fun c => negb (isspace c)) s = true ->
  split_terminators_from cur p [] s = [rev cur ++ rev p ++ s].
Proof.
  revert cur p. induction s as [|c s IH]; intros cur p F.
  - cbn [split_terminators_from]. f_equal. flatten_pieces.
  - simpl in F. apply andb_prop in F as [F1 F2].
    apply negb_true_iff in F1.
    cbn [split_terminators_from]. destruct p as [|y p].
    + destruct (is_terminator c); rewrite IH by exact F2; flatten_pieces.
    + rewrite F1. destruct (is_terminator c); rewrite IH by exact F2;
        flatten_pieces.
Qed.

Lemma terminator_not_space (c : char) :
  is_terminator c = true -> isspace c = false.
Proof.
  unfold is_terminator. rewrite !orb_true_iff, !N.eqb_eq.
  intros [[->| ->]| ->]; reflexivity.
Qed.

Lemma cjk_terminator_not_space (c : char) :
  is_cjk_terminator c = true -> isspace c = false.
Proof.
  unfold is_cjk_terminator. rewrite !orb_true_iff, !N.eqb_eq.
  intros [[[->| ->]| ->]| ->]; reflexivity.
Qed.

Lemma lstrip_with_In (p : char -> bool) (c : char) (s : str) :
  In c s -> p c = false -> In c (lstrip_with p s).
Proof.
  intros I N. induction s as [|x s IH]; [destruct I|]. simpl.
  destruct (p x) eqn:E; [|exact I].
  destruct I as [->|I]; [congruence|now apply IH].
Qed.

(** A text that holds a character other than white space is not blank. *)
Lemma strip_not_blank (c : char) (s : str) :
  In c s -> isspace c = false -> nonempty (strip s) = true.
Proof.
  intros I N.
  assert (J : In c (strip s)).
  { unfold strip, strip_with, rstrip_with. apply in_rev. rewrite rev_involutive.
    apply lstrip_with_In; [|exact N]. apply -> in_rev.
    now apply lstrip_with_In. }
  destruct (strip s); [destruct J|reflexivity].
Qed.

Lemma filter_all {A} (p : A -> bool) (l : list A) :
  Forall (fun x => p x = true) l -> filter p l = l.
Proof.
  induction 1 as [|x l Px F IH]; simpl; [reflexivity|]. now rewrite Px, IH.
Qed.

(** Reading a part of the text that holds no separator and does not end
    in a terminator. *)
Lemma split_terminators_body (body : str) :
  forall cur p s,
  has_separator body = false ->
  (p <> [] -> starts_with isspace body = false) ->
  ends_with is_terminator body = false ->
  (body = [] -> p = []) ->
  split_terminators_from cur p [] (body ++ s)
  = split_terminators_from (rev body ++ p ++ cur) [] [] s.
Proof.
  induction body as [|c body IH]; intros cur p s Sep St En Em.
  - rewrite (Em eq_refl). reflexivity.
  - assert (Sep' : has_separator body = false).
    { simpl in Sep. destruct body; [reflexivity|].
      now apply orb_false_iff in Sep as [_ Sep]. }
    assert (En' : ends_with is_terminator body = false).
    { simpl in En. now destruct body. }
    assert (Next : is_terminator c = true ->
                   body <> [] /\ starts_with isspace body = false).
    { intros Tc. destruct body as [|d body'].
      - simpl in En. congruence.
      - split; [discriminate|]. simpl in Sep. rewrite Tc in Sep. simpl in Sep.
        now apply orb_false_iff in Sep as [Sep _]. }
    cbn [app split_terminators_from]. destruct p as [|y p].
    + destruct (is_terminator c) eqn:Tc.
      * destruct (Next eq_refl) as [Ne St'].
        rewrite IH by (auto; intros; contradiction).
        cbn [rev app]. now rewrite <- !app_assoc.
      * rewrite IH by (auto; intros; contradiction).
        cbn [rev app]. now rewrite <- !app_assoc.
    + destruct (is_terminator c) eqn:Tc.
      * destruct (Next eq_refl) as [Ne St'].
        rewrite IH by (auto; intros; contradiction).
        cbn [rev app]. now rewrite <- !app_assoc.
      * assert (Sc : isspace c = false) by (apply St; discriminate).
        rewrite Sc.
        rewrite IH by (auto; intros; contradiction).
        cbn [rev app]. now rewrite <- !app_assoc.
Qed.

(** Reading a text without separator to its end. *)
Lemma split_terminators_no_separator (x : str) :
  forall cur p,
  has_separator x = false ->
  (p <> [] -> starts_with isspace x = false) ->
  split_terminators_from cur p [] x = [rev cur ++ rev p ++ x].
Proof.
  induction x as [|c x IH]; intros cur p Sep St.
  - cbn [split_terminators_from]. f_equal; try flatten_pieces.
  - assert (Sep' : has_separator x = false).
    { simpl in Sep. destruct x; [reflexivity|].
      now apply orb_false_iff in Sep as [_ Sep]. }
    assert (Next : is_terminator c = true -> starts_with isspace x = false).
    { intros Tc. destruct x as [|d x']; [reflexivity|].
      simpl in Sep. rewrite Tc in Sep. simpl in Sep.
      now apply orb_false_iff in Sep as [Sep _]. }
    cbn [split_terminators_from]. destruct p as [|y p].
    + destruct (is_terminator c) eqn:Tc.
      * rewrite IH by auto. f_equal; try flatten_pieces.
      * rewrite IH by (auto; intros; contradiction). f_equal; try flatten_pieces.
    + destruct (is_terminator c) eqn:Tc.
      * rewrite IH by auto. f_equal; try flatten_pieces.
      * assert (Sc : isspace c = false) by (apply St; discriminate).
        rewrite Sc. rewrite IH by (auto; intros; contradiction).
        f_equal; try flatten_pieces.
Qed.

Lemma split_terminators_run (terms : str) :
  forall cur p s,
  forallb is_terminator terms = true ->
  split_terminators_from cur p [] (terms ++ s)
  = split_terminators_from cur (rev terms ++ p) [] s.
Proof.
  induction terms as [|c terms IH]; intros cur p s F; [reflexivity|].
  simpl in F. apply andb_prop in F as [Tc F].
  cbn [app split_terminators_from]. rewrite Tc.
  destruct p as [|y p]; rewrite IH by exact F; cbn [rev];
    now rewrite <- app_assoc.
Qed.

Lemma split_terminators_space (ws : str) :
  forall cur p w s,
  p <> [] ->
  forallb isspace ws = true ->
  split_terminators_from cur p w (ws ++ s)
  = split_terminators_from cur p (rev ws ++ w) s.
Proof.
  induction ws as [|c ws IH]; intros cur p w s P F; [reflexivity|].
  simpl in F. apply andb_prop in F as [Sc F].
  assert (Tc : is_terminator c = false).
  { destruct (is_terminator c) eqn:E; [|reflexivity].
    apply terminator_not_space in E. congruence. }
  cbn [app split_terminators_from].
  destruct w as [|x w]; [destruct p as [|y p]; [contradiction|]|].
  - rewrite Tc, Sc. rewrite IH by (auto; discriminate). cbn [rev].
    now rewrite <- app_assoc.
  - rewrite Sc. rewrite IH by auto. cbn [rev]. now rewrite <- app_assoc.
Qed.

Lemma split_terminators_cut (cur p w rest : str) :
  w <> [] ->
  starts_with isspace rest = false ->
  split_terminators_from cur p w rest
  = rev cur :: (rev p ++ rev w) :: split_terminators_from [] [] [] rest.
Proof.
  intros W St. destruct w as [|x w]; [contradiction|].
  destruct rest as [|c rest]; [reflexivity|].
  simpl in St. cbn [split_terminators_from]. rewrite St. reflexivity.
Qed.

Lemma split_cjk_terminators_body (body : str) :
  forall cur c rest,
  existsb is_cjk_terminator body = false ->
  is_cjk_terminator c = true ->
  split_cjk_terminators_from cur (body ++ c :: rest)
  = (rev cur ++ body) :: [c] :: split_cjk_terminators_from [] rest.
Proof.
  induction body as [|x body IH]; intros cur c rest N Tc.
  - simpl. rewrite Tc. now rewrite app_nil_r.
  - simpl in N. apply orb_false_iff in N as [Nx N].
    cbn [app split_cjk_terminators_from]. rewrite Nx.
    rewrite IH by auto. cbn [rev]. now rewrite <- app_assoc.
Qed.

Lemma split_cjk_terminators_none (x : str) :
  forall cur,
  existsb is_cjk_terminator x = false ->
  split_cjk_terminators_from cur x = [rev cur ++ x].
Proof.
  induction x as [|c x IH]; intros cur N.
  - simpl. now rewrite app_nil_r.
  - simpl in N. apply orb_false_iff in N as [Nc N].
    cbn [split_cjk_terminators_from]. rewrite Nc.
    rewrite IH by exact N. cbn [rev]. now rewrite <- app_assoc.
Qed.

(** Every piece paired with its separator holds a terminator, so none of
    the sentences is blank. *)
Lemma split_terminators_not_blank (s : str) :
  forall cur p w,
  forallb is_terminator p = true ->
  (w <> [] -> p <> []) ->
  Forall (fun x => nonempty (strip x) = true)
    (recombine (split_terminators_from cur p w s)).
Proof.
  assert (Sentence : forall cur p w, forallb is_terminator p = true -> p <> [] ->
            nonempty (strip (rev cur ++ rev p ++ rev w)) = true).
  { intros cur p w F P. destruct p as [|y p]; [contradiction|].
    simpl in F. apply andb_prop in F as [Ty _].
    apply strip_not_blank with (c := y); [|now apply terminator_not_space].
    apply in_or_app. right. apply in_or_app. left. apply -> in_rev. now left. }
  induction s as [|c s IH]; intros cur p w F P.
  - cbn [split_terminators_from]. destruct w as [|x w]; [constructor|].
    cbn [recombine]. constructor; [|constructor].
    apply Sentence; [exact F|]. apply P. discriminate.
  - cbn [split_terminators_from]. destruct w as [|x w]; [destruct p as [|y p]|].
    + destruct (is_terminator c) eqn:Tc; apply IH; simpl; auto;
        try (now rewrite Tc); discriminate.
    + destruct (is_terminator c) eqn:Tc; [|destruct (isspace c)]; apply IH;
        auto; try discriminate.
      cbn [forallb]. now rewrite Tc.
    + destruct (isspace c); [apply IH; auto; intros; apply P; discriminate|].
      cbn [recombine]. constructor.
      * apply Sentence; [exact F|]. apply P. discriminate.
      * destruct (is_terminator c) eqn:Tc; apply IH; simpl; auto;
          try (now rewrite Tc); discriminate.
Qed.

Lemma split_cjk_terminators_not_blank (s : str) :
  forall cur,
  Forall (fun x => nonempty (strip x) = true)
    (recombine (split_cjk_terminators_from cur s)).
Proof.
  induction s as [|c s IH]; intros cur; cbn [split_cjk_terminators_from].
  - constructor.
  - destruct (is_cjk_terminator c) eqn:Tc; [|apply IH].
    cbn [recombine]. constructor; [|apply IH].
    apply strip_not_blank with (c := c); [|now apply cjk_terminator_not_space].
    apply in_or_app. right. now left.
Qed.

(** The blank filter of [split_by_sentences] never removes a sentence. *)
Lemma split_by_sentences_pairs (t language : str) :
  split_by_sentences t language
  = recombine (if str_eqb language (cps "zh")
               then split_cjk_terminators_from [] t
               else split_terminators_from [] [] [] t).
Proof.
  unfold split_by_sentences. apply filter_all.
  destruct (str_eqb language (cps "zh")).
  - apply split_cjk_terminators_not_blank.
  - apply split_terminators_not_blank; [reflexivity|]. intros C. contradiction.
Qed.

(** X14.  [split_by_sentences] cuts the text after each separator and
    drops what follows the last one.  For a language other than [zh] a
    separator is a run of terminators followed by a run of white space: a
    text that starts with a part free of separators and not ending in a
    terminator, then a separator, then a rest that does not start with
    white space, gives that part with its separator as first sentence,
    followed by the sentences of the rest; a text without a terminator
    directly before white space gives no sentence at all, whatever it
    holds.  For [zh] the separator is one of the four CJK terminators, in
    the same way.  In every case the sentences are consecutive parts of the
    text from its start, none of them blank, and the part after the last
    separator is in no sentence. *)
Theorem split_by_sentences_leaves_out_the_tail (t language : str) :
  (forall body terms ws rest,
      str_eqb language (cps "zh") = false ->
      has_separator body = false ->
      ends_with is_terminator body = false ->
      nonempty terms = true -> forallb is_terminator terms = true ->
      nonempty ws = true -> forallb isspace ws = true ->
      starts_with isspace rest = false ->
      split_by_sentences (body ++ terms ++ ws ++ rest) language
      = (body ++ terms ++ ws) :: split_by_sentences rest language)
  /\ (str_eqb language (cps "zh") = false ->
      has_separator t = false ->
      split_by_sentences t language = [])
  /\ (forall body c rest,
        existsb is_cjk_terminator body = false ->
        is_cjk_terminator c = true ->
        split_by_sentences (body ++ c :: rest) (cps "zh")
        = (body ++ [c]) :: split_by_sentences rest (cps "zh"))
  /\ (existsb is_cjk_terminator t = false ->
      split_by_sentences t (cps "zh") = [])
  /\ (exists tail,
        concat (split_by_sentences t language) ++ tail = t
        /\ Forall (fun s => nonempty (strip s) = true)
             (split_by_sentences t language)).
Proof.
  split; [|split; [|split; [|split]]].
  - intros body terms ws rest Z Sep En Nt Ft Nw Fw St.
    rewrite !split_by_sentences_pairs, Z.
    rewrite split_terminators_body; auto; try (intros C; contradiction).
    rewrite split_terminators_run by exact Ft.
    assert (P : rev terms ++ [] <> []).
    { destruct terms; [discriminate|]. rewrite app_nil_r. simpl.
      intros C. apply app_eq_nil in C as [_ C]. discriminate. }
    rewrite split_terminators_space by (exact P || exact Fw).
    rewrite split_terminators_cut.
    + cbn [recombine]. rewrite !app_nil_r, !rev_involutive.
      rewrite <- ?app_assoc. reflexivity.
    + destruct ws; [discriminate|]. rewrite app_nil_r. simpl.
      intros C. apply app_eq_nil in C as [_ C]. discriminate.
    + exact St.
  - intros Z Sep. rewrite split_by_sentences_pairs, Z.
    rewrite split_terminators_no_separator by (auto; intros C; contradiction).
    reflexivity.
  - intros body c rest N Tc. rewrite !split_by_sentences_pairs.
    change (str_eqb (cps "zh") (cps "zh")) with true. cbv iota.
    rewrite split_cjk_terminators_body by auto. reflexivity.
  - intros N. rewrite split_by_sentences_pairs.
    change (str_eqb (cps "zh") (cps "zh")) with true. cbv iota.
    now rewrite split_cjk_terminators_none.
  - set (pieces := if str_eqb language (cps "zh")
                   then split_cjk_terminators_from [] t
                   else split_terminators_from [] [] [] t).
    exists (last pieces []). split.
    + rewrite split_by_sentences_pairs. fold pieces.
      rewrite recombine_odd.
      * unfold pieces. destruct (str_eqb language (cps "zh")).
        -- now rewrite split_cjk_terminators_concat.
        -- now rewrite split_terminators_concat.
      * unfold pieces. destruct (str_eqb language (cps "zh")).
        -- apply split_cjk_terminators_odd.
        -- apply split_terminators_odd.
    + rewrite split_by_sentences_pairs.
      destruct (str_eqb language (cps "zh")).
      * apply split_cjk_terminators_not_blank.
      * apply split_terminators_not_blank; [reflexivity|]. intros C. contradiction.
Qed.

End Sentences.

(** ** Fusion by either method *)

Section FusedIdentifiers.
Import PyStr Retriever.
Context `{F : FloatOps} `{B : @BM25 F}.

Lemma map_set_In {V} (k k0 : value) (v : V) (m : list (value * V)) :
  In k (map fst (map_set k0 v m)) <-> In k (map fst m) \/ k = k0.
Proof.
  rewrite map_set_keys.
  destruct (existsb (fun k' => value_eqb k' k0) (map fst m)) eqn:E.
  - split; [now left|]. intros [I| ->]; [exact I|].
    apply existsb_exists in E as (k' & I & Q).
    apply value_eqb_eq in Q. now subst.
  - rewrite in_app_iff. simpl. intuition.
Qed.

Lemma keyed_values (m : list (value * RetrievalResult)) :
  keyed m -> map chunk_id (map snd m) = map fst m.
Proof.
  intros [Fm _]. induction m as [|[k r] m IH]; simpl; [reflexivity|].
  apply Forall_cons_iff in Fm as [Px Fm']. simpl in Px.
  now rewrite Px, IH.
Qed.

(** A loop that files every item under its own identifier. *)
Section Filing.
Variables (X : Type) (key : X -> value).
Variable step : list (value * RetrievalResult) -> X -> list (value * RetrievalResult).
Hypothesis step_keyed : forall m x, keyed m -> keyed (step m x).
Hypothesis step_keys :
  forall m x k, In k (map fst (step m x)) <-> In k (map fst m) \/ k = key x.

Lemma filing_keyed (l : list X) :
  forall m, keyed m -> keyed (fold_left step l m).
Proof.
  induction l as [|x l IH]; intros m K; simpl; [exact K|].
  apply IH, step_keyed, K.
Qed.

Lemma filing_keys (l : list X) :
  forall m k, In k (map fst (fold_left step l m))
              <-> In k (map fst m) \/ In k (map key l).
Proof.
  induction l as [|x l IH]; intros m k; simpl; [intuition|].
  rewrite IH, step_keys. intuition.
Qed.

End Filing.

Lemma add_dense_keyed (w : float) m x : keyed m -> keyed (add_dense w m x).
Proof. intros K. unfold add_dense. now apply keyed_set. Qed.

Lemma add_dense_keys (w : float) m x k :
  In k (map fst (add_dense w m x)) <-> In k (map fst m) \/ k = chunk_id x.
Proof. unfold add_dense. apply map_set_In. Qed.

Lemma add_sparse_keyed (w : float) m x : keyed m -> keyed (add_sparse w m x).
Proof.
  intros K. unfold add_sparse.
  destruct (map_get (chunk_id x) m) as [r|] eqn:G.
  - apply keyed_set; [|exact K]. simpl. now apply (map_get_keyed _ _ m K).
  - now apply keyed_set.
Qed.

Lemma add_sparse_keys (w : float) m x k :
  In k (map fst (add_sparse w m x)) <-> In k (map fst m) \/ k = chunk_id x.
Proof.
  unfold add_sparse. destruct (map_get (chunk_id x) m); apply map_set_In.
Qed.

Lemma add_dense_rrf_keyed m (x : nat * RetrievalResult) :
  keyed m -> keyed (add_dense_rrf m x).
Proof. destruct x as [rank r]. intros K. now apply keyed_set. Qed.

Lemma add_dense_rrf_keys m (x : nat * RetrievalResult) k :
  In k (map fst (add_dense_rrf m x)) <-> In k (map fst m) \/ k = chunk_id (snd x).
Proof. destruct x as [rank r]. apply map_set_In. Qed.

Lemma add_sparse_rrf_keyed m (x : nat * RetrievalResult) :
  keyed m -> keyed (add_sparse_rrf m x).
Proof.
  destruct x as [rank x]. intros K. unfold add_sparse_rrf.
  destruct (map_get (chunk_id x) m) as [r|] eqn:G.
  - apply keyed_set; [|exact K]. simpl. now apply (map_get_keyed _ _ m K).
  - now apply keyed_set.
Qed.

Lemma add_sparse_rrf_keys m (x : nat * RetrievalResult) k :
  In k (map fst (add_sparse_rrf m x)) <-> In k (map fst m) \/ k = chunk_id (snd x).
Proof.
  destruct x as [rank x]. unfold add_sparse_rrf.
  destruct (map_get (chunk_id x) m); apply map_set_In.
Qed.

Lemma enumerate_results {A} (l : list A) : map snd (enumerate l) = l.
Proof. apply enumerate_items. Qed.

Lemma keyed_nil : keyed (@nil (value * RetrievalResult)).
Proof. split; constructor. Qed.

(** The result map of [fuse_results] before it is sorted. *)
Lemma fused_map (self : RetrieverAgent) (dense sparse : list RetrievalResult)
    (method : str) :
  exists m,
    fuse_results self dense sparse method = sorted_by_score_desc (map snd m)
    /\ keyed m
    /\ forall k, In k (map fst m)
                 <-> In k (map chunk_id dense) \/ In k (map chunk_id sparse).
Proof.
  unfold fuse_results. destruct (str_eqb method (cps "weighted")).
  - eexists. split; [reflexivity|]. split.
    + apply (filing_keyed _ _ (add_sparse_keyed _)).
      apply (filing_keyed _ _ (add_dense_keyed _)).
      apply keyed_nil.
    + intros k.
      rewrite (filing_keys _ chunk_id _ (add_sparse_keys _)).
      rewrite (filing_keys _ chunk_id _ (add_dense_keys _)).
      simpl. intuition.
  - eexists. split; [reflexivity|]. split.
    + apply (filing_keyed _ _ add_sparse_rrf_keyed).
      apply (filing_keyed _ _ add_dense_rrf_keyed).
      apply keyed_nil.
    + intros k.
      rewrite (filing_keys _ (fun x => chunk_id (snd x)) _ add_sparse_rrf_keys).
      rewrite (filing_keys _ (fun x => chunk_id (snd x)) _ add_dense_rrf_keys).
      rewrite <- !(map_map snd chunk_id), !enumerate_results.
      simpl. intuition.
Qed.

(** The fused list has distinct identifiers and is in descending order
    of score. *)
Lemma fuse_results_one_identifier_each (self : RetrieverAgent)
    (dense sparse : list RetrievalResult) (method : str) :
  (forall a b, fle a b = true \/ fle b a = true) ->
  (forall a b c, fle a b = true -> fle b c = true -> fle a c = true) ->
  NoDup (map chunk_id (fuse_results self dense sparse method))
  /\ StronglySorted score_ge (fuse_results self dense sparse method).
Proof.
  intros total trans.
  destruct (fused_map self dense sparse method) as (m & E & K & _).
  rewrite E. unfold sorted_by_score_desc. split.
  - apply (Permutation_NoDup (l := map fst m)); [|exact (proj2 K)].
    rewrite <- (keyed_values m K). apply Permutation_map.
    apply Permutation_sym, sort_by_perm.
  - unfold score_ge.
    apply (sort_by_sorted _ (fun x y : RetrievalResult => fle (score y) (score x))).
    + intros a b. apply total.
    + intros a b c Hab Hbc. eapply trans; eauto.
Qed.

(** X15.  Whatever the method, [fuse_results] returns one result per chunk
    identifier: no identifier comes out twice, every identifier of a dense
    or a sparse result comes out, and no other; so the fused list is never
    longer than the two lists together. *)
Theorem fuse_results_one_per_identifier (self : RetrieverAgent)
    (dense sparse : list RetrievalResult) (method : str) :
  let fused := fuse_results self dense sparse method in
  NoDup (map chunk_id fused)
  /\ (forall c, In c (map chunk_id fused)
                <-> In c (map chunk_id dense) \/ In c (map chunk_id sparse))
  /\ length fused <= length dense + length sparse.
Proof.
  intros fused.
  destruct (fused_map self dense sparse method) as (m & E & K & Keys).
  assert (P : Permutation (map chunk_id fused) (map fst m)).
  { unfold fused. rewrite E. unfold sorted_by_score_desc.
    rewrite <- (keyed_values m K). apply Permutation_map, sort_by_perm. }
  assert (ND : NoDup (map chunk_id fused)).
  { apply (Permutation_NoDup (Permutation_sym P)). exact (proj2 K). }
  assert (Cover : forall c, In c (map chunk_id fused)
                   <-> In c (map chunk_id dense) \/ In c (map chunk_id sparse)).
  { intros c. rewrite <- Keys. split; apply Permutation_in;
      [exact P|exact (Permutation_sym P)]. }
  split; [exact ND|]. split; [exact Cover|].
  rewrite <- (length_map chunk_id fused).
  rewrite <- (length_map chunk_id dense), <- (length_map chunk_id sparse).
  rewrite <- length_app. apply NoDup_incl_length; [exact ND|].
  intros c Hc. apply in_or_app. now apply Cover.
Qed.

End FusedIdentifiers.

(** ** Reciprocal rank fusion *)

Section ReciprocalRank.
Import PyStr Retriever.
Context `{F : FloatOps} `{B : @BM25 F}.

Lemma rrf_dense_absent (c : value) (l : list (nat * RetrievalResult)) :
  forall m, filter (carries c) l = [] ->
  map_get c (fold_left add_dense_rrf l m) = map_get c m.
Proof.
  induction l as [|[i x] l IH]; intros m E; simpl; [reflexivity|].
  simpl in E. unfold carries in E at 1. simpl in E.
  destruct (has_chunk_id c x) eqn:Hx; [discriminate|].
  rewrite IH by exact E. now apply map_get_set_other.
Qed.

Lemma rrf_dense_single (c : value) (i : nat) (d : RetrievalResult)
    (l : list (nat * RetrievalResult)) :
  forall m, filter (carries c) l = [(i, d)] ->
  map_get c (fold_left add_dense_rrf l m)
  = Some (rescored d (fdiv_one (60 + Z.of_nat i + 1))).
Proof.
  induction l as [|[j x] l IH]; intros m E; simpl in *; [discriminate|].
  unfold carries in E at 1. simpl in E.
  destruct (has_chunk_id c x) eqn:Hx.
  - injection E as -> -> E. rewrite rrf_dense_absent by exact E.
    unfold has_chunk_id in Hx. apply value_eqb_eq in Hx.
    rewrite Hx. apply map_get_set_same.
  - now apply IH.
Qed.

Lemma rrf_sparse_absent (c : value) (l : list (nat * RetrievalResult)) :
  forall m, filter (carries c) l = [] ->
  map_get c (fold_left add_sparse_rrf l m) = map_get c m.
Proof.
  induction l as [|[i x] l IH]; intros m E; simpl; [reflexivity|].
  simpl in E. unfold carries in E at 1. simpl in E.
  destruct (has_chunk_id c x) eqn:Hx; [discriminate|].
  rewrite IH by exact E.
  destruct (map_get (chunk_id x) m); now apply map_get_set_other.
Qed.

Lemma rrf_sparse_single (c : value) (j : nat) (s : RetrievalResult)
    (l : list (nat * RetrievalResult)) :
  forall m, filter (carries c) l = [(j, s)] ->
  map_get c (fold_left add_sparse_rrf l m) =
    match map_get c m with
    | Some r => Some (rescored r (fadd (score r) (fdiv_one (60 + Z.of_nat j + 1))))
    | None => Some (rescored s (fdiv_one (60 + Z.of_nat j + 1)))
    end.
Proof.
  induction l as [|[i x] l IH]; intros m E; simpl in *; [discriminate|].
  unfold carries in E at 1. simpl in E.
  destruct (has_chunk_id c x) eqn:Hx.
  - injection E as -> -> E. rewrite rrf_sparse_absent by exact E.
    unfold has_chunk_id in Hx. apply value_eqb_eq in Hx. rewrite Hx.
    destruct (map_get c m); apply map_get_set_same.
  - rewrite IH by exact E.
    destruct (map_get (chunk_id x) m); now rewrite map_get_set_other.
Qed.

Lemma rrf_fused_with (self : RetrieverAgent)
    (dense sparse : list RetrievalResult) (method : str) (c : value) :
  str_eqb method (cps "weighted") = false ->
  Permutation
    (results_with c (fuse_results self dense sparse method))
    (match map_get c (fold_left add_sparse_rrf (enumerate sparse)
                        (fold_left add_dense_rrf (enumerate dense) []))
     with
     | Some r => [r]
     | None => []
     end).
Proof.
  intros M. unfold fuse_results. rewrite M.
  unfold sorted_by_score_desc, results_with. rewrite sort_by_filter.
  fold (results_with c (map snd (fold_left add_sparse_rrf (enumerate sparse)
                                   (fold_left add_dense_rrf (enumerate dense) [])))).
  rewrite results_with_values; [reflexivity|].
  apply (filing_keyed _ _ add_sparse_rrf_keyed).
  apply (filing_keyed _ _ add_dense_rrf_keyed).
  apply keyed_nil.
Qed.

(** X16.  Every method other than ["weighted"] is reciprocal rank fusion:
    a chunk identifier carried by the dense result at place [i] only and by
    the sparse result at place [j] only (places counted from 0) comes out
    once, as the dense result with score 1/(60+i+1) + 1/(60+j+1); an
    identifier of one list only comes out with that list's term alone; the
    scores the searches gave play no part; and the fused list is in
    descending order of the new score. *)
Theorem rrf_fusion_scores_and_order (self : RetrieverAgent)
    (dense sparse : list RetrievalResult) (method : str) :
  str_eqb method (cps "weighted") = false ->
  (forall a b, fle a b = true \/ fle b a = true) ->
  (forall a b c, fle a b = true -> fle b c = true -> fle a c = true) ->
  let fused := fuse_results self dense sparse method in
  (forall c i d j s,
      ranked_with c dense = [(i, d)] -> ranked_with c sparse = [(j, s)] ->
      results_with c fused =
        [rescored d (fadd (fdiv_one (60 + Z.of_nat i + 1))
                          (fdiv_one (60 + Z.of_nat j + 1)))])
  /\ (forall c i d,
        ranked_with c dense = [(i, d)] -> ranked_with c sparse = [] ->
        results_with c fused = [rescored d (fdiv_one (60 + Z.of_nat i + 1))])
  /\ (forall c j s,
        ranked_with c dense = [] -> ranked_with c sparse = [(j, s)] ->
        results_with c fused = [rescored s (fdiv_one (60 + Z.of_nat j + 1))])
  /\ StronglySorted score_ge fused.
Proof.
  intros M total trans fused. split; [|split; [|split]].
  - intros c i d j s Hd Hs.
    pose proof (rrf_fused_with self dense sparse method c M) as P.
    rewrite (rrf_sparse_single _ _ _ _ _ Hs), (rrf_dense_single _ _ _ _ _ Hd) in P.
    symmetry in P. now apply Permutation_length_1_inv in P.
  - intros c i d Hd Hs.
    pose proof (rrf_fused_with self dense sparse method c M) as P.
    rewrite (rrf_sparse_absent _ _ _ Hs), (rrf_dense_single _ _ _ _ _ Hd) in P.
    symmetry in P. now apply Permutation_length_1_inv in P.
  - intros c j s Hd Hs.
    pose proof (rrf_fused_with self dense sparse method c M) as P.
    rewrite (rrf_sparse_single _ _ _ _ _ Hs), (rrf_dense_absent _ _ _ Hd) in P.
    simpl in P. symmetry in P. now apply Permutation_length_1_inv in P.
  - unfold fused, fuse_results. rewrite M.
    unfold sorted_by_score_desc, score_ge.
    apply (sort_by_sorted _ (fun x y : RetrievalResult => fle (score y) (score x))).
    + intros a b. apply total.
    + intros a b c Hab Hbc. eapply trans; eauto.
Qed.

End ReciprocalRank.

(** ** What the sparse search returns *)

Section RankedSparse.
Import PyStr Retriever.
Context `{F : FloatOps} `{B : @BM25 F} `{U : UnicodeData}.

(** Sorting by a comparison that is transitive on the elements at hand. *)
Section SortOn.
Variables (A : Type) (before : A -> A -> bool) (P : A -> Prop).
Hypothesis before_total : forall a b, before a b = true \/ before b a = true.
Hypothesis before_trans :
  forall a b c, P a -> P b -> P c ->
  before a b = true -> before b c = true -> before a c = true.

Lemma insert_by_sorted_on (x : A) (l : list A) :
  P x -> Forall P l ->
  StronglySorted (fun a b => before a b = true) l ->
  StronglySorted (fun a b => before a b = true) (insert_by before x l).
Proof.
  intros Px Pl S. induction S as [|z l S IH Fz]; simpl.
  - repeat constructor.
  - apply Forall_cons_iff in Pl as [Pz Pl].
    destruct (before x z) eqn:E.
    + constructor; [now constructor|]. constructor; [exact E|].
      rewrite Forall_forall in *. intros y Hy.
      apply (before_trans x z y); auto.
    + constructor; [now apply IH|].
      rewrite Forall_forall in *. intros y Hy.
      apply insert_by_In in Hy as [->|Hy]; [|now apply Fz].
      destruct (before_total x z); congruence.
Qed.

Lemma sort_by_sorted_on (l : list A) :
  Forall P l -> StronglySorted (fun a b => before a b = true) (sort_by before l).
Proof.
  induction l as [|a l IH]; simpl; intros Pl; [constructor|].
  apply Forall_cons_iff in Pl as [Pa Pl].
  apply insert_by_sorted_on; auto.
  rewrite Forall_forall in *. intros y Hy. apply sort_by_In in Hy. auto.
Qed.

End SortOn.

Lemma StronglySorted_app {A} (R : A -> A -> Prop) (l1 l2 : list A) :
  StronglySorted R l1 -> StronglySorted R l2 ->
  (forall x y, In x l1 -> In y l2 -> R x y) ->
  StronglySorted R (l1 ++ l2).
Proof.
  intros S1 S2 C. induction S1 as [|x l1 S1 IH Fx]; simpl; [exact S2|].
  constructor.
  - apply IH. intros a b Ha Hb. apply C; [now right|exact Hb].
  - apply Forall_app. split; [exact Fx|].
    rewrite Forall_forall. intros y Hy. apply C; [now left|exact Hy].
Qed.

Lemma flat_map_sorted {A C} (R : A -> A -> Prop) (R' : C -> C -> Prop)
    (g : A -> list C) (l : list A) :
  (forall i, StronglySorted R' (g i)) ->
  (forall i j x y, R i j -> In x (g i) -> In y (g j) -> R' x y) ->
  StronglySorted R l -> StronglySorted R' (flat_map g l).
Proof.
  intros G Cross S. induction S as [|i l S IH Fi]; simpl; [constructor|].
  apply StronglySorted_app; [apply G|exact IH|].
  intros x y Hx Hy. apply in_flat_map in Hy as (j & Hj & Hy).
  rewrite Forall_forall in Fi. eapply Cross; eauto.
Qed.

Lemma StronglySorted_take {A} (R : A -> A -> Prop) (l : list A) (k : Z) :
  StronglySorted R l -> StronglySorted R (take l k).
Proof. intros S. unfold take. destruct (0 <=? k)%Z; now apply StronglySorted_firstn. Qed.

Lemma ranked_indices_sorted (scores : list float) :
  (forall a b, fle a b = true \/ fle b a = true) ->
  (forall a b c, fle a b = true -> fle b c = true -> fle a c = true) ->
  StronglySorted
    (fun i j =>
       match nth_error scores j, nth_error scores i with
       | Some a, Some b => fle a b
       | _, _ => true
       end = true)
    (ranked_indices scores).
Proof.
  intros total trans. unfold ranked_indices.
  apply sort_by_sorted_on with (P := fun i => i < length scores).
  - intros i j. destruct (nth_error scores i), (nth_error scores j); auto.
  - intros i j k Hi Hj Hk.
    destruct (nth_error scores i) as [si|] eqn:Ei;
      [|apply nth_error_None in Ei; lia].
    destruct (nth_error scores j) as [sj|] eqn:Ej;
      [|apply nth_error_None in Ej; lia].
    destruct (nth_error scores k) as [sk|] eqn:Ek;
      [|apply nth_error_None in Ek; lia].
    intros X Y. eapply trans; eauto.
  - rewrite Forall_forall. intros i Hi. apply in_seq in Hi. lia.
Qed.

(** What the loop over [top_indices] has collected when it ends without
    an error. *)
Lemma collect_results_from (self : RetrieverAgent) (f : option dict)
    (scores : list float) (idxs : list nat) :
  forall (acc : option (list RetrievalResult)) (results : list RetrievalResult),
  fold_left
    (fun acc idx =>
       match acc with
       | None => None
       | Some results =>
           match nth_error (bm25_documents self) idx, nth_error scores idx with
           | Some doc, Some s =>
               if passes_filter self f doc
               then Some (results ++ [result_of_document doc s])
               else Some results
           | _, _ => None
           end
       end)
    idxs acc = Some results ->
  exists before,
    acc = Some before
    /\ results
       = before ++
         flat_map
           (fun idx =>
              match nth_error (bm25_documents self) idx, nth_error scores idx with
              | Some doc, Some s =>
                  if passes_filter self f doc then [result_of_document doc s] else []
              | _, _ => []
              end)
           idxs.
Proof.
  induction idxs as [|i idxs IH]; intros acc results; simpl.
  - intros ->. exists results. now rewrite app_nil_r.
  - intros E. apply IH in E as (before & E1 & E2).
    destruct acc as [acc|]; [|discriminate].
    exists acc. split; [reflexivity|].
    destruct (nth_error (bm25_documents self) i) as [doc|];
      [destruct (nth_error scores i) as [s|]|]; try discriminate.
    destruct (passes_filter self f doc); injection E1 as <-.
    + now rewrite <- app_assoc in E2.
    + exact E2.
Qed.

Lemma collect_results_some (self : RetrieverAgent) (f : option dict)
    (scores : list float) (idxs : list nat) (results : list RetrievalResult) :
  collect_results self f scores idxs = Some results ->
  results
  = flat_map
      (fun idx =>
         match nth_error (bm25_documents self) idx, nth_error scores idx with
         | Some doc, Some s =>
             if passes_filter self f doc then [result_of_document doc s] else []
         | _, _ => []
         end)
      idxs.
Proof.
  intros E. apply collect_results_from in E as (before & E1 & E2).
  injection E1 as <-. exact E2.
Qed.

(** X17.  Whatever the keyword index answers, [sparse_search] returns
    results in descending order of score, at most [top_k] of them for a
    [top_k] that is not negative, and each is a document of the index that
    passes the metadata filter, with the fields of that document. *)
Theorem sparse_search_results_are_ranked (self : RetrieverAgent)
    (scroll : outcome (list dict)) (query : str) (top_k : Z) (f : option dict) :
  (forall a b, fle a b = true \/ fle b a = true) ->
  (forall a b c, fle a b = true -> fle b c = true -> fle a c = true) ->
  let out := sparse_search self scroll query top_k f in
  StronglySorted score_ge (fst out)
  /\ ((0 <= top_k)%Z -> (Z.of_nat (length (fst out)) <= top_k)%Z)
  /\ (forall r, In r (fst out) ->
        exists doc, In doc (bm25_documents (snd out))
                    /\ passes_filter (snd out) f doc = true
                    /\ r = result_of_document doc (score r)).
Proof.
  intros total trans out.
  assert (Empty : forall self', out = ([], self') ->
            StronglySorted score_ge (fst out)
            /\ ((0 <= top_k)%Z -> (Z.of_nat (length (fst out)) <= top_k)%Z)
            /\ (forall r, In r (fst out) ->
                  exists doc, In doc (bm25_documents (snd out))
                              /\ passes_filter (snd out) f doc = true
                              /\ r = result_of_document doc (score r))).
  { intros self' ->. simpl. split; [constructor|]. split; [lia|]. intros r []. }
  unfold out in *. unfold sparse_search in *.
  set (self1 := match bm25_index self with
                | Some _ => self
                | None => _build_bm25_index self scroll
                end) in *.
  destruct (bm25_index self1) as [ix|]; [|now apply (Empty self1)].
  destruct (bm25_documents self1) as [|doc0 docs0] eqn:D; [now apply (Empty self1)|].
  destruct (get_scores ix (split_ws (lower query))) as [scores|e];
    [|now apply (Empty self1)].
  destruct (collect_results self1 f scores (take (ranked_indices scores) top_k))
    as [results|] eqn:C; [|now apply (Empty self1)].
  clear Empty. apply collect_results_some in C. cbn [fst snd].
  split; [|split].
  - apply StronglySorted_take. rewrite C.
    apply flat_map_sorted
      with (R := fun i j =>
                   match nth_error scores j, nth_error scores i with
                   | Some a, Some b => fle a b
                   | _, _ => true
                   end = true).
    + intros i. destruct (nth_error (bm25_documents self1) i);
        [destruct (nth_error scores i)|]; try constructor.
      destruct (passes_filter self1 f d); repeat constructor.
    + intros i j x y Rij Hx Hy.
      destruct (nth_error (bm25_documents self1) i) as [di|]; [|destruct Hx].
      destruct (nth_error scores i) as [si|]; [|destruct Hx].
      destruct (passes_filter self1 f di); [|destruct Hx].
      destruct Hx as [<-|[]].
      destruct (nth_error (bm25_documents self1) j) as [dj|]; [|destruct Hy].
      destruct (nth_error scores j) as [sj|]; [|destruct Hy].
      destruct (passes_filter self1 f dj); [|destruct Hy].
      destruct Hy as [<-|[]].
      exact Rij.
    + apply StronglySorted_take. now apply ranked_indices_sorted.
  - intros K. now apply take_length_le.
  - intros r Hr. apply take_In in Hr. rewrite C in Hr.
    apply in_flat_map in Hr as (i & _ & Hr). rewrite D in Hr.
    destruct (nth_error (doc0 :: docs0) i) as [di|] eqn:Di; [|destruct Hr].
    destruct (nth_error scores i) as [si|]; [|destruct Hr].
    destruct (passes_filter self1 f di) eqn:Pf; [|destruct Hr].
    destruct Hr as [<-|[]].
    exists di. split; [|split].
    + rewrite D. eapply nth_error_In; eauto.
    + exact Pf.
    + reflexivity.
Qed.

End RankedSparse.

(** ** The keyword index and hybrid retrieval *)

Section IndexLifecycle.
Import PyStr Retriever.
Context `{F : FloatOps} `{B : @BM25 F} `{U : UnicodeData}.

Lemma tokenize_corpus_needs_strings (docs : list Document) :
  (exists doc, In doc docs /\ forall s, d_text doc <> VStr s) ->
  tokenize_corpus docs = None.
Proof.
  intros (doc & I & N). induction docs as [|x docs IH]; [destruct I|].
  simpl. destruct I as [->|I].
  - destruct (d_text doc) as [| |s]; try reflexivity.
    exfalso. now apply (N s).
  - rewrite (IH I). now destruct (d_text x).
Qed.

Lemma sparse_search_with_index (self : RetrieverAgent) (ix : bm25)
    (scroll : outcome (list dict)) (query : str) (top_k : Z) (f : option dict) :
  bm25_index self = Some ix ->
  sparse_search self scroll query top_k f
  = (fst (sparse_search self (Return []) query top_k f), self).
Proof.
  intros Ix. unfold sparse_search. rewrite !Ix.
  destruct (bm25_documents self); [reflexivity|].
  destruct (get_scores ix (split_ws (lower query))); [|reflexivity].
  destruct (collect_results _ _ _ _); reflexivity.
Qed.

(** X18.  The keyword index is built at most once.  With an index in
    place, [sparse_search] leaves the agent as it is and its results do not
    depend on the collection, so points stored later are never found by
    keyword.  Without one, it tries to build it on every call; when the
    database call raises, or a point's text is not a string, the search
    returns nothing and the agent still has no index. *)
Theorem bm25_index_is_built_once (self : RetrieverAgent)
    (scroll : outcome (list dict)) (query : str) (top_k : Z) (f : option dict) :
  let out := sparse_search self scroll query top_k f in
  (bm25_index (snd out) <> None ->
     forall scroll' scroll'' query' top_k' f',
       snd (sparse_search (snd out) scroll' query' top_k' f') = snd out
       /\ fst (sparse_search (snd out) scroll' query' top_k' f')
          = fst (sparse_search (snd out) scroll'' query' top_k' f'))
  /\ (bm25_index self = None ->
      (exists e, scroll = Raise e)
      \/ (exists points p v,
            scroll = Return points /\ In p points
            /\ dict_get (cps "text") p = Some v /\ forall s, v <> VStr s) ->
      fst out = [] /\ bm25_index (snd out) = None).
Proof.
  intros out. split.
  - intros Built scroll' scroll'' query' top_k' f'.
    destruct (bm25_index (snd out)) as [ix|] eqn:Ix; [|congruence].
    rewrite (sparse_search_with_index _ ix scroll' _ _ _ Ix).
    rewrite (sparse_search_with_index _ ix scroll'' _ _ _ Ix).
    split; reflexivity.
  - intros None_ Fails. unfold out, sparse_search. rewrite None_.
    assert (E : bm25_index (_build_bm25_index self scroll) = None).
    { destruct Fails as [(e & ->)|(points & p & v & -> & I & T & N)].
      - reflexivity.
      - unfold _build_bm25_index.
        rewrite tokenize_corpus_needs_strings; [reflexivity|].
        exists (document_of_payload p). split; [now apply in_map|].
        simpl. rewrite T. exact N. }
    rewrite E. split; [reflexivity|exact E].
Qed.

Lemma NoDup_firstn {A} (n : nat) (l : list A) : NoDup l -> NoDup (firstn n l).
Proof.
  intros N. rewrite <- (firstn_skipn n l) in N.
  now apply NoDup_app_remove_r in N.
Qed.

Lemma firstn_map {A C} (g : A -> C) (n : nat) (l : list A) :
  firstn n (map g l) = map g (firstn n l).
Proof.
  revert l. induction n as [|n IH]; intros [|x l]; simpl; try reflexivity.
  now rewrite IH.
Qed.

Lemma NoDup_take_map {A C} (g : A -> C) (l : list A) (k : Z) :
  NoDup (map g l) -> NoDup (map g (take l k)).
Proof.
  intros N. unfold take.
  destruct (0 <=? k)%Z; rewrite <- firstn_map; now apply NoDup_firstn.
Qed.

(** X19.  [retrieve] returns at most [top_k] results (for a [top_k] that
    is not negative).  With the keyword search enabled they are fused
    results: no chunk identifier comes twice and they are in descending
    order of the fused score.  When the query cannot be embedded nothing is
    returned and neither search is run: the agent is left as it is, without
    a keyword index being built; so it is when the keyword search is
    disabled. *)
Theorem retrieve_returns_ranked_distinct {vector : Type} (self : RetrieverAgent)
    (embed_query : str -> option vector)
    (search : vector -> option dict -> Z -> outcome (list Hit))
    (scroll : outcome (list dict)) (query : str) (top_k : Z) (f : option dict) :
  (forall a b, fle a b = true \/ fle b a = true) ->
  (forall a b c, fle a b = true -> fle b c = true -> fle a c = true) ->
  let out := retrieve self embed_query search scroll query top_k f in
  ((0 <= top_k)%Z -> (Z.of_nat (length (fst out)) <= top_k)%Z)
  /\ (enable_bm25 self = true ->
      NoDup (map chunk_id (fst out)) /\ StronglySorted score_ge (fst out))
  /\ (embed_query query = None -> out = ([], self))
  /\ (enable_bm25 self = false -> snd out = self).
Proof.
  intros total trans out. unfold out, retrieve.
  destruct (embed_query query) as [v|].
  2:{ simpl. repeat split; try constructor; try lia. }
  destruct (enable_bm25 self) eqn:En.
  - destruct (sparse_search self scroll query (top_k * 2) f) as [sparse self1].
    cbn [fst snd]. split; [|split; [|split]]; try discriminate.
    + intros K. now apply take_length_le.
    + intros _.
      destruct (fuse_results_one_identifier_each self1
                  (dense_search self search v (top_k * 2) f) sparse
                  (fusion_method self1) total trans) as (ND & S).
      split.
      * now apply NoDup_take_map.
      * now apply StronglySorted_take.
  - cbn [fst snd]. split; [|split; [|split]]; try discriminate; try reflexivity.
    intros K. now apply take_length_le.
Qed.

End IndexLifecycle.

(** ** Reranking: the judge's order and the keyword overlap *)

Section RerankOrder.
Import PyStr Retriever Reranker.
Context `{F : FloatOps} `{U : UnicodeData}.

Lemma pick_places (results : list RetrievalResult) (indices : list Z) :
  pick results indices
  = flat_map (at_place results)
      (map Z.to_nat (filter (in_range results) indices)).
Proof.
  unfold pick.
  assert (G : forall acc,
             fold_left
               (fun reranked idx =>
                  if (0 <=? idx)%Z && (idx <? Z.of_nat (length results))%Z
                  then match nth_error results (Z.to_nat idx) with
                       | Some r => reranked ++ [r]
                       | None => reranked
                       end
                  else reranked)
               indices acc
             = acc ++ flat_map (at_place results)
                        (map Z.to_nat (filter (in_range results) indices))).
  { induction indices as [|idx indices IH]; intros acc; simpl.
    - now rewrite app_nil_r.
    - rewrite IH. unfold in_range at 2.
      destruct ((0 <=? idx)%Z && (idx <? Z.of_nat (length results))%Z); simpl;
        [|reflexivity].
      unfold at_place at 2.
      destruct (nth_error results (Z.to_nat idx)); simpl; [|reflexivity].
      now rewrite <- app_assoc. }
  apply (G []).
Qed.

Lemma append_missing_places (results : list RetrievalResult) (indices : list Z)
    (reranked : list RetrievalResult) :
  append_missing results indices reranked
  = reranked ++ flat_map (at_place results)
                  (filter (not_listed indices) (seq 0 (length results))).
Proof.
  unfold append_missing, enumerate.
  assert (G : forall l pre acc,
             results = pre ++ l ->
             fold_left
               (fun reranked item =>
                  let '(i, result) := item in
                  if existsb (Z.eqb (Z.of_nat i)) indices then reranked
                  else reranked ++ [result])
               (combine (seq (length pre) (length l)) l) acc
             = acc ++ flat_map (at_place results)
                        (filter (not_listed indices) (seq (length pre) (length l)))).
  { induction l as [|x l IH]; intros pre acc E; simpl.
    - now rewrite app_nil_r.
    - assert (L : length (pre ++ [x]) = S (length pre))
        by (rewrite length_app; simpl; lia).
      pose proof (IH (pre ++ [x])) as IH'. rewrite L in IH'.
      rewrite IH' by (rewrite <- app_assoc; exact E).
      unfold not_listed at 2.
      destruct (existsb (Z.eqb (Z.of_nat (length pre))) indices); simpl;
        [reflexivity|].
      unfold at_place at 2. rewrite E at 2.
      rewrite nth_error_app2 by lia. rewrite Nat.sub_diag. simpl.
      now rewrite <- app_assoc. }
  apply (G results [] reranked). reflexivity.
Qed.

Lemma places_all (results : list RetrievalResult) :
  flat_map (at_place results) (seq 0 (length results)) = results.
Proof.
  assert (G : forall l pre, results = pre ++ l ->
             flat_map (at_place results) (seq (length pre) (length l)) = l).
  { induction l as [|x l IH]; intros pre E; simpl; [reflexivity|].
    assert (L : length (pre ++ [x]) = S (length pre))
      by (rewrite length_app; simpl; lia).
    pose proof (IH (pre ++ [x])) as IH'. rewrite L in IH'.
    rewrite IH' by (rewrite <- app_assoc; exact E).
    unfold at_place. rewrite E at 1.
    rewrite nth_error_app2 by lia. rewrite Nat.sub_diag. reflexivity. }
  apply (G results []). reflexivity.
Qed.

Lemma in_places (results : list RetrievalResult) (l : list nat)
    (r : RetrievalResult) :
  In r (flat_map (at_place results) l)
  <-> exists i, In i l /\ nth_error results i = Some r.
Proof.
  rewrite in_flat_map. split; intros (i & Hi & Hr); exists i; split; auto.
  - unfold at_place in Hr. destruct (nth_error results i); [|destruct Hr].
    destruct Hr as [->|[]]. reflexivity.
  - unfold at_place. rewrite Hr. now left.
Qed.

Lemma listed_places (results : list RetrievalResult) (indices : list Z) (i : nat) :
  In i (map Z.to_nat (filter (in_range results) indices))
  <-> i < length results /\ In (Z.of_nat i) indices.
Proof.
  rewrite in_map_iff. split.
  - intros (idx & <- & Hidx). apply filter_In in Hidx as [Hidx R].
    unfold in_range in R. apply andb_prop in R as [R1 R2].
    apply Z.leb_le in R1. apply Z.ltb_lt in R2.
    split; [lia|]. now rewrite Z2Nat.id.
  - intros [L I]. exists (Z.of_nat i). split; [apply Nat2Z.id|].
    apply filter_In. split; [exact I|].
    unfold in_range. apply andb_true_intro. split.
    + apply Z.leb_le. lia.
    + apply Z.ltb_lt. lia.
Qed.

Lemma not_listed_places (results : list RetrievalResult) (indices : list Z)
    (i : nat) :
  In i (filter (not_listed indices) (seq 0 (length results)))
  <-> i < length results /\ ~ In (Z.of_nat i) indices.
Proof.
  rewrite filter_In, in_seq. unfold not_listed. rewrite negb_true_iff.
  split; intros [L N]; (split; [lia|]).
  - intros I.
    assert (T : existsb (Z.eqb (Z.of_nat i)) indices = true).
    { apply existsb_exists. exists (Z.of_nat i). split; [exact I|apply Z.eqb_refl]. }
    congruence.
  - destruct (existsb (Z.eqb (Z.of_nat i)) indices) eqn:E; [|reflexivity].
    apply existsb_exists in E as (x & I & Q). apply Z.eqb_eq in Q. subst x.
    contradiction.
Qed.

(** What [_parse_reranking_response] returns for the indices it read. *)
Lemma parsed_places (response : str) (results : list RetrievalResult)
    (indices : list Z) :
  parse_indices response = Return indices ->
  _parse_reranking_response response results
  = flat_map (at_place results)
      (map Z.to_nat (filter (in_range results) indices)
       ++ filter (not_listed indices) (seq 0 (length results))).
Proof.
  intros E. unfold _parse_reranking_response. rewrite E.
  rewrite append_missing_places, pick_places. now rewrite flat_map_app.
Qed.

Lemma parse_reranking_In (response : str) (results : list RetrievalResult)
    (r : RetrievalResult) :
  In r (_parse_reranking_response response results) <-> In r results.
Proof.
  destruct (parse_indices response) as [indices|e] eqn:E.
  2:{ unfold _parse_reranking_response. now rewrite E. }
  rewrite (parsed_places _ _ _ E), in_places. split.
  - intros (i & _ & Hr). eapply nth_error_In; eauto.
  - intros Hr. apply In_nth_error in Hr as (i & Hr).
    assert (L : i < length results) by (apply nth_error_Some; congruence).
    exists i. split; [|exact Hr]. apply in_or_app.
    destruct (in_dec Z.eq_dec (Z.of_nat i) indices) as [I|N].
    + left. now apply listed_places.
    + right. now apply not_listed_places.
Qed.

Lemma NoDup_listed (results : list RetrievalResult) (indices : list Z) :
  NoDup indices -> NoDup (map Z.to_nat (filter (in_range results) indices)).
Proof.
  induction 1 as [|idx indices N ND IH]; simpl; [constructor|].
  destruct (in_range results idx) eqn:R; [|exact IH].
  simpl. constructor; [|exact IH].
  intros I. apply listed_places in I as [_ I].
  unfold in_range in R. apply andb_prop in R as [R1 _]. apply Z.leb_le in R1.
  rewrite Z2Nat.id in I by exact R1. contradiction.
Qed.

(** X20.  [_parse_reranking_response] never loses a passage and never
    makes one up: the passages it returns are those it was given.  When
    the indices read off the answer do not repeat, it returns the passages
    it was given in another order, once each; when they are the places of
    all passages in some order, it returns the passages in exactly that
    order. *)
Theorem parse_reranking_response_keeps_every_passage (response : str)
    (results : list RetrievalResult) :
  let reranked := _parse_reranking_response response results in
  (forall r, In r reranked <-> In r results)
  /\ (forall indices,
        parse_indices response = Return indices -> NoDup indices ->
        Permutation results reranked)
  /\ (forall order,
        parse_indices response = Return (map Z.of_nat order) ->
        Permutation order (seq 0 (length results)) ->
        map Some reranked = map (nth_error results) order).
Proof.
  intros reranked. split; [|split].
  - intros r. apply parse_reranking_In.
  - intros indices E ND. unfold reranked. rewrite (parsed_places _ _ _ E).
    rewrite <- (places_all results) at 1.
    apply Permutation_flat_map, Permutation_sym, NoDup_Permutation.
    + apply NoDup_app.
      * now apply NoDup_listed.
      * apply NoDup_filter, seq_NoDup.
      * intros i I1 I2. apply listed_places in I1 as [_ I1].
        apply not_listed_places in I2 as [_ I2]. contradiction.
    + apply seq_NoDup.
    + intros i. rewrite in_app_iff, listed_places, not_listed_places, in_seq.
      destruct (in_dec Z.eq_dec (Z.of_nat i) indices); intuition lia.
  - intros order E P. unfold reranked. rewrite (parsed_places _ _ _ E).
    assert (R : forall i, In i order -> i < length results).
    { intros i Hi. apply (Permutation_in _ P) in Hi. apply in_seq in Hi. lia. }
    assert (A : map Z.to_nat (filter (in_range results) (map Z.of_nat order)) = order).
    { clear E P. induction order as [|i order IH]; simpl; [reflexivity|].
      assert (Ri : in_range results (Z.of_nat i) = true).
      { unfold in_range. apply andb_true_intro. split.
        - apply Z.leb_le. lia.
        - apply Z.ltb_lt. specialize (R i (or_introl eq_refl)). lia. }
      rewrite Ri. simpl. rewrite Nat2Z.id. f_equal.
      apply IH. intros j Hj. apply R. now right. }
    assert (M : filter (not_listed (map Z.of_nat order)) (seq 0 (length results)) = []).
    { apply filter_none. intros i Hi. unfold not_listed. apply negb_false_iff.
      apply existsb_exists. exists (Z.of_nat i). split; [|apply Z.eqb_refl].
      apply in_map. apply (Permutation_in _ (Permutation_sym P)). exact Hi. }
    rewrite A, M, app_nil_r. clear A M E P.
    induction order as [|i order IH]; simpl; [reflexivity|].
    rewrite map_app, IH by (intros j Hj; apply R; now right).
    unfold at_place.
    destruct (nth_error results i) eqn:Ni; [reflexivity|].
    apply nth_error_None in Ni. specialize (R i (or_introl eq_refl)). lia.
Qed.

(** X21.  [rerank_with_gemini] never raises, whatever the judge does and
    whatever the passages hold: it returns passages it was given, and no
    more than [top_k or rerank_top_k] of them when that number is not
    negative.  With reranking disabled, [rerank] returns the first [top_k]
    results, and all of them when [top_k] is 0 or absent. *)
Theorem rerank_with_gemini_never_raises (self : RerankerAgent)
    (judge : str -> outcome str) (query : str)
    (results : list RetrievalResult) (top_k : option Z) :
  (exists reranked,
      rerank_with_gemini self judge query results top_k = Return reranked
      /\ (forall r, In r reranked -> In r results)
      /\ ((0 <= int_or top_k (rerank_top_k self))%Z ->
          (Z.of_nat (length reranked) <= int_or top_k (rerank_top_k self))%Z))
  /\ (enable_rerank self = false ->
      rerank self judge query results (Some 0%Z) = Return results
      /\ rerank self judge query results None = Return results
      /\ forall k, (0 < k)%Z ->
           rerank self judge query results (Some k)
           = Return (firstn (Z.to_nat k) results)).
Proof.
  split.
  - unfold rerank_with_gemini.
    destruct results as [|r0 results0] eqn:Res.
    { exists []. split; [reflexivity|]. split; [intros r []|]. simpl. lia. }
    rewrite <- Res. set (k := int_or top_k (rerank_top_k self)).
    assert (Fallback : forall l, (forall r, In r l -> In r results) ->
              (forall r, In r (take l k) -> In r results)
              /\ ((0 <= k)%Z -> (Z.of_nat (length (take l k)) <= k)%Z)).
    { intros l Sub. split.
      - intros r Hr. apply Sub. eapply take_In; eauto.
      - intros K. now apply take_length_le. }
    unfold rerank_attempt.
    destruct (_build_reranking_prompt query results) as [prompt|e];
      [|eexists; split; [reflexivity|apply Fallback; auto]].
    destruct (judge prompt) as [response_text|e];
      [|eexists; split; [reflexivity|apply Fallback; auto]].
    destruct (negb (nonempty response_text));
      eexists; (split; [reflexivity|apply Fallback; auto]).
    intros r. apply parse_reranking_In.
  - intros Off. unfold rerank. rewrite Off. simpl.
    assert (All : take results (Z.of_nat (length results)) = results).
    { rewrite take_positive by lia. rewrite Nat2Z.id. apply firstn_all. }
    rewrite All. split; [reflexivity|]. split; [reflexivity|].
    intros k K. destruct (k =? 0)%Z eqn:Z0; [apply Z.eqb_eq in Z0; lia|].
    now rewrite take_positive by lia.
Qed.

Lemma Forall2_In_right {A C} (P : A -> C -> Prop) (l : list A) (l' : list C)
    (y : C) :
  Forall2 P l l' -> In y l' -> exists x, In x l /\ P x y.
Proof.
  induction 1 as [|x y' l l' Pxy F2 IH]; intros I; [destruct I|].
  destruct I as [<-|I].
  - exists x. split; [now left|exact Pxy].
  - destruct (IH I) as (x' & I' & Px'). exists x'. split; [now right|exact Px'].
Qed.

Lemma rescore_all_strings (query_tokens : list str)
    (results : list RetrievalResult) :
  Forall (fun r => exists s, text r = VStr s) results ->
  exists scored,
    rescore_all query_tokens results = Return scored
    /\ Forall2
         (fun r r' =>
            exists s, text r = VStr s
              /\ r' = rescored r
                        (fadd (score r)
                           (ftenths (overlap_count query_tokens (split_ws (lower s))))))
         results scored.
Proof.
  induction 1 as [|r results (s & T) Fr (scored & E & F2)]; simpl.
  - exists []. split; [reflexivity|constructor].
  - rewrite T, E. eexists. split; [reflexivity|].
    constructor; [|exact F2]. exists s. split; [exact T|reflexivity].
Qed.

Lemma rescore_all_raises (query_tokens : list str)
    (results : list RetrievalResult) :
  (exists r, In r results /\ forall s, text r <> VStr s) ->
  rescore_all query_tokens results = Raise AttributeError.
Proof.
  intros (r & I & N). induction results as [|x results IH]; [destruct I|].
  simpl. destruct (text x) as [| |s] eqn:T; try reflexivity.
  destruct I as [->|I]; [exfalso; now apply (N s)|].
  now rewrite (IH I).
Qed.

(** X22.  [rerank_with_cpu] on passages whose texts are all strings
    gives every passage a new score, the old score plus a tenth for every
    distinct query word found in the text, and returns the first
    [top_k or rerank_top_k] of all the rescored passages in descending
    order of the new score; passages of equal score keep the order they
    came in, so the returned list is determined.  When the text of some
    passage is not a string the call raises an AttributeError, which
    [rerank] does not catch. *)
Theorem rerank_with_cpu_orders_by_overlap (self : RerankerAgent)
    (judge : str -> outcome str) (query : str)
    (results : list RetrievalResult) (top_k : option Z) :
  (forall a b, fle a b = true \/ fle b a = true) ->
  (forall a b c, fle a b = true -> fle b c = true -> fle a c = true) ->
  (Forall (fun r => exists s, text r = VStr s) results ->
   exists scored ranked,
     Forall2 (fun r r' => exists s, text r = VStr s
                                    /\ r' = rescored r (cpu_score query r s))
       results scored
     /\ Permutation scored ranked
     /\ StronglySorted score_ge ranked
     /\ (forall p : RetrievalResult -> bool,
           (forall a b, p a = true -> p b = true -> score_ge a b) ->
           filter p ranked = filter p scored)
     /\ rerank_with_cpu self query results top_k
        = Return (take ranked (int_or top_k (rerank_top_k self)))
     /\ ((0 <= int_or top_k (rerank_top_k self))%Z ->
         rerank_with_cpu self query results top_k
         = Return (firstn (Z.to_nat (int_or top_k (rerank_top_k self))) ranked)))
  /\ ((exists r, In r results /\ forall s, text r <> VStr s) ->
      rerank_with_cpu self query results top_k = Raise AttributeError
      /\ (enable_rerank self = true ->
          str_eqb (rerank_backend self) (cps "gemini") = false ->
          rerank self judge query results top_k = Raise AttributeError)).
Proof.
  intros total trans. split.
  - intros Strings.
    destruct (rescore_all_strings (split_ws (lower query)) results Strings)
      as (scored & E & F2).
    exists scored, (sorted_by_score_desc scored).
    assert (R : rerank_with_cpu self query results top_k
                = Return (take (sorted_by_score_desc scored)
                            (int_or top_k (rerank_top_k self)))).
    { unfold rerank_with_cpu. destruct results as [|r0 results0] eqn:Res.
      - simpl in E. injection E as <-. unfold sorted_by_score_desc. simpl.
        now rewrite take_nil.
      - now rewrite E. }
    split; [exact F2|]. split; [|split; [|split; [|split]]].
    + symmetry. apply sort_by_perm.
    + unfold sorted_by_score_desc, score_ge.
      apply (sort_by_sorted _ (fun x y : RetrievalResult => fle (score y) (score x))).
      * intros a b. apply total.
      * intros a b c Hab Hbc. eapply trans; eauto.
    + intros p Ties. unfold sorted_by_score_desc.
      apply sort_by_keeps_order. exact Ties.
    + exact R.
    + intros K. rewrite R. now rewrite take_positive.
  - intros Bad. assert (R : rerank_with_cpu self query results top_k = Raise AttributeError).
    { unfold rerank_with_cpu. destruct results as [|r0 results0] eqn:Res.
      - destruct Bad as (r & [] & _).
      - rewrite <- Res in *. now rewrite rescore_all_raises. }
    split; [exact R|]. intros On Cpu. unfold rerank. rewrite On, Cpu. exact R.
Qed.

End RerankOrder.

(** ** Query decomposition and model names *)

Section Decompose.
Import PyStr Decomposition.
Context `{U : UnicodeData}.

Lemma parse_sub_queries_bounds (response_text : str) :
  length (_parse_sub_queries response_text) <= 4
  /\ forall q, In q (_parse_sub_queries response_text) -> 10 < length q.
Proof.
  unfold _parse_sub_queries, collect_sub_queries.
  rewrite collect_sub_queries_from. split.
  - apply firstn_le_length.
  - intros q Hq. apply firstn_In in Hq. simpl in Hq.
    apply filter_In in Hq as [_ L]. now apply Nat.ltb_lt.
Qed.

Lemma decompose_with_ollama_bounds (self : DecompositionAgent)
    (post : str -> str -> str -> outcome HttpResponse) (query : str)
    (subs : list str) :
  decompose_with_ollama self post query = Some subs ->
  length subs <= 4 /\ forall q, In q subs -> 10 < length q.
Proof.
  unfold decompose_with_ollama.
  destruct (post _ _ _) as [response|e]; [|discriminate].
  destruct (status_code response =? 200)%Z; [|discriminate].
  destruct (json response) as [[[| |t]|]|e]; try discriminate;
    intros E; injection E as <-; apply parse_sub_queries_bounds.
Qed.

Lemma decompose_with_gemini_bounds (self : DecompositionAgent)
    (generate : str -> str -> outcome str) (query : str) (subs : list str) :
  decompose_with_gemini self generate query = Some subs ->
  length subs <= 4 /\ forall q, In q subs -> 10 < length q.
Proof.
  unfold decompose_with_gemini.
  destruct (generate _ _) as [t|e]; [|discriminate].
  destruct (nonempty t); [|discriminate].
  intros E; injection E as <-; apply parse_sub_queries_bounds.
Qed.

Lemma NoDup_snoc {A} (l : list A) (a : A) :
  NoDup l -> ~ In a l -> NoDup (l ++ [a]).
Proof.
  intros N I. apply NoDup_app; [exact N| |].
  - constructor; [intros []|constructor].
  - intros x Hx [<-|[]]. contradiction.
Qed.

(** The loop over [all_queries] keeps the queries it holds and adds, in
    order, those whose lower-case form it has not seen. *)
Lemma unique_fold (l : list str) :
  forall seen unique_queries,
  (forall x, In x seen <-> In x (map lower unique_queries)) ->
  NoDup (map lower unique_queries) ->
  exists ext,
    snd (fold_left unique_step l (seen, unique_queries)) = unique_queries ++ ext
    /\ incl ext l
    /\ length ext <= length l
    /\ NoDup (map lower (unique_queries ++ ext)).
Proof.
  induction l as [|q l IH]; intros seen uq Seen ND.
  - exists []. simpl. rewrite app_nil_r.
    split; [reflexivity|]. split; [intros x []|]. split; [lia|exact ND].
  - cbn [fold_left]. unfold unique_step at 2.
    destruct (existsb (str_eqb (lower q)) seen) eqn:E.
    + destruct (IH seen uq Seen ND) as (ext & E1 & E2 & E3 & E4).
      exists ext. split; [exact E1|]. split; [|split; [simpl; lia|exact E4]].
      intros x Hx. right. now apply E2.
    + assert (Fresh : ~ In (lower q) (map lower uq)).
      { intros I. apply Seen in I.
        assert (T : existsb (str_eqb (lower q)) seen = true).
        { apply existsb_exists. exists (lower q). split; [exact I|apply str_eqb_refl]. }
        congruence. }
      destruct (IH (lower q :: seen) (uq ++ [q])) as (ext & E1 & E2 & E3 & E4).
      * intros x. rewrite map_app, in_app_iff. simpl. rewrite Seen. intuition.
      * rewrite map_app. simpl. now apply NoDup_snoc.
      * exists (q :: ext). rewrite <- app_assoc in E1, E4. simpl in E1, E4.
        split; [exact E1|]. split; [|split; [simpl; lia|exact E4]].
        intros x [<-|Hx]; [now left|right; now apply E2].
Qed.

(** X23.  [decompose_query] always returns the original query first,
    followed by at most four sub-queries, each longer than ten characters;
    no two entries are equal up to case.  With decomposition disabled, or
    for a query of fewer than eight words, it returns the query alone
    whatever the models would answer; and when the local model gives a
    sub-query, the hosted model's answer plays no part. *)
Theorem decompose_query_keeps_the_query_first (self : DecompositionAgent)
    (post : str -> str -> str -> outcome HttpResponse)
    (generate : str -> str -> outcome str) (query : str) :
  let queries := decompose_query self post generate query in
  hd_error queries = Some query
  /\ length queries <= 5
  /\ NoDup (map lower queries)
  /\ (forall q, In q queries -> q = query \/ 10 < length q)
  /\ (enable_decomposition self = false \/ length (split_ws query) < 8 ->
      queries = [query])
  /\ (forall q subs generate',
        decompose_with_ollama self post query = Some (q :: subs) ->
        decompose_query self post generate' query = queries).
Proof.
  intros queries.
  assert (Alone : queries = [query] ->
            hd_error queries = Some query
            /\ length queries <= 5
            /\ NoDup (map lower queries)
            /\ (forall q, In q queries -> q = query \/ 10 < length q)).
  { intros ->. simpl. split; [reflexivity|]. split; [lia|].
    split; [repeat constructor; intros []|]. intros q [<-|[]]. now left. }
  assert (Fused : forall subs,
            length subs <= 4 -> (forall q, In q subs -> 10 < length q) ->
            queries = snd (fold_left unique_step (query :: subs) ([], [])) ->
            hd_error queries = Some query
            /\ length queries <= 5
            /\ NoDup (map lower queries)
            /\ (forall q, In q queries -> q = query \/ 10 < length q)).
  { intros subs L Long ->. cbn [fold_left].
    change (unique_step ([], []) query) with ([lower query], [query]).
    destruct (unique_fold subs [lower query] [query]) as (ext & E1 & E2 & E3 & E4).
    - intros x. simpl. reflexivity.
    - repeat constructor. intros [].
    - simpl app in E1. rewrite E1. simpl. split; [reflexivity|].
      pose proof (Nat.le_trans _ _ _ E3 L) as L5.
      split; [lia|]. split; [exact E4|].
      intros q [<-|Hq]; [now left|right]. apply Long, E2, Hq. }
  split; [|split; [|split; [|split; [|split]]]].
  1-4: unfold queries in *; unfold decompose_query in *;
    destruct (negb (enable_decomposition self)); [now apply Alone|];
    destruct (length (split_ws query) <? 8); [now apply Alone|];
    destruct (decompose_with_ollama self post query) as [[|q0 subs0]|] eqn:O;
    try (destruct (decompose_with_gemini self generate query) as [[|q1 subs1]|] eqn:G;
         try (now apply Alone);
         destruct (decompose_with_gemini_bounds _ _ _ _ G) as [L Long];
         now apply (Fused (q1 :: subs1) L Long));
    destruct (decompose_with_ollama_bounds _ _ _ _ O) as [L Long];
    now apply (Fused (q0 :: subs0) L Long).
  - intros [Off|Short]; unfold queries, decompose_query.
    + now rewrite Off.
    + apply Nat.ltb_lt in Short. rewrite Short.
      now destruct (negb (enable_decomposition self)).
  - intros q subs generate' O. unfold queries, decompose_query. now rewrite O.
Qed.

Lemma split_once_from_colon (backend model cur : str) :
  existsb (N.eqb 58) backend = false ->
  split_once_from cur (backend ++ 58%N :: model) = [rev cur ++ backend; model].
Proof.
  revert cur. induction backend as [|c backend IH]; intros cur N.
  - simpl. now rewrite app_nil_r.
  - cbn [existsb] in N. apply orb_false_iff in N as [N1 N2].
    apply N.eqb_neq in N1.
    cbn [app split_once_from].
    destruct (c =? 58)%N eqn:E; [apply N.eqb_eq in E; congruence|].
    rewrite IH by exact N2. simpl. now rewrite <- app_assoc.
Qed.

(** X24.  [_parse_model_name] drops everything up to the first colon and
    nothing else: a string [backend:model] whose backend has no colon gives
    the model, further colons included, and a string without a colon is
    returned as it is.  So a model tag that holds a colon but no backend
    in front, such as [deepseek-r1:1.5b], loses its name. *)
Theorem parse_model_name_drops_the_first_part :
  (forall backend model,
      existsb (N.eqb 58) backend = false ->
      _parse_model_name (backend ++ cps ":" ++ model) = model)
  /\ (forall model_str,
        existsb (N.eqb 58) model_str = false ->
        _parse_model_name model_str = model_str)
  /\ _parse_model_name (cps "ollama:deepseek-r1:1.5b") = cps "deepseek-r1:1.5b"
  /\ _parse_model_name (cps "deepseek-r1:1.5b") = cps "1.5b".
Proof.
  split; [|split; [|split; reflexivity]].
  - intros backend model N. unfold _parse_model_name.
    assert (C : existsb (N.eqb 58) (backend ++ cps ":" ++ model) = true).
    { rewrite existsb_app. simpl. apply orb_true_r. }
    rewrite C. change (cps ":" ++ model) with (58%N :: model).
    rewrite split_once_from_colon by exact N. reflexivity.
  - intros model_str N. unfold _parse_model_name. now rewrite N.
Qed.

End Decompose.

(** ** The language filter *)

Section LanguageFilter.
Import PyStr MetadataFilter.
Context `{U : UnicodeData}.

Lemma startswith_iff (s prefix : str) :
  startswith s prefix = true <-> exists rest, s = prefix ++ rest.
Proof.
  revert s. induction prefix as [|p prefix IH]; intros s; simpl.
  - split; [intros _; now exists s|now destruct s].
  - destruct s as [|c s].
    + split; [discriminate|]. intros (rest & E). discriminate.
    + change (startswith (c :: s) (p :: prefix))
        with ((c =? p)%N && startswith s prefix).
      rewrite andb_true_iff, N.eqb_eq, IH. split.
      * intros (-> & rest & ->). now exists rest.
      * intros (rest & E). injection E as -> ->. split; [reflexivity|now exists rest].
Qed.

Lemma contains_iff (s sub : str) :
  contains s sub = true <-> exists before after, s = before ++ sub ++ after.
Proof.
  induction s as [|c s IH]; cbn [contains].
  - rewrite orb_false_r, startswith_iff. split.
    + intros (rest & E). now exists [], rest.
    + intros (before & after & E). symmetry in E.
      apply app_eq_nil in E as [-> E]. apply app_eq_nil in E as [-> ->].
      now exists [].
  - rewrite orb_true_iff, startswith_iff, IH. split.
    + intros [(rest & E)|(before & after & E)].
      * now exists [], rest.
      * exists (c :: before), after. simpl. now rewrite E.
    + intros ([|b before] & after & E); simpl in E.
      * left. now exists after.
      * right. injection E as -> E. now exists before, after.
Qed.

Lemma contains_within (s a b : str) :
  contains s a = true -> contains a b = true -> contains s b = true.
Proof.
  rewrite !contains_iff. intros (p & q & ->) (p' & q' & ->).
  exists (p ++ p'), (q' ++ q). now rewrite <- !app_assoc.
Qed.

Lemma contains_not_within (s a b : str) :
  contains a b = true -> contains s b = false -> contains s a = false.
Proof.
  intros W N. destruct (contains s a) eqn:E; [|reflexivity].
  rewrite (contains_within s a b E W) in N. discriminate.
Qed.

(** X25.  Only the five two-letter codes decide the language filter: the
    filter is the first of [en], [zh], [hi], [bn], [ur] that occurs
    anywhere in the lower-cased query, inside a word or not, and there is
    none if no code occurs; the language names of the list never decide.
    So a query that mentions [bengali] is filtered to [en], and one that
    mentions [chinese] to [hi] unless [en] or [zh] occurs in it too. *)
Theorem language_filter_is_the_first_code_found (query : str) :
  extract_language_filter query
  = find (contains (lower query)) language_codes
  /\ (contains (lower query) (cps "bengali") = true ->
      extract_language_filter query = Some (cps "en"))
  /\ (contains (lower query) (cps "chinese") = true ->
      contains (lower query) (cps "en") = false ->
      contains (lower query) (cps "zh") = false ->
      extract_language_filter query = Some (cps "hi")).
Proof.
  assert (Main : extract_language_filter query
                 = find (contains (lower query)) language_codes).
  { unfold extract_language_filter, language_codes, supported_languages.
    cbn [first_language firstn find].
    change (language_map_get (cps "en") (cps "en")) with (cps "en").
    change (language_map_get (cps "zh") (cps "zh")) with (cps "zh").
    change (language_map_get (cps "hi") (cps "hi")) with (cps "hi").
    change (language_map_get (cps "bn") (cps "bn")) with (cps "bn").
    change (language_map_get (cps "ur") (cps "ur")) with (cps "ur").
    change (length (cps "en") =? 2) with true.
    change (length (cps "zh") =? 2) with true.
    change (length (cps "hi") =? 2) with true.
    change (length (cps "bn") =? 2) with true.
    change (length (cps "ur") =? 2) with true.
    cbv iota.
    destruct (contains (lower query) (cps "en")) eqn:En; [reflexivity|].
    destruct (contains (lower query) (cps "zh")) eqn:Zh; [reflexivity|].
    destruct (contains (lower query) (cps "hi")) eqn:Hi; [reflexivity|].
    destruct (contains (lower query) (cps "bn")) eqn:Bn; [reflexivity|].
    destruct (contains (lower query) (cps "ur")) eqn:Ur; [reflexivity|].
    rewrite (contains_not_within _ (cps "english") (cps "en") eq_refl En).
    rewrite (contains_not_within _ (cps "chinese") (cps "hi") eq_refl Hi).
    rewrite (contains_not_within _ (cps "hindi") (cps "hi") eq_refl Hi).
    rewrite (contains_not_within _ (cps "bengali") (cps "en") eq_refl En).
    rewrite (contains_not_within _ (cps "urdu") (cps "ur") eq_refl Ur).
    reflexivity. }
  split; [exact Main|]. split.
  - intros Bengali. rewrite Main. unfold language_codes, supported_languages.
    cbn [firstn find].
    now rewrite (contains_within _ (cps "bengali") (cps "en") Bengali eq_refl).
  - intros Chinese En Zh. rewrite Main. unfold language_codes, supported_languages.
    cbn [firstn find]. rewrite En, Zh.
    now rewrite (contains_within _ (cps "chinese") (cps "hi") Chinese eq_refl).
Qed.

End LanguageFilter.

(** ** The context of a turn *)

Section TurnContext.
Import PyStr Retriever RAGContext.
Context `{F : FloatOps}.

Lemma find_first_none {A} (p : A -> bool) (l : list A) :
  find p l = None <-> forall x, In x l -> p x = false.
Proof.
  induction l as [|y l IH]; simpl.
  - split; [intros _ x []|reflexivity].
  - destruct (p y) eqn:E.
    + split; [discriminate|]. intros N. rewrite (N y) in E by now left. discriminate.
    + rewrite IH. split.
      * intros N x [<-|Hx]; [exact E|now apply N].
      * intros N x Hx. apply N. now right.
Qed.

Lemma find_first_holds {A} (p : A -> bool) (l : list A) (x : A) :
  find p l = Some x -> p x = true.
Proof.
  induction l as [|y l IH]; simpl; [discriminate|].
  destruct (p y) eqn:E; [|exact IH]. intros Q. injection Q as <-. exact E.
Qed.

(** What the loop over [all_results] holds after a list of results. *)
Lemma unique_fold_results (l : list RetrievalResult) :
  let st := fold_left unique_step l ([], []) in
  (forall c, In c (fst st) <-> In c (map chunk_id (snd st)))
  /\ NoDup (map chunk_id (snd st))
  /\ (forall r, In r (snd st) <-> find (has_chunk_id (chunk_id r)) l = Some r)
  /\ (forall c, In c (map chunk_id l) <-> In c (fst st)).
Proof.
  induction l as [|x l IH] using rev_ind.
  - simpl. split; [reflexivity|]. split; [constructor|].
    split; [|reflexivity]. intros r. split; [intros []|discriminate].
  - rewrite fold_left_app. cbn [fold_left]. cbv zeta in IH.
    destruct (fold_left unique_step l ([], [])) as [seen u].
    cbn [fst snd] in IH. destruct IH as (Seen & ND & First & Ids).
    cbv zeta. unfold unique_step.
    destruct (existsb (value_eqb (chunk_id x)) seen) eqn:E; cbn [fst snd].
    + apply existsb_exists in E as (c & Hc & Q). apply value_eqb_eq in Q. subst c.
      split; [exact Seen|]. split; [exact ND|]. split.
      * intros r. rewrite First, find_app_split.
        destruct (find (has_chunk_id (chunk_id r)) l) as [y|] eqn:Fl;
          [reflexivity|].
        split; [discriminate|]. simpl.
        destruct (has_chunk_id (chunk_id r) x) eqn:Hx; [|discriminate].
        intros Q. injection Q as <-. exfalso.
        apply Ids in Hc. apply in_map_iff in Hc as (y & Qy & Hy).
        rewrite find_first_none in Fl. specialize (Fl y Hy).
        unfold has_chunk_id in Fl. rewrite Qy, value_eqb_refl in Fl. discriminate.
      * intros c. rewrite map_app, in_app_iff, Ids. simpl. intuition.
        subst c. exact Hc.
    + assert (Fresh : ~ In (chunk_id x) seen).
      { intros I.
        assert (T : existsb (value_eqb (chunk_id x)) seen = true).
        { apply existsb_exists. exists (chunk_id x). split; [exact I|apply value_eqb_refl]. }
        congruence. }
      split; [|split; [|split]].
      * intros c. rewrite map_app, in_app_iff. simpl. rewrite Seen. intuition.
      * rewrite map_app. simpl. apply NoDup_snoc; [exact ND|].
        now rewrite <- Seen.
      * intros r. rewrite in_app_iff, First, find_app_split.
        destruct (find (has_chunk_id (chunk_id r)) l) as [y|] eqn:Fl.
        -- split; [|now left]. intros [Q|[<-|[]]]; [exact Q|exfalso].
           apply find_some in Fl as [Hy Py]. unfold has_chunk_id in Py.
           apply value_eqb_eq in Py. apply Fresh, Ids. rewrite <- Py.
           now apply in_map.
        -- simpl. destruct (has_chunk_id (chunk_id r) x) eqn:Hx.
           ++ split; [|intros Q; injection Q as <-; right; now left].
              intros [Q|[<-|[]]]; [discriminate|reflexivity].
           ++ split; [|discriminate]. intros [Q|[<-|[]]]; [discriminate|].
              unfold has_chunk_id in Hx. now rewrite value_eqb_refl in Hx.
      * intros c. rewrite map_app, in_app_iff, Ids. simpl. intuition.
Qed.

(** The results kept so far stand in front of those kept later. *)
Lemma unique_fold_from (l : list RetrievalResult) :
  forall seen acc,
  fold_left unique_step l (seen, acc)
  = (fst (fold_left unique_step l (seen, [])),
     acc ++ snd (fold_left unique_step l (seen, []))).
Proof.
  induction l as [|y l IH]; intros seen acc.
  - simpl. now rewrite app_nil_r.
  - cbn [fold_left unique_step].
    destruct (existsb (value_eqb (chunk_id y)) seen); [apply IH|].
    rewrite (IH _ (acc ++ [y])), (IH _ ([] ++ [y])). cbn [fst snd].
    now rewrite <- app_assoc.
Qed.

(** Having seen one more identifier is the same as not meeting it. *)
Lemma unique_fold_seen (c : value) (l : list RetrievalResult) :
  forall seen seen',
  (forall v, existsb (value_eqb v) seen'
             = existsb (value_eqb v) seen || value_eqb v c) ->
  snd (fold_left unique_step l (seen', []))
  = snd (fold_left unique_step
           (filter (fun y => negb (has_chunk_id c y)) l) (seen, [])).
Proof.
  induction l as [|y l IH]; intros seen seen' Same; [reflexivity|].
  cbn [fold_left unique_step filter]. unfold has_chunk_id at 1.
  rewrite Same. destruct (value_eqb (chunk_id y) c) eqn:E.
  - rewrite orb_true_r. cbn [negb]. now apply IH.
  - rewrite orb_false_r. cbn [negb fold_left unique_step].
    destruct (existsb (value_eqb (chunk_id y)) seen); [now apply IH|].
    rewrite (unique_fold_from l), (unique_fold_from (filter _ l)). cbn [snd].
    f_equal. apply IH. intros v. cbn [existsb]. rewrite Same.
    now rewrite orb_assoc.
Qed.

Lemma unique_by_chunk_id_cons (x : RetrievalResult)
    (all_results : list RetrievalResult) :
  unique_by_chunk_id (x :: all_results)
  = x :: unique_by_chunk_id
           (filter (fun y => negb (has_chunk_id (chunk_id x) y)) all_results).
Proof.
  unfold unique_by_chunk_id. cbn [fold_left unique_step existsb].
  rewrite unique_fold_from. cbn [snd app]. f_equal.
  apply unique_fold_seen. intros v. cbn [existsb orb]. apply orb_false_r.
Qed.

(** The results of the queries are gathered in the order of the queries,
    the retriever being handed from one query to the next. *)
Lemma retrieve_all_from {retriever : Type} (agents : Agents retriever)
    (top_k : Z) (filters : dict) (queries : list str) :
  forall acc (r : retriever),
  fold_left
    (fun (st : list RetrievalResult * retriever) q =>
       let (all_results, r) := st in
       let (results, r') :=
         retrieve agents r q top_k
           (match filters with [] => None | _ => Some filters end) in
       (all_results ++ results, r'))
    queries (acc, r)
  = (acc ++ fst (retrieve_all agents top_k filters queries r),
     snd (retrieve_all agents top_k filters queries r)).
Proof.
  unfold retrieve_all. induction queries as [|q queries IH]; intros acc r.
  - simpl. now rewrite app_nil_r.
  - cbn [fold_left].
    destruct (retrieve agents r q top_k _) as [results r'].
    rewrite (IH (acc ++ results)), (IH ([] ++ results)). cbn [fst snd app].
    now rewrite <- app_assoc.
Qed.

Lemma retrieve_all_cons {retriever : Type} (agents : Agents retriever)
    (top_k : Z) (filters : dict) (q : str) (queries : list str) (r : retriever) :
  let first :=
    retrieve agents r q top_k
      (match filters with [] => None | _ => Some filters end) in
  let others := retrieve_all agents top_k filters queries (snd first) in
  retrieve_all agents top_k filters (q :: queries) r
  = (fst first ++ fst others, snd others).
Proof.
  cbv zeta. unfold retrieve_all at 1. cbn [fold_left].
  destruct (retrieve agents r q top_k _) as [results r'].
  rewrite retrieve_all_from. reflexivity.
Qed.

(** X26.  [retrieve_context] asks the retriever once for every query, in
    order, with the filters extracted from the question ([None] when
    there are none) and the retriever as the query before left it; the
    queries are the sub-queries of the cleaned question when
    decomposition is requested and enabled, and the cleaned question alone
    otherwise.  The results gathered are reduced to one per chunk
    identifier: the first result stays, and those that follow it with
    another identifier are reduced in the same way, so that the results
    of an earlier query win over those of a later one and no identifier
    retrieved is lost.  With reranking disabled the context returned is
    exactly the first [top_k] of these results (Python's
    [unique_results[:top_k]]), and the reranker is only called, on all of
    them, when it is enabled and more than [top_k] are left. *)
Theorem retrieve_context_keeps_first_of_each_chunk {retriever : Type}
    (agents : Agents retriever) (r : retriever) (query : str) (top_k : Z)
    (use_decomposition : bool) :
  let filters := extract_filters agents query in
  let metadata_filter := match filters with [] => None | _ => Some filters end in
  let cleaned_query :=
    match filters with [] => query | _ => clean_query agents query filters end in
  let queries :=
    if use_decomposition && enable_decomposition agents
    then decompose_query agents cleaned_query
    else [cleaned_query] in
  let gathered := retrieve_all agents top_k filters queries r in
  let unique_results := unique_by_chunk_id (fst gathered) in
  (unique_by_chunk_id [] = []
   /\ forall x all_results,
        unique_by_chunk_id (x :: all_results)
        = x :: unique_by_chunk_id
                 (filter (fun y => negb (has_chunk_id (chunk_id x) y)) all_results))
  /\ (forall all_results,
        NoDup (map chunk_id (unique_by_chunk_id all_results))
        /\ (forall x, In x (unique_by_chunk_id all_results)
                      <-> find (has_chunk_id (chunk_id x)) all_results = Some x)
        /\ (forall c, In c (map chunk_id all_results)
                      <-> In c (map chunk_id (unique_by_chunk_id all_results))))
  /\ (forall r0, retrieve_all agents top_k filters [] r0 = ([], r0))
  /\ (forall q qs r0,
        let first := retrieve agents r0 q top_k metadata_filter in
        let others := retrieve_all agents top_k filters qs (snd first) in
        retrieve_all agents top_k filters (q :: qs) r0
        = (fst first ++ fst others, snd others))
  /\ snd (retrieve_context agents r query top_k use_decomposition) = snd gathered
  /\ (enable_rerank agents = false ->
      fst (retrieve_context agents r query top_k use_decomposition)
      = Return (take unique_results top_k)
      /\ ((0 <= top_k)%Z ->
          fst (retrieve_context agents r query top_k use_decomposition)
          = Return (firstn (Z.to_nat top_k) unique_results))
      /\ NoDup (map chunk_id (take unique_results top_k)))
  /\ (enable_rerank agents = true ->
      fst (retrieve_context agents r query top_k use_decomposition)
      = if (top_k <? Z.of_nat (length unique_results))%Z
        then rerank agents cleaned_query unique_results (Some top_k)
        else Return (take unique_results top_k)).
Proof.
  cbv zeta.
  assert (Unique : forall all_results,
            NoDup (map chunk_id (unique_by_chunk_id all_results))
            /\ (forall x, In x (unique_by_chunk_id all_results)
                          <-> find (has_chunk_id (chunk_id x)) all_results = Some x)
            /\ (forall c, In c (map chunk_id all_results)
                          <-> In c (map chunk_id (unique_by_chunk_id all_results)))).
  { intros all_results. unfold unique_by_chunk_id.
    destruct (unique_fold_results all_results) as (Seen & ND & First & Ids).
    split; [exact ND|]. split; [exact First|].
    intros c. now rewrite Ids, Seen. }
  split; [split; [reflexivity|apply unique_by_chunk_id_cons]|].
  split; [exact Unique|].
  split; [reflexivity|].
  split; [intros q qs r0; apply retrieve_all_cons|].
  split; [|split].
  - unfold retrieve_context.
    destruct (retrieve_all agents top_k _ _ r) as [all_results r']. reflexivity.
  - intros Off. unfold retrieve_context. rewrite Off.
    destruct (retrieve_all agents top_k _ _ r) as [all_results r']. cbn [fst andb].
    split; [reflexivity|]. split.
    + intros K. now rewrite take_positive.
    + apply NoDup_take_map. apply Unique.
  - intros On. unfold retrieve_context. rewrite On.
    destruct (retrieve_all agents top_k _ _ r) as [all_results r']. reflexivity.
Qed.

End TurnContext.

(** ** Failed retrieval and the history of a turn *)

Section TurnHistory.
Import PyStr Retriever RAG.
Context `{F : FloatOps} `{U : UnicodeData}.

Ltac run_chat :=
  unfold new_messages, new_events, chat, chat_body, generate_with_ollama_stream,
    try_except, bind, of_outcome;
  cbn -[build_prompt user assistant no_context_reply ollama_empty_reply skipn
        Storage.get_session_messages concat yield_chunks removelast].

Ltac settle_chat :=
  cbn -[build_prompt user assistant no_context_reply ollama_empty_reply skipn
        Storage.get_session_messages concat yield_chunks removelast];
  rewrite ?create_session_messages, <- ?app_assoc, ?skipn_length_app.

(** X27.  When retrieval raises, the turn still ends normally: it yields
    the status line and then one error item whose message is
    [An error occurred: ] followed by the text of the exception, calls no
    generator, and stores the user's question followed by that error
    message as the assistant's reply. *)
Theorem failed_retrieval_is_reported_and_stored (env : Env) (query : str)
    (session_id : option str) (stream : bool) (w : world) (e : exn) :
  retrieve_context env query = Raise e ->
  let sid := session_of env session_id in
  let turn := chat env query session_id stream in
  let error_msg := cps "An error occurred: " ++ exn_msg e in
  fst (turn w) = Return tt
  /\ new_events turn w
     = [Yielded (Status (cps "Retrieving relevant documents..."));
        Retrieved query;
        Yielded (Error error_msg)]
  /\ map said (new_messages turn w)
     = [(sid, user, query); (sid, assistant, error_msg)].
Proof.
  intros R sid turn error_msg. unfold turn, sid, error_msg. clear turn sid error_msg.
  split; [|split].
  - run_chat. rewrite R. destruct session_id as [[|c sid0]|]; reflexivity.
  - run_chat. rewrite R.
    destruct session_id as [[|c sid0]|]; settle_chat; reflexivity.
  - run_chat. rewrite R.
    destruct session_id as [[|c sid0]|]; settle_chat; reflexivity.
Qed.

Lemma removelast_first_ten {A} (msgs : list A) (row : A) :
  removelast (firstn 10 (msgs ++ [row])) = firstn 9 msgs.
Proof.
  destruct (Nat.le_gt_cases 10 (length msgs)) as [Long|Short].
  - rewrite firstn_app. replace (10 - length msgs) with 0 by lia.
    simpl firstn at 2. rewrite app_nil_r.
    apply removelast_firstn. lia.
  - rewrite firstn_all2 by (rewrite length_app; simpl; lia).
    rewrite removelast_last. symmetry. apply firstn_all2. lia.
Qed.

Lemma no_generator_in_chunks (chunks : list str) :
  filter is_generator_call (map (fun c => Yielded (Response c)) chunks) = [].
Proof. induction chunks; simpl; auto. Qed.

(** X28.  The conversation a turn puts in its prompt is read from the
    nine oldest messages of the session: the history is selected oldest
    first with a limit of ten, after the question of the turn has been
    stored, and its last item is dropped.  So from the tenth message of a
    session on, the latest exchanges never reach the model, and the prompt
    shows the same messages on every turn.  The turn calls the local
    generator once, with that prompt, and no other generator. *)
Theorem prompt_history_is_the_nine_oldest (env : Env) (query : str)
    (ch : char) (sid0 : str) (stream : bool) (w : world)
    (c : RetrievalResult) (cs : list RetrievalResult) :
  let sid := ch :: sid0 in
  retrieve_context env query = Return (c :: cs) ->
  (forall m, In m (Storage.chat_messages (db w)) ->
     Storage.msg_session_id m = sid ->
     (Storage.msg_created_at m <= clock env (statements w))%Z) ->
  let oldest := firstn 9 (Storage.get_session_messages sid None (db w)) in
  let prompt :=
    build_prompt query (c :: cs)
      (map (fun msg => (Storage.role msg, Storage.content msg)) oldest) in
  filter is_generator_call (new_events (chat env query (Some sid) stream) w)
  = [OllamaCalled prompt].
Proof.
  intros sid R Mono oldest prompt.
  pose proof (session_messages_after_add (clock env (statements w)) sid user query
                None (db w) Mono) as Added.
  assert (H10 : removelast
                  (Storage.get_session_messages sid (Some 10%Z)
                     (Storage.add_message (clock env (statements w)) sid user query
                        None (db w)))
                = oldest).
  { change (Storage.get_session_messages sid (Some 10%Z)
              (Storage.add_message (clock env (statements w)) sid user query
                 None (db w)))
      with (firstn 10 (Storage.get_session_messages sid None
                         (Storage.add_message (clock env (statements w)) sid
                            user query None (db w)))).
    rewrite Added. apply removelast_first_ten. }
  unfold sid in *. destruct stream.
  - run_chat. rewrite R. settle_chat. rewrite H10. fold prompt.
    rewrite yield_chunks_run.
    destruct (ollama_stream env prompt) as [|x chunks] eqn:E; settle_chat;
      rewrite ?filter_app; cbn [filter is_generator_call app];
      rewrite ?no_generator_in_chunks; reflexivity.
  - run_chat. rewrite R. settle_chat. rewrite H10. fold prompt.
    destruct (concat (ollama_stream env prompt)) as [|x resp] eqn:E;
      settle_chat; reflexivity.
Qed.

Lemma add_message_tables (now : Z) (sid r c : str) (meta : option str)
    (d : Storage.DB) :
  Storage.chat_sessions (Storage.add_message now sid r c meta d)
  = Storage.chat_sessions d
  /\ Storage.jobs (Storage.add_message now sid r c meta d) = Storage.jobs d.
Proof. split; reflexivity. Qed.

Lemma create_session_on_record (now : Z) (sid : str) (meta : option str)
    (d : Storage.DB) :
  existsb (fun s => str_eqb (Storage.cs_session_id s) sid)
    (Storage.chat_sessions (Storage.create_session now sid meta d)) = true
  /\ Storage.jobs (Storage.create_session now sid meta d) = Storage.jobs d.
Proof.
  unfold Storage.create_session.
  destruct (existsb _ (Storage.chat_sessions d)) eqn:E; [now split|].
  simpl. split; [|reflexivity].
  rewrite existsb_app. simpl. rewrite str_eqb_refl. apply orb_true_r.
Qed.

(** The store a turn leaves differs from the store it found by messages
    only, apart from the session [chat] creates when none is given. *)
Lemma chat_store (env : Env) (query : str) (session_id : option str)
    (stream : bool) (w : world) :
  exists d,
    (d = db w
     \/ d = Storage.create_session (clock env (statements w))
              (uuid4 env) None (db w))
    /\ (match session_id with
        | Some (_ :: _) => d = db w
        | _ => d = Storage.create_session (clock env (statements w))
                     (uuid4 env) None (db w)
        end)
    /\ Storage.chat_sessions (db (snd (chat env query session_id stream w)))
       = Storage.chat_sessions d
    /\ Storage.jobs (db (snd (chat env query session_id stream w)))
       = Storage.jobs d.
Proof.
  destruct stream.
  - run_chat.
    destruct (retrieve_context env query) as [[|c cs]|e];
      destruct session_id as [[|c0 sid0]|]; settle_chat;
      try (eexists; split; [|split; [reflexivity|split; reflexivity]];
           auto; fail);
      match goal with |- context [ollama_stream env ?p] => set (prompt := p) end;
      rewrite yield_chunks_run;
      destruct (ollama_stream env prompt) as [|x chunks] eqn:E; settle_chat;
      eexists; (split; [|split; [reflexivity|split; reflexivity]]); auto.
  - run_chat.
    destruct (retrieve_context env query) as [[|c cs]|e];
      destruct session_id as [[|c0 sid0]|]; settle_chat;
      try (eexists; split; [|split; [reflexivity|split; reflexivity]];
           auto; fail);
      match goal with |- context [ollama_stream env ?p] => set (prompt := p) end;
      destruct (concat (ollama_stream env prompt)) as [|x resp] eqn:E;
      settle_chat;
      eexists; (split; [|split; [reflexivity|split; reflexivity]]); auto.
Qed.

(** Every turn stores the question under the session of the turn, and
    then what the assistant said, once or twice. *)
Lemma turn_messages (env : Env) (query : str) (session_id : option str)
    (stream : bool) (w : world) :
  exists reply replies,
    map said (new_messages (chat env query session_id stream) w)
    = (session_of env session_id, user, query)
      :: map (fun r => (session_of env session_id, assistant, r))
           (reply :: replies).
Proof.
  destruct stream.
  - destruct (streaming_turn_stores_one_reply env query session_id w) as (r & E).
    exists r, []. exact E.
  - run_chat.
    destruct (retrieve_context env query) as [[|c cs]|e];
      destruct session_id as [[|c0 sid0]|]; settle_chat;
      try (eexists _, []; reflexivity);
      match goal with |- context [ollama_stream env ?p] => set (prompt := p) end;
      destruct (concat (ollama_stream env prompt)) as [|x resp] eqn:E;
      settle_chat;
      first [eexists _, []; reflexivity | eexists _, [_]; reflexivity].
Qed.

(** X30.  [chat] registers a session only when it is given none: called
    with a session identifier it writes no session record, whether the
    session is on record or not, so its messages may be stored under an
    identifier [chat_sessions] does not hold; called without one (or with
    the empty string) it stores the messages under a fresh identifier and
    that session is on record afterwards.  In both cases the turn stores
    the question and then at least one assistant message under the session
    of the turn, and it never touches the jobs. *)
Theorem chat_registers_a_session_only_when_given_none (env : Env) (query : str)
    (session_id : option str) (stream : bool) (w : world) :
  let after := db (snd (chat env query session_id stream w)) in
  match session_id with
  | Some (_ :: _) => Storage.chat_sessions after = Storage.chat_sessions (db w)
  | _ =>
      existsb (fun s => str_eqb (Storage.cs_session_id s) (uuid4 env))
        (Storage.chat_sessions after) = true
  end
  /\ Storage.jobs after = Storage.jobs (db w)
  /\ (exists reply replies,
        map said (new_messages (chat env query session_id stream) w)
        = (session_of env session_id, user, query)
          :: map (fun r => (session_of env session_id, assistant, r))
               (reply :: replies)).
Proof.
  intros after. unfold after.
  destruct (chat_store env query session_id stream w) as (d & _ & D & Ss & Js).
  rewrite Ss, Js. split; [|split].
  - destruct session_id as [[|c0 sid0]|]; subst d;
      try reflexivity; apply create_session_on_record.
  - destruct session_id as [[|c0 sid0]|]; subst d;
      try reflexivity; apply create_session_on_record.
  - apply turn_messages.
Qed.

End TurnHistory.

Lemma failed_retrieval_witness :
  let env :=
    RAG.env_with (PyStr.Raise (PyStr.Exception "RuntimeError" (PyStr.cps "no route")))
      [] in
  map RAG.said
    (RAG.new_messages
       (@RAG.chat _ PyStr.ascii_tables env (PyStr.cps "budget?")
          (Some (PyStr.cps "s1")) true)
       RAG.fresh_world)
  = [(PyStr.cps "s1", RAG.user, PyStr.cps "budget?");
     (PyStr.cps "s1", RAG.assistant, PyStr.cps "An error occurred: no route")].
Proof.
  intros env.
  exact (proj2 (proj2 (@failed_retrieval_is_reported_and_stored
                         _ PyStr.ascii_tables env
                         (PyStr.cps "budget?") (Some (PyStr.cps "s1")) true
                         RAG.fresh_world
                         (PyStr.Exception "RuntimeError" (PyStr.cps "no route"))
                         eq_refl))).
Defined.

Lemma prompt_history_witness :
  let env := RAG.env_with (PyStr.Return [RAG.sample_result]) [PyStr.cps "ok"] in
  let w := RAG.ten_messages_world in
  let sid := (115%N :: PyStr.cps "1") in
  filter RAG.is_generator_call
    (RAG.new_events
       (@RAG.chat _ PyStr.ascii_tables env (PyStr.cps "and now?") (Some sid) true)
       w)
  = [RAG.OllamaCalled
       (@RAG.build_prompt _ PyStr.ascii_tables
          (PyStr.cps "and now?") [RAG.sample_result]
          (map (fun msg => (Storage.role msg, Storage.content msg))
             (firstn 9 (Storage.get_session_messages sid None (RAG.db w)))))].
Proof.
  intros env w sid.
  assert (Old : forallb (fun m => (Storage.msg_created_at m <=? 10)%Z)
                  (Storage.chat_messages (RAG.db w)) = true)
    by (vm_compute; reflexivity).
  assert (Mono : forall m, In m (Storage.chat_messages (RAG.db w)) ->
                   Storage.msg_session_id m = sid ->
                   (Storage.msg_created_at m <= RAG.clock env (RAG.statements w))%Z).
  { intros m Hm _. rewrite forallb_forall in Old. apply Z.leb_le, Old, Hm. }
  exact (@prompt_history_is_the_nine_oldest _ PyStr.ascii_tables
           env (PyStr.cps "and now?") 115%N (PyStr.cps "1") true w
           RAG.sample_result [] eq_refl Mono).
Defined.

(** ** Packing paragraphs and sentences *)

Section Packing.
Import PyStr Chunking.
Context `{T : Tokenizer}.

Lemma nonempty_not_nil (a : str) : nonempty a = true <-> a <> [].
Proof. destruct a; simpl; split; congruence. Qed.

Lemma inside_nil (u : str) : inside u [] -> u = [].
Proof.
  intros (a & b & E). symmetry in E.
  apply app_eq_nil in E as [_ E]. now apply app_eq_nil in E as [E _].
Qed.

Lemma inside_refl (u : str) : inside u u.
Proof. exists [], []. now rewrite app_nil_r. Qed.

(** One turn of the loop holds what was held before, holds the unit of
    the turn, and finishes no empty chunk. *)
Lemma pack_step_holds (sep : str) (max_tokens overlap_tokens : Z)
    (st : list str * str) (unit : str) :
  let st' := pack_step sep max_tokens overlap_tokens st unit in
  (forall u, u <> [] -> held u st -> held u st')
  /\ (strip unit <> [] -> held (strip unit) st')
  /\ ((forall c, In c (fst st) -> c <> []) -> forall c, In c (fst st') -> c <> []).
Proof.
  destruct st as [chunks current]. unfold pack_step.
  destruct (nonempty (strip unit)) eqn:Nu; simpl negb; cbv iota zeta.
  2:{ split; [auto|]. split; [|auto].
      intros N. apply nonempty_not_nil in N. congruence. }
  assert (Cur : forall u, u <> [] -> inside u current -> nonempty current = true).
  { intros u N I. destruct current; [|reflexivity].
    apply inside_nil in I. contradiction. }
  destruct (count_tokens _ <=? max_tokens)%Z.
  { split; [|split; [|auto]].
    - intros u N [H|H]; [now left|right]. cbn [snd] in *.
      rewrite (Cur u N H). destruct H as (a & b & ->).
      exists a, (b ++ sep ++ strip unit). now rewrite <- !app_assoc.
    - intros _. right. cbn [snd].
      destruct (nonempty current).
      + exists (current ++ sep), []. now rewrite app_nil_r, <- app_assoc.
      + apply inside_refl. }
  set (chunks1 := if nonempty current then chunks ++ [current] else chunks).
  assert (Old : forall u, u <> [] -> held u (chunks, current) ->
                  exists c, In c chunks1 /\ inside u c).
  { intros u N [(c & Hc & I)|I]; cbn [fst snd] in *.
    - exists c. split; [|exact I]. unfold chunks1.
      destruct (nonempty current); [apply in_or_app; now left|exact Hc].
    - exists current. split; [|exact I]. unfold chunks1. rewrite (Cur u N I).
      apply in_or_app. right. now left. }
  assert (Ne1 : (forall c, In c chunks -> c <> []) -> forall c, In c chunks1 -> c <> []).
  { intros Ne. unfold chunks1. destruct (nonempty current) eqn:Nc; [|exact Ne].
    intros c Hc. apply in_app_or in Hc as [Hc|[<-|[]]]; [now apply Ne|].
    now apply nonempty_not_nil. }
  clearbody chunks1.
  destruct chunks1 as [|c0 chunks0] eqn:C1.
  { split; [|split; [|intros _ c []]].
    - intros u N H. destruct (Old u N H) as (c & [] & _).
    - intros _. right. apply inside_refl. }
  rewrite <- C1 in *.
  destruct (0 <? overlap_tokens)%Z; (split; [|split]); cbn [fst snd]; auto.
  - intros u N H. left. now apply Old.
  - intros _. right. cbn [snd].
    match goal with
    | |- inside _ (?o ++ sep ++ _) => exists (o ++ sep), []
    end.
    now rewrite app_nil_r, <- app_assoc.
  - intros u N H. left. now apply Old.
  - intros _. right. apply inside_refl.
Qed.

Lemma pack_fold_holds (sep : str) (max_tokens overlap_tokens : Z)
    (units : list str) :
  forall st,
  let st' := fold_left (pack_step sep max_tokens overlap_tokens) units st in
  (forall u, u <> [] -> held u st -> held u st')
  /\ (forall unit, In unit units -> strip unit <> [] -> held (strip unit) st')
  /\ ((forall c, In c (fst st) -> c <> []) -> forall c, In c (fst st') -> c <> []).
Proof.
  induction units as [|x units IH]; intros st; cbn [fold_left].
  - cbv zeta. split; [auto|]. split; [intros unit []|auto].
  - destruct (pack_step_holds sep max_tokens overlap_tokens st x) as (S1 & S2 & S3).
    destruct (IH (pack_step sep max_tokens overlap_tokens st x)) as (I1 & I2 & I3).
    cbv zeta. split; [|split].
    + intros u N H. apply I1; [exact N|]. now apply S1.
    + intros unit [<-|Hu] N; [|now apply I2].
      apply I1; [exact N|]. now apply S2.
    + intros Ne. apply I3. now apply S3.
Qed.

(** X29.  The packing loop of [chunk_text_recursive] loses no paragraph
    and no sentence: every unit that is not blank occurs, stripped, inside
    one of the chunks returned, and no chunk returned is empty.  A text
    over the bound with more than one paragraph is chunked by this loop,
    so all its paragraphs reach the chunks. *)
Theorem pack_loses_no_unit (sep : str) (max_tokens overlap_tokens : Z)
    (units : list str) :
  let chunks := pack sep max_tokens overlap_tokens units in
  (forall unit, In unit units -> strip unit <> [] ->
     exists chunk, In chunk chunks /\ inside (strip unit) chunk)
  /\ (forall chunk, In chunk chunks -> chunk <> [])
  /\ (forall self t language mx ov,
        (int_or mx (chunk_size self) < count_tokens t)%Z ->
        1 < length (split_blank_lines t) ->
        chunk_text_recursive self t language mx ov
        = Some (pack [NL; NL] (int_or mx (chunk_size self))
                  (int_or ov (chunk_overlap self)) (split_blank_lines t))).
Proof.
  intros chunks. unfold chunks, pack.
  destruct (pack_fold_holds sep max_tokens overlap_tokens units ([], []))
    as (_ & Held & Ne).
  cbv zeta in Held, Ne.
  destruct (fold_left (pack_step sep max_tokens overlap_tokens) units ([], []))
    as [done current].
  cbn [fst snd] in *. split; [|split].
  - intros unit Hu N. destruct (Held unit Hu N) as [(c & Hc & I)|I].
    + exists c. split; [|exact I].
      destruct (nonempty current); [apply in_or_app; now left|exact Hc].
    + exists current. split; [|exact I].
      destruct current as [|x current']; [apply inside_nil in I; contradiction|].
      simpl. apply in_or_app. right. now left.
  - intros chunk Hc. destruct (nonempty current) eqn:Nc.
    + apply in_app_or in Hc as [Hc|[<-|[]]].
      * apply Ne; [intros c []|exact Hc].
      * now apply nonempty_not_nil.
    + apply Ne; [intros c []|exact Hc].
  - intros self t language mx ov Over Many. unfold chunk_text_recursive.
    apply Z.leb_gt in Over. rewrite Over.
    apply Nat.ltb_lt in Many.
    match goal with
    | |- context [if ?c then split_blank_lines t else split_blank_lines t] =>
        destruct c
    end; now rewrite Many.
Qed.

End Packing.

Lemma language_filter_witness :
  @MetadataFilter.extract_language_filter PyStr.ascii_tables
    (PyStr.cps "Summarise the Bengali circulars")
  = Some (PyStr.cps "en").
Proof.
  exact (proj1 (proj2 (@language_filter_is_the_first_code_found PyStr.ascii_tables
                         (PyStr.cps "Summarise the Bengali circulars")))
           eq_refl).
Defined.

Lemma rerank_with_cpu_witness :
  let mk := fun (c body : string) (s : Z) =>
    @Retriever.Build_RetrievalResult Retriever.int_scores
      (PyStr.VStr (PyStr.cps c)) (PyStr.VStr (PyStr.cps "doc"))
      (PyStr.VStr (PyStr.cps body)) s (PyStr.VStr (PyStr.cps "en"))
      (PyStr.VInt 1) [] in
  let self :=
    {| Reranker.enable_rerank := true; Reranker.rerank_backend := PyStr.cps "cpu";
       Reranker.rerank_top_k := 2%Z; Reranker.rerank_model := PyStr.cps "flash" |} in
  let results := [mk "c0"%string "travel notes"%string 1%Z;
                  mk "c1"%string "budget plan"%string 1%Z;
                  mk "c2"%string "the Budget"%string 1%Z;
                  mk "c3"%string "minutes"%string 1%Z] in
  exists ranked,
    @Reranker.rerank_with_cpu Retriever.int_scores PyStr.ascii_tables self
      (PyStr.cps "Budget budget") results None
    = PyStr.Return (firstn 2 ranked)
    /\ StronglySorted (@Retriever.score_ge Retriever.int_scores) ranked
    /\ length ranked = 4
    /\ firstn 2 ranked = [mk "c1"%string "budget plan"%string 2%Z;
                          mk "c2"%string "the Budget"%string 2%Z].
Proof.
  intros mk self results.
  destruct (@rerank_with_cpu_orders_by_overlap Retriever.int_scores
              PyStr.ascii_tables self (fun _ => PyStr.Return [])
              (PyStr.cps "Budget budget") results None) as (Ok & _).
  - intros a b. simpl. rewrite !Z.leb_le. lia.
  - intros a b c. simpl. rewrite !Z.leb_le. lia.
  - destruct Ok as (scored & ranked & F2 & P & S & _ & _ & E).
    + repeat constructor; eexists; reflexivity.
    + exists ranked. specialize (E ltac:(simpl; lia)).
      change (Z.to_nat (PyStr.int_or None (Reranker.rerank_top_k self))) with 2 in E.
      split; [exact E|]. split; [exact S|]. split.
      * rewrite <- (Permutation_length P), <- (Forall2_length F2). reflexivity.
      * assert (Run : @Reranker.rerank_with_cpu Retriever.int_scores
                        PyStr.ascii_tables self (PyStr.cps "Budget budget")
                        results None
                      = PyStr.Return [mk "c1"%string "budget plan"%string 2%Z;
                                      mk "c2"%string "the Budget"%string 2%Z])
          by (vm_compute; reflexivity).
        rewrite E in Run. now injection Run.
Defined.

Lemma bm25_index_witness :
  let self :=
    @Retriever.Build_RetrieverAgent Retriever.int_scores Retriever.overlap_index
      true (PyStr.cps "weighted") 6%Z 4%Z true None [] in
  let built :=
    snd (@Retriever.sparse_search Retriever.int_scores Retriever.overlap_index
           PyStr.ascii_tables self (PyStr.Return Retriever.two_language_collection)
           (PyStr.cps "budget") 1%Z None) in
  snd (@Retriever.sparse_search Retriever.int_scores Retriever.overlap_index
         PyStr.ascii_tables built (PyStr.Return []) (PyStr.cps "travel") 2%Z None)
  = built
  /\ fst (@Retriever.sparse_search Retriever.int_scores Retriever.overlap_index
            PyStr.ascii_tables self
            (PyStr.Raise (PyStr.Exception "ConnectionError" (PyStr.cps "refused")))
            (PyStr.cps "budget") 1%Z None)
     = [].
Proof.
  intros self built. split.
  - refine (proj1 (proj1 (@bm25_index_is_built_once Retriever.int_scores
                            Retriever.overlap_index PyStr.ascii_tables self
                            (PyStr.Return Retriever.two_language_collection)
                            (PyStr.cps "budget") 1%Z None)
                     _ (PyStr.Return []) (PyStr.Return [])
                     (PyStr.cps "travel") 2%Z None)).
    vm_compute. discriminate.
  - refine (proj1 (proj2 (@bm25_index_is_built_once Retriever.int_scores
                            Retriever.overlap_index PyStr.ascii_tables self
                            (PyStr.Raise (PyStr.Exception "ConnectionError"
                                            (PyStr.cps "refused")))
                            (PyStr.cps "budget") 1%Z None)
                     eq_refl (or_introl (ex_intro _ _ eq_refl)))).
Defined.

Lemma retrieve_witness :
  let self :=
    @Retriever.Build_RetrieverAgent Retriever.int_scores Retriever.overlap_index
      true (PyStr.cps "weighted") 6%Z 4%Z true None [] in
  let hit := fun (c : string) (s : Z) =>
    @Retriever.Build_Hit Retriever.int_scores
      [(PyStr.cps "chunk_id", PyStr.VStr (PyStr.cps c))] s in
  let out :=
    @Retriever.retrieve Retriever.int_scores Retriever.overlap_index
      PyStr.ascii_tables unit self (fun _ => Some tt)
      (fun _ _ _ => PyStr.Return [hit "en_report_chunk_0000"%string 3%Z;
                                  hit "en_report_chunk_0000"%string 2%Z])
      (PyStr.Return Retriever.two_language_collection)
      (PyStr.cps "budget") 5%Z None in
  NoDup (map (@Retriever.chunk_id Retriever.int_scores) (fst out))
  /\ (Z.of_nat (length (fst out)) <= 5)%Z.
Proof.
  intros self hit out.
  destruct (@retrieve_returns_ranked_distinct Retriever.int_scores
              Retriever.overlap_index PyStr.ascii_tables unit self
              (fun _ => Some tt)
              (fun _ _ _ => PyStr.Return [hit "en_report_chunk_0000"%string 3%Z;
                                          hit "en_report_chunk_0000"%string 2%Z])
              (PyStr.Return Retriever.two_language_collection)
              (PyStr.cps "budget") 5%Z None) as (L & D & _).
  - intros a b. simpl. rewrite !Z.leb_le. lia.
  - intros a b c. simpl. rewrite !Z.leb_le. lia.
  - split; [exact (proj1 (D eq_refl))|]. apply L. lia.
Defined.

Lemma sparse_search_ranked_witness :
  let self :=
    @Retriever.Build_RetrieverAgent Retriever.int_scores Retriever.overlap_index
      true (PyStr.cps "weighted") 6%Z 4%Z true None [] in
  let out :=
    @Retriever.sparse_search Retriever.int_scores Retriever.overlap_index
      PyStr.ascii_tables self (PyStr.Return Retriever.two_language_collection)
      (PyStr.cps "travel budget travel") 1%Z None in
  StronglySorted (@Retriever.score_ge Retriever.int_scores) (fst out)
  /\ (Z.of_nat (length (fst out)) <= 1)%Z.
Proof.
  intros self out.
  destruct (@sparse_search_results_are_ranked Retriever.int_scores
              Retriever.overlap_index PyStr.ascii_tables self
              (PyStr.Return Retriever.two_language_collection)
              (PyStr.cps "travel budget travel") 1%Z None) as (S & L & _).
  - intros a b. simpl. rewrite !Z.leb_le. lia.
  - intros a b c. simpl. rewrite !Z.leb_le. lia.
  - split; [exact S|]. apply L. lia.
Defined.

Lemma rrf_fusion_witness :
  let mk := fun (c : string) (s : Z) =>
    @Retriever.Build_RetrievalResult Retriever.int_scores
      (PyStr.VStr (PyStr.cps c)) (PyStr.VStr (PyStr.cps "doc"))
      (PyStr.VStr (PyStr.cps "text")) s (PyStr.VStr (PyStr.cps "en"))
      (PyStr.VInt 1) [] in
  let self :=
    @Retriever.Build_RetrieverAgent Retriever.int_scores Retriever.overlap_index
      true (PyStr.cps "rrf") 6%Z 4%Z true None [] in
  let dense := [mk "c0"%string 9%Z; mk "c1"%string 7%Z] in
  let sparse := [mk "c1"%string 5%Z; mk "c2"%string 3%Z] in
  Retriever.results_with (PyStr.VStr (PyStr.cps "c1"))
    (Retriever.fuse_results self dense sparse (PyStr.cps "rrf"))
  = [mk "c1"%string (1000000 / 62 + 1000000 / 61)%Z].
Proof.
  intros mk self dense sparse.
  refine (proj1 (@rrf_fusion_scores_and_order Retriever.int_scores
                   Retriever.overlap_index self dense sparse (PyStr.cps "rrf")
                   eq_refl _ _)
            (PyStr.VStr (PyStr.cps "c1")) 1 (mk "c1"%string 7%Z)
            0 (mk "c1"%string 5%Z) eq_refl eq_refl).
  - intros a b. simpl. rewrite !Z.leb_le. lia.
  - intros a b c. simpl. rewrite !Z.leb_le. lia.
Defined.

Lemma token_windows_witness :
  (0 <= 1 < 3)%Z
  /\ @Chunking.token_windows Chunking.word_tokenizer 7
       (@Chunking.encode Chunking.word_tokenizer (PyStr.cps "a b c d e f g"))
       3%Z 2%Z 0%Z
     = Some [PyStr.cps "a b c"; PyStr.cps "c d e"; PyStr.cps "e f g"; PyStr.cps "g"].
Proof.
  split; [lia|].
  exact (proj1 (@token_windows_cover_the_tokens Chunking.word_tokenizer
                  (@Chunking.encode Chunking.word_tokenizer
                     (PyStr.cps "a b c d e f g")) 3%Z 1%Z
                  (conj (Zle_bool_imp_le 0 1 eq_refl) (eq_refl : (1 ?= 3)%Z = Lt)))).
Defined.

Lemma token_windows_never_end_witness :
  @Chunking.chunk_text_recursive Chunking.word_tokenizer
    {| Chunking.chunk_size := 500; Chunking.chunk_overlap := 65 |}
    (PyStr.cps "alpha beta gamma delta") (PyStr.cps "en") (Some 2%Z) (Some 2%Z)
  = None.
Proof.
  apply (@token_windows_never_end Chunking.word_tokenizer
           {| Chunking.chunk_size := 500; Chunking.chunk_overlap := 65 |}
           (PyStr.cps "alpha beta gamma delta") (PyStr.cps "en")
           (Some 2%Z) (Some 2%Z));
    vm_compute; first [discriminate | reflexivity | lia].
Defined.

(** ** Runs of the further properties *)

Lemma update_job_status_witness :
  Storage.update_job_status 5 (PyStr.cps "en_report_0a1b2c3d") Storage.COMPLETED None
    Storage.empty_db
  = Storage.empty_db.
Proof.
  exact (proj2 (proj2 (proj2 (proj2
           (update_job_status_only_marks 5 (PyStr.cps "en_report_0a1b2c3d")
              Storage.COMPLETED None Storage.empty_db))))
           eq_refl).
Defined.

Lemma get_pending_jobs_witness :
  let db :=
    snd (Storage.add_job 1 (PyStr.cps "en_b_11111111") (PyStr.cps "b.pdf")
           (PyStr.cps "en") None Storage.empty_db) in
  In {| Storage.id := 1; Storage.doc_id := PyStr.cps "en_b_11111111";
        Storage.file_path := PyStr.cps "b.pdf"; Storage.language := PyStr.cps "en";
        Storage.status := Storage.PENDING; Storage.created_at := 1;
        Storage.updated_at := 1; Storage.error_message := None;
        Storage.metadata := Storage.dumps_or_empty None |}
    (Storage.get_pending_jobs 5 db).
Proof.
  intros db.
  apply (proj2 (proj2 (proj2 (get_pending_jobs_oldest_first 5 db)))).
  - right. vm_compute. discriminate.
  - left. reflexivity.
Defined.

Lemma split_by_sentences_witness :
  Chunking.split_by_sentences (PyStr.cps "Budget is fixed.  It is 50! Ask") (PyStr.cps "en")
  = [PyStr.cps "Budget is fixed.  "; PyStr.cps "It is 50! "].
Proof.
  pose proof (split_by_sentences_leaves_out_the_tail (PyStr.cps "Ask") (PyStr.cps "en"))
    as (Cut & None_ & _).
  change (PyStr.cps "Budget is fixed.  It is 50! Ask")
    with (PyStr.cps "Budget is fixed" ++ PyStr.cps "." ++ PyStr.cps "  "
          ++ PyStr.cps "It is 50! Ask").
  rewrite Cut by reflexivity.
  change (PyStr.cps "It is 50! Ask")
    with (PyStr.cps "It is 50" ++ PyStr.cps "!" ++ PyStr.cps " " ++ PyStr.cps "Ask").
  rewrite Cut by reflexivity.
  rewrite None_ by reflexivity.
  reflexivity.
Defined.

Lemma parse_reranking_witness :
  let mk := fun (c : string) (s : Z) =>
    @Retriever.Build_RetrievalResult Retriever.int_scores
      (PyStr.VStr (PyStr.cps c)) (PyStr.VStr (PyStr.cps "doc"))
      (PyStr.VStr (PyStr.cps "text")) s (PyStr.VStr (PyStr.cps "en"))
      (PyStr.VInt 1) [] in
  let results := [mk "c0"%string 9%Z; mk "c1"%string 7%Z] in
  map Some
    (@Reranker._parse_reranking_response Retriever.int_scores PyStr.ascii_tables
       (PyStr.cps "1 0") results)
  = map (nth_error results) [1; 0].
Proof.
  intros mk results.
  apply (proj2 (proj2 (@parse_reranking_response_keeps_every_passage
                         Retriever.int_scores PyStr.ascii_tables
                         (PyStr.cps "1 0") results))
           [1; 0]).
  - reflexivity.
  - apply perm_swap.
Defined.

Lemma rerank_disabled_witness :
  let mk := fun (c : string) (s : Z) =>
    @Retriever.Build_RetrievalResult Retriever.int_scores
      (PyStr.VStr (PyStr.cps c)) (PyStr.VStr (PyStr.cps "doc"))
      (PyStr.VStr (PyStr.cps "text")) s (PyStr.VStr (PyStr.cps "en"))
      (PyStr.VInt 1) [] in
  let self :=
    {| Reranker.enable_rerank := false; Reranker.rerank_backend := PyStr.cps "gemini";
       Reranker.rerank_top_k := 5%Z; Reranker.rerank_model := PyStr.cps "flash" |} in
  let results := [mk "c0"%string 9%Z; mk "c1"%string 7%Z] in
  @Reranker.rerank Retriever.int_scores PyStr.ascii_tables self
    (fun _ => PyStr.Return []) (PyStr.cps "budget") results (Some 0%Z)
  = PyStr.Return results.
Proof.
  intros mk self results.
  exact (proj1 (proj2 (@rerank_with_gemini_never_raises Retriever.int_scores
                         PyStr.ascii_tables self (fun _ => PyStr.Return [])
                         (PyStr.cps "budget") results (Some 0%Z))
                  eq_refl)).
Defined.

Lemma decompose_query_witness :
  let self :=
    {| Decomposition.enable_decomposition := true;
       Decomposition.ollama_host := PyStr.cps "http://localhost:11434";
       Decomposition.primary_model := PyStr.cps "deepseek-r1:1.5b";
       Decomposition.fallback_model := PyStr.cps "gemini-flash" |} in
  @Decomposition.decompose_query PyStr.ascii_tables self
    (fun _ _ _ => PyStr.Raise (PyStr.Exception "ConnectError" (PyStr.cps "refused")))
    (fun _ _ => PyStr.Return (PyStr.cps "What is the travel budget limit?"))
    (PyStr.cps "maximum budget allowed")
  = [PyStr.cps "maximum budget allowed"].
Proof.
  intros self.
  apply (proj1 (proj2 (proj2 (proj2 (proj2
           (@decompose_query_keeps_the_query_first PyStr.ascii_tables self
              (fun _ _ _ => PyStr.Raise (PyStr.Exception "ConnectError"
                                           (PyStr.cps "refused")))
              (fun _ _ => PyStr.Return (PyStr.cps "What is the travel budget limit?"))
              (PyStr.cps "maximum budget allowed"))))))).
  right. vm_compute. lia.
Defined.

Lemma retrieve_context_witness :
  let mk := fun (c body : string) (s : Z) =>
    @Retriever.Build_RetrievalResult Retriever.int_scores
      (PyStr.VStr (PyStr.cps c)) (PyStr.VStr (PyStr.cps "doc"))
      (PyStr.VStr (PyStr.cps body)) s (PyStr.VStr (PyStr.cps "en"))
      (PyStr.VInt 1) [] in
  let agents :=
    {| RAGContext.enable_decomposition := true;
       RAGContext.enable_rerank := false;
       RAGContext.extract_filters := fun _ => [];
       RAGContext.clean_query := fun q _ => q;
       RAGContext.decompose_query := fun q => [q; PyStr.cps "budget of 2024"];
       RAGContext.retrieve :=
         fun (calls : nat) _ _ _ =>
           (match calls with
            | O => [mk "c0"%string "budget plan"%string 9%Z;
                    mk "c1"%string "travel notes"%string 7%Z]
            | _ => [mk "c2"%string "minutes"%string 8%Z;
                    mk "c0"%string "budget plan"%string 6%Z;
                    mk "c3"%string "the budget"%string 5%Z;
                    mk "c1"%string "travel notes"%string 4%Z]
            end, S calls);
       RAGContext.rerank := fun _ results _ => PyStr.Return results |} in
  RAGContext.retrieve_context agents 0 (PyStr.cps "budget") 3%Z true
  = (PyStr.Return [mk "c0"%string "budget plan"%string 9%Z;
                   mk "c1"%string "travel notes"%string 7%Z;
                   mk "c2"%string "minutes"%string 8%Z], 2)
  /\ RAGContext.retrieve_context agents 0 (PyStr.cps "budget") 3%Z false
     = (PyStr.Return [mk "c0"%string "budget plan"%string 9%Z;
                      mk "c1"%string "travel notes"%string 7%Z], 1).
Proof.
  intros mk agents. split.
  - destruct (@retrieve_context_keeps_first_of_each_chunk Retriever.int_scores
                nat agents 0 (PyStr.cps "budget") 3%Z true)
      as (_ & _ & _ & _ & State & Off & _).
    destruct (Off eq_refl) as (_ & Context & _).
    specialize (Context ltac:(lia)).
    rewrite (surjective_pairing (RAGContext.retrieve_context _ _ _ _ _)).
    rewrite Context, State. reflexivity.
  - destruct (@retrieve_context_keeps_first_of_each_chunk Retriever.int_scores
                nat agents 0 (PyStr.cps "budget") 3%Z false)
      as (_ & _ & _ & _ & State & Off & _).
    destruct (Off eq_refl) as (_ & Context & _).
    specialize (Context ltac:(lia)).
    rewrite (surjective_pairing (RAGContext.retrieve_context _ _ _ _ _)).
    rewrite Context, State. reflexivity.
Defined.

Lemma pack_witness :
  exists chunk,
    In chunk (@Chunking.pack Chunking.word_tokenizer [PyStr.NL; PyStr.NL] 2%Z 1%Z
                [Chunking.first_paragraph; PyStr.cps " delta "])
    /\ Chunking.inside (PyStr.cps "delta") chunk.
Proof.
  apply (proj1 (@pack_loses_no_unit Chunking.word_tokenizer [PyStr.NL; PyStr.NL]
                  2%Z 1%Z [Chunking.first_paragraph; PyStr.cps " delta "])
           (PyStr.cps " delta ")).
  - right. now left.
  - vm_compute. discriminate.
Defined.
